(** * e3nn-jax: the [IrrepsArray] container of [e3nn_jax/_irreps_array.py]

    A shallow embedding of the typed-tensor container (a flat buffer, an
    irreps specification and a lazily derived list of per-irrep blocks) and of
    the operations built on it: construction and validation, the block view,
    [split], [convert], the arithmetic operators with their equivariance
    guards, and the reductions [_reduce] and [norm].

    Arrays of the numeric runtime are modelled as a shape together with the
    row-major list of their elements.  Python exceptions are modelled by the
    error monad [result]. *)

From Stdlib Require Import List Arith ZArith Bool Lia Sorted.
Import ListNotations.

Set Implicit Arguments.

(** ** Exceptions and the error monad *)

(** The exceptions the container raises.  The Python code raises
    [ValueError] for several distinct conditions; they are told apart here by
    the condition (the message of the exception), following the error kinds
    of the specification. *)
Inductive exn : Type :=
| ShapeMismatch                (* ValueError: array or list shape incompatible with irreps *)
| EquivarianceViolation        (* ValueError: "... is not equivariant" / "... ambiguous" *)
| DivisionByDeterministicZero  (* ValueError: "There are deterministic Zeros ..." *)
| AssertionError               (* a failed [assert] *)
| TypeError                    (* an operator applied to [None] *)
| IndexError                   (* a sequence indexed out of range *)
| RuntimeShapeError            (* raised by the numeric runtime: sizes or shapes disagree *)
| CollaboratorError            (* raised by an external collaborator *)
| NoProgress.                  (* a loop of the source that would not advance *)

Inductive result (A : Type) : Type :=
| Ok (a : A)
| Raise (e : exn).

Arguments Ok {A} a.
Arguments Raise {A} e.

Definition bind {A B : Type} (m : result A) (f : A -> result B) : result B :=
  match m with
  | Ok a => f a
  | Raise e => Raise e
  end.

Notation "x <- m ;; k" := (bind m (fun x => k))
  (at level 61, m at next level, right associativity).
Notation "' pat <- m ;; k" := (bind m (fun x => match x with pat => k end))
  (at level 61, pat pattern, m at next level, right associativity).

(** [assert c] of Python. *)
Definition assert (c : bool) : result unit :=
  if c then Ok tt else Raise AssertionError.

(** A list comprehension whose body can raise. *)
Fixpoint mapM {A B : Type} (f : A -> result B) (l : list A) : result (list B) :=
  match l with
  | [] => Ok []
  | a :: l' => b <- f a ;; bs <- mapM f l' ;; Ok (b :: bs)
  end.


(** ** Elements of arrays *)

(** The operations of the element type that the container uses.  The source
    runs on floating-point numbers; the embedding is parametric in the
    element type and assumes no law of these operations unless a theorem
    states it as a hypothesis. *)
Class Scalar (T : Type) : Type := {
  zero : T;
  one : T;
  add : T -> T -> T;
  sub : T -> T -> T;
  mul : T -> T -> T;
  div : T -> T -> T;
  sqrt : T -> T;
  eqb : T -> T -> bool
}.

#[export] Instance Scalar_Z : Scalar Z := {
  zero := 0%Z;
  one := 1%Z;
  add := Z.add;
  sub := Z.sub;
  mul := Z.mul;
  div := Z.div;
  sqrt := Z.sqrt;
  eqb := Z.eqb
}.

(** ** Shapes *)

Fixpoint shape_eqb (s t : list nat) : bool :=
  match s, t with
  | [], [] => true
  | a :: s', b :: t' => Nat.eqb a b && shape_eqb s' t'
  | _, _ => false
  end.

(** Number of elements of an array of shape [s]. *)
Definition size (s : list nat) : nat := fold_right Nat.mul 1 s.

(** [s[-1]]; it raises [IndexError] on the empty tuple. *)
Definition last_dim (s : list nat) : result nat :=
  match s with
  | [] => Raise IndexError
  | _ => Ok (last s 0)
  end.

(** ** The numeric runtime: n-dimensional arrays *)

Module jnp.

Record ndarray (A : Type) : Type := mk { shape : list nat; data : list A }.

Arguments mk {A} shape data.

Section Arrays.
Context {A : Type}.

Definition ndim (a : ndarray A) : nat := length (shape a).

(** An array holds exactly as many elements as its shape says. *)
Definition wf (a : ndarray A) : Prop := length (data a) = size (shape a).

Definition full (s : list nat) (v : A) : ndarray A := mk s (repeat v (size s)).

(** [jnp.reshape a s]: the elements in row-major order are kept. *)
Definition reshape (a : ndarray A) (s : list nat) : result (ndarray A) :=
  if size (shape a) =? size s then Ok (mk s (data a)) else Raise RuntimeShapeError.

(** Row [r] of a row-major buffer [d] read as rows of width [w]. *)
Definition chunk (w r : nat) (d : list A) : list A := firstn w (skipn (r * w) d).

(** The part of a shape before, at and after the axis that is the [k]-th
    from the end ([k = 1] for [axis=-1], [k = 2] for [axis=-2]). *)
Definition pre_axis (k : nat) (s : list nat) : list nat := firstn (length s - k) s.
Definition at_axis (k : nat) (s : list nat) : nat := nth (length s - k) s 0.
Definition post_axis (k : nat) (s : list nat) : list nat := skipn (length s - k + 1) s.

Definition has_axis (k : nat) (s : list nat) : bool := (1 <=? k) && (k <=? length s).

(** [jnp.concatenate arrs axis=-k]. *)
Definition concatenate (arrs : list (ndarray A)) (k : nat) : result (ndarray A) :=
  match arrs with
  | [] => Raise RuntimeShapeError
  | a0 :: _ =>
      let pre := pre_axis k (shape a0) in
      let post := post_axis k (shape a0) in
      if forallb (fun a => has_axis k (shape a)
                           && shape_eqb (pre_axis k (shape a)) pre
                           && shape_eqb (post_axis k (shape a)) post) arrs
      then Ok (mk (pre ++ [list_sum (map (fun a => at_axis k (shape a)) arrs)] ++ post)
                  (flat_map (fun r =>
                     flat_map (fun a => chunk (at_axis k (shape a) * size post) r (data a)) arrs)
                     (seq 0 (size pre))))
      else Raise RuntimeShapeError
  end.

(** The sub-array [a[..., start:start+len, ...]] along the [k]-th axis from
    the end, with [start + len] within the axis. *)
Definition take_axis (a : ndarray A) (k start len : nat) : ndarray A :=
  let pre := pre_axis k (shape a) in
  let post := post_axis k (shape a) in
  let w := at_axis k (shape a) * size post in
  mk (pre ++ [len] ++ post)
     (flat_map (fun r => firstn (len * size post) (skipn (start * size post) (chunk w r (data a))))
        (seq 0 (size pre))).

(** Indexing [a[..., start:stop]] on the last axis, with the clipping of a
    Python slice. *)
Definition getitem_last (a : ndarray A) (start stop : nat) : result (ndarray A) :=
  if has_axis 1 (shape a) then
    let n := at_axis 1 (shape a) in
    let start' := Nat.min start n in
    let stop' := Nat.max start' (Nat.min stop n) in
    Ok (take_axis a 1 start' (stop' - start'))
  else Raise IndexError.

(** The consecutive pieces of [jnp.split]: [bounds] are the split points
    with the axis length appended, [start] the previous split point. *)
Fixpoint split_from (a : ndarray A) (k start : nat) (bounds : list nat)
  : result (list (ndarray A)) :=
  match bounds with
  | [] => Ok []
  | stop :: bounds' =>
      if (start <=? stop) && (stop <=? at_axis k (shape a)) then
        rest <- split_from a k stop bounds' ;;
        Ok (take_axis a k start (stop - start) :: rest)
      else Raise RuntimeShapeError
  end.

(** [jnp.split a indices axis=-k]: [len(indices) + 1] pieces. *)
Definition split (a : ndarray A) (indices : list nat) (k : nat)
  : result (list (ndarray A)) :=
  if has_axis k (shape a)
  then split_from a k 0 (indices ++ [at_axis k (shape a)])
  else Raise RuntimeShapeError.

(** [a[..., None]]: a new trailing axis of length one. *)
Definition expand_last (a : ndarray A) : ndarray A := mk (shape a ++ [1]) (data a).

End Arrays.

Definition map_elts {A B : Type} (f : A -> B) (a : ndarray A) : ndarray B :=
  mk (shape a) (map f (data a)).

(** *** Broadcasting *)

(** [jnp.broadcast_shapes] on the reversed shapes (last axis first). *)
Fixpoint broadcast_rev (s t : list nat) : result (list nat) :=
  match s, t with
  | [], _ => Ok t
  | _, [] => Ok s
  | a :: s', b :: t' =>
      rest <- broadcast_rev s' t' ;;
      if a =? b then Ok (a :: rest)
      else if a =? 1 then Ok (b :: rest)
      else if b =? 1 then Ok (a :: rest)
      else Raise RuntimeShapeError
  end.

Definition broadcast_shapes (s t : list nat) : result (list nat) :=
  r <- broadcast_rev (rev s) (rev t) ;; Ok (rev r).

(** The multi-indices of an array of shape [s], in row-major order. *)
Fixpoint indices (s : list nat) : list (list nat) :=
  match s with
  | [] => [[]]
  | n :: s' => flat_map (fun i => map (cons i) (indices s')) (seq 0 n)
  end.

(** Position in the row-major buffer of an array of shape [s] of the
    element read at multi-index [idx] under broadcasting: an axis of length
    one is read at 0. *)
Fixpoint offset (s idx : list nat) : nat :=
  match s, idx with
  | n :: s', i :: idx' => (if n =? 1 then 0 else i) * size s' + offset s' idx'
  | _, _ => 0
  end.

(** The element of [a] that broadcasting puts at multi-index [idx] of a
    result with at least as many axes. *)
Definition bget {A : Type} (a : ndarray A) (idx : list nat) : option A :=
  nth_error (data a) (offset (shape a) (skipn (length idx - length (shape a)) idx)).

(** An elementwise binary operator of the runtime, with broadcasting. *)
Definition map2 {A B C : Type} (f : A -> B -> C) (a : ndarray A) (b : ndarray B)
  : result (ndarray C) :=
  s <- broadcast_shapes (shape a) (shape b) ;;
  Ok (mk s (flat_map (fun idx =>
                        match bget a idx, bget b idx with
                        | Some x, Some y => [f x y]
                        | _, _ => []
                        end) (indices s))).

(** *** Reductions *)

(** [i % ndim] for [-ndim <= i < ndim]. *)
Definition norm_axis (n : nat) (i : Z) : nat := Z.to_nat (i mod Z.of_nat n).

Definition axes_in_range (n : nat) (axes : list Z) : bool :=
  forallb (fun i => (- Z.of_nat n <=? i)%Z && (i <? Z.of_nat n)%Z) axes.

(** The shape left by a reduction over [axes]: a reduced axis is dropped,
    or kept with length one under [keepdims]. *)
Fixpoint reduce_dims (axes : list nat) (keepdims : bool) (k : nat) (s : list nat) : list nat :=
  match s with
  | [] => []
  | n :: s' =>
      (if existsb (Nat.eqb k) axes then (if keepdims then [1] else []) else [n])
      ++ reduce_dims axes keepdims (S k) s'
  end.

Definition reduce_shape (s : list nat) (axes : list Z) (keepdims : bool) : list nat :=
  reduce_dims (map (norm_axis (length s)) axes) keepdims 0 s.

(** A multi-index with the reduced axes set to 0. *)
Fixpoint project (axes : list nat) (k : nat) (idx : list nat) : list nat :=
  match idx with
  | [] => []
  | i :: idx' => (if existsb (Nat.eqb k) axes then 0 else i) :: project axes (S k) idx'
  end.

(** A reduction of the runtime ([jnp.sum], [jnp.mean]) over [axes]: [f]
    folds the elements that share the remaining coordinates. *)
Definition reduce {A : Type} (f : list A -> A) (a : ndarray A) (axes : list Z)
  (keepdims : bool) : result (ndarray A) :=
  if axes_in_range (length (shape a)) axes then
    let ax := map (norm_axis (length (shape a))) axes in
    Ok (mk (reduce_shape (shape a) axes keepdims)
           (map (fun o =>
                   f (flat_map (fun i =>
                                  if shape_eqb (project ax 0 i) o
                                  then match nth_error (data a) (offset (shape a) i) with
                                       | Some x => [x]
                                       | None => []
                                       end
                                  else [])
                               (indices (shape a))))
                (indices (reduce_dims ax true 0 (shape a)))))
  else Raise RuntimeShapeError.

Definition zeros {T : Type} `{Scalar T} (s : list nat) : ndarray T := full s zero.
Definition ones {T : Type} `{Scalar T} (s : list nat) : ndarray T := full s one.

Section Numeric.
Context {T : Type} `{Scalar T}.

Definition total (l : list T) : T := fold_right add zero l.

(** The number [n] as an element, for the denominator of a mean. *)
Definition count (n : nat) : T := Nat.iter n (add one) zero.

Definition sum : ndarray T -> list Z -> bool -> result (ndarray T) := reduce total.

Definition mean : ndarray T -> list Z -> bool -> result (ndarray T) :=
  reduce (fun l => div (total l) (count (length l))).

End Numeric.

(** *** Reshaping with a placeholder, broadcasting to a shape *)

(** [x.reshape(s)] for a shape of integers in which one entry may be the
    placeholder [-1], standing for the length that keeps the number of
    elements. *)
Definition reshape_to {A : Type} (a : ndarray A) (s : list Z) : result (ndarray A) :=
  let known := size (map Z.to_nat (filter (fun d => negb (d =? -1)%Z) s)) in
  if negb (forallb (fun d => (-1 <=? d)%Z) s) then Raise RuntimeShapeError
  else match length (filter (fun d => (d =? -1)%Z) s) with
       | 0 => reshape a (map Z.to_nat s)
       | 1 =>
           if (0 <? known) && (size (shape a) mod known =? 0)
           then reshape a (map (fun d => if (d =? -1)%Z then size (shape a) / known
                                         else Z.to_nat d) s)
           else Raise RuntimeShapeError
       | _ => Raise RuntimeShapeError
       end.

(** [jnp.broadcast_to a s]: the shape of [a] must broadcast to exactly [s]. *)
Definition broadcast_to {A : Type} (a : ndarray A) (s : list Z) : result (ndarray A) :=
  if forallb (fun d => (0 <=? d)%Z) s then
    let s := map Z.to_nat s in
    r <- broadcast_shapes (shape a) s ;;
    if shape_eqb r s
    then Ok (mk s (flat_map (fun idx => match bget a idx with
                                        | Some x => [x]
                                        | None => []
                                        end) (indices s)))
    else Raise RuntimeShapeError
  else Raise RuntimeShapeError.

(** [jnp.concatenate arrs axis] for an [axis] counted from the front. *)
Definition concatenate_at {A : Type} (arrs : list (ndarray A)) (axis : nat)
  : result (ndarray A) :=
  match arrs with
  | [] => Raise RuntimeShapeError
  | a0 :: _ =>
      if axis <? ndim a0 then concatenate arrs (ndim a0 - axis)
      else Raise RuntimeShapeError
  end.

(** [jnp.all a axis keepdims] on a boolean array. *)
Definition all_ : ndarray bool -> list Z -> bool -> result (ndarray bool) :=
  reduce (forallb (fun b : bool => b)).

End jnp.

(** ** The irreps collaborator *)

Module Irreps.

Inductive parity : Type := Even | Odd.

(** Modelled from the spec: the irrep tag of [e3nn_jax.Irrep], which is not
    among the sources.  A tag carries an angular order and a parity and has
    a fixed dimension; the scenario of the specification that splits
    [0e + 1e] over a buffer of four elements into one and three elements
    fixes the dimensions of orders 0 and 1, in line with [2 * l + 1]. *)
Record Irrep : Type := mkIrrep { l : nat; p : parity }.

Definition parity_eqb (a b : parity) : bool :=
  match a, b with
  | Even, Even | Odd, Odd => true
  | _, _ => false
  end.

Definition ir_eqb (a b : Irrep) : bool := Nat.eqb (l a) (l b) && parity_eqb (p a) (p b).

Definition ir_dim (ir : Irrep) : nat := 2 * l ir + 1.

(** The tags written ["0e"], ["0o"], ["1e"], ["1o"] and ["2e"] in the source. *)
Definition ir0e : Irrep := mkIrrep 0 Even.
Definition ir0o : Irrep := mkIrrep 0 Odd.
Definition ir1e : Irrep := mkIrrep 1 Even.
Definition ir1o : Irrep := mkIrrep 1 Odd.
Definition ir2e : Irrep := mkIrrep 2 Even.

(** Modelled from the spec: the [IrrepsSpec] of [e3nn_jax.Irreps], which is
    not among the sources: an ordered sequence of (multiplicity, irrep)
    pairs. *)
Definition MulIr : Type := (nat * Irrep)%type.
Definition t : Type := list MulIr.

Definition mulir_eqb (a b : MulIr) : bool := Nat.eqb (fst a) (fst b) && ir_eqb (snd a) (snd b).

Fixpoint eqb (a b : t) : bool :=
  match a, b with
  | [], [] => true
  | x :: a', y :: b' => mulir_eqb x y && eqb a' b'
  | _, _ => false
  end.

(** Modelled from the spec: [MulIr.dim], the multiplicity times the
    dimension of the irrep. *)
Definition mulir_dim (mi : MulIr) : nat := fst mi * ir_dim (snd mi).

(** Modelled from the spec: [Irreps.dim], the sum over the entries of
    multiplicity times irrep dimension. *)
Definition dim (irreps : t) : nat := list_sum (map mulir_dim irreps).

(** Modelled from the spec: [Irreps.num_irreps], the number of irrep
    channels, that is the sum of the multiplicities. *)
Definition num_irreps (irreps : t) : nat := list_sum (map fst irreps).

(** Modelled from the spec: [Irreps.slices()], the range of offsets of each
    entry in the flat dimension, as (start, stop) pairs. *)
Fixpoint slices_from (i : nat) (irreps : t) : list (nat * nat) :=
  match irreps with
  | [] => []
  | mi :: rest => (i, i + mulir_dim mi) :: slices_from (i + mulir_dim mi) rest
  end.

Definition slices (irreps : t) : list (nat * nat) := slices_from 0 irreps.

(** Modelled from the spec: [Irreps.simplify()], which merges adjacent
    entries with identical irrep tags and drops zero-multiplicity entries.
    [out] is the simplified prefix built so far, most recent entry first:
    an entry is merged into the most recent one when the tags agree, and is
    otherwise appended unless its multiplicity is zero. *)
Fixpoint simplify_into (out : list MulIr) (irreps : t) : t :=
  match irreps with
  | [] => rev out
  | (mul, ir) :: rest =>
      match out with
      | (mul', ir') :: out' =>
          if ir_eqb ir' ir then simplify_into ((mul' + mul, ir') :: out') rest
          else if 0 <? mul then simplify_into ((mul, ir) :: out) rest
          else simplify_into out rest
      | [] =>
          if 0 <? mul then simplify_into [(mul, ir)] rest
          else simplify_into [] rest
      end
  end.

Definition simplify (irreps : t) : t := simplify_into [] irreps.

(** The largest angular order among the entries (0 when there is none). *)
Definition max_order (irreps : t) : nat :=
  fold_right Nat.max 0 (map (fun mi : MulIr => l (snd mi)) irreps).

(** Modelled from the spec: [Irreps.lmax], the maximum angular order of the
    entries.  The specification does not say what it is on an empty spec;
    [lmax_of_empty] stands for what the collaborator answers there: an
    order, or [None] when it raises. *)
Definition lmax (lmax_of_empty : option nat) (irreps : t) : result nat :=
  match irreps with
  | [] => match lmax_of_empty with
          | Some n => Ok n
          | None => Raise CollaboratorError
          end
  | _ => Ok (max_order irreps)
  end.

(** The irrep tag of every channel, in order: each entry repeated by its
    multiplicity.  Two specs simplify to the same spec exactly when they
    agree channel by channel. *)
Definition channels (irreps : t) : list Irrep :=
  flat_map (fun mi => repeat (snd mi) (fst mi)) irreps.

End Irreps.

(** ** The container *)

Import jnp.

(** [IrrepsArray]: [_list] is [None] until the block view is first asked for
    or when no list was given at construction. *)
Record IrrepsArray (A : Type) : Type := mkIrrepsArray {
  irreps : Irreps.t;
  array : ndarray A;
  _list : option (list (option (ndarray A)))
}.

Arguments mkIrrepsArray {A} irreps array _list.

(** [x.shape == leading_shape + (mul, ir.dim)] for a block that is not [None]. *)
Definition block_shape_ok {A : Type} (leading_shape : list nat)
  (x : option (ndarray A)) (mul_ir : Irreps.MulIr) : bool :=
  match x with
  | None => true
  | Some x => shape_eqb (shape x) (leading_shape ++ [fst mul_ir; Irreps.ir_dim (snd mul_ir)])
  end.

Section Container.
Context {A : Type}.

(** [IrrepsArray.__init__]. *)
Definition __init__ (irreps : Irreps.t) (array : ndarray A)
  (lst : option (list (option (ndarray A)))) (_perform_checks : bool)
  : result (IrrepsArray A) :=
  if _perform_checks then
    n <- last_dim (shape array) ;;
    if negb (n =? Irreps.dim irreps) then Raise ShapeMismatch
    else match lst with
         | None => Ok (mkIrrepsArray irreps array lst)
         | Some l =>
             if negb (length l =? length irreps) then Raise ShapeMismatch
             else if forallb (fun xm => block_shape_ok (removelast (shape array)) (fst xm) (snd xm))
                       (combine l irreps)
             then Ok (mkIrrepsArray irreps array lst)
             else Raise ShapeMismatch
         end
  else Ok (mkIrrepsArray irreps array lst).

(** The block view derived from the buffer, as the [list] property computes
    it when [_list] is [None]. *)
Definition derive_list (irreps : Irreps.t) (array : ndarray A)
  : result (list (option (ndarray A))) :=
  let leading_shape := removelast (shape array) in
  match irreps with
  | [(mul, ir)] =>
      x <- reshape array (leading_shape ++ [mul; Irreps.ir_dim ir]) ;;
      Ok [Some x]
  | _ =>
      mapM (fun im : (nat * nat) * Irreps.MulIr =>
              let '((start, stop), (mul, ir)) := im in
              s <- getitem_last array start stop ;;
              x <- reshape s (leading_shape ++ [mul; Irreps.ir_dim ir]) ;;
              Ok (Some x))
           (combine (Irreps.slices irreps) irreps)
  end.

(** The [list] property, with the object after the access: the view is
    stored in [_list] the first time it is computed. *)
Definition list_cached (self : IrrepsArray A)
  : result (IrrepsArray A * list (option (ndarray A))) :=
  match _list self with
  | Some l => Ok (self, l)
  | None =>
      l <- derive_list (irreps self) (array self) ;;
      Ok (mkIrrepsArray (irreps self) (array self) (Some l), l)
  end.

(** The value of the [list] property. *)
Definition list_ (self : IrrepsArray A) : result (list (option (ndarray A))) :=
  '(_, l) <- list_cached self ;; Ok l.

(** [self.array], for use where a variable named [array] is in scope. *)
Definition array_of (self : IrrepsArray A) : ndarray A := array self.

(** [self.shape]. *)
Definition shape_of (self : IrrepsArray A) : list nat := shape (array self).

End Container.

Section Constructors.
Context {T : Type} `{Scalar T}.

(** [IrrepsArray.from_list].  The test that every element is an array or
    [None] holds by typing. *)
Definition from_list (irreps : Irreps.t) (lst : list (option (ndarray T)))
  (leading_shape : list nat) : result (IrrepsArray T) :=
  if negb (length irreps =? length lst) then Raise ShapeMismatch
  else if negb (forallb (fun xm => block_shape_ok leading_shape (fst xm) (snd xm))
                  (combine lst irreps))
  then Raise ShapeMismatch
  else
    array <-
      (if 0 <? Irreps.dim irreps then
         parts <- mapM (fun mx : Irreps.MulIr * option (ndarray T) =>
                          match snd mx with
                          | None => Ok (zeros (leading_shape ++ [Irreps.mulir_dim (fst mx)]))
                          | Some x => reshape x (leading_shape ++ [Irreps.mulir_dim (fst mx)])
                          end)
                    (combine irreps lst) ;;
         concatenate parts 1
       else Ok (zeros (leading_shape ++ [0]))) ;;
    __init__ irreps array (Some lst) true.

(** [IrrepsArray.zeros]. *)
Definition zeros (irreps : Irreps.t) (leading_shape : list nat) : result (IrrepsArray T) :=
  __init__ irreps (jnp.zeros (leading_shape ++ [Irreps.dim irreps]))
    (Some (repeat None (length irreps))) true.

(** [IrrepsArray.ones]. *)
Definition ones (irreps : Irreps.t) (leading_shape : list nat) : result (IrrepsArray T) :=
  __init__ irreps (jnp.ones (leading_shape ++ [Irreps.dim irreps]))
    (Some (map (fun mi : Irreps.MulIr =>
                  Some (jnp.ones (leading_shape ++ [fst mi; Irreps.ir_dim (snd mi)]))) irreps))
    true.

End Constructors.

(** ** Splitting *)

(** The argument of [split]: integer boundaries between irrep entries, or
    target specs.  Python tells the two apart by
    [all(isinstance(i, int) for i in indices)], which also holds of the
    empty list. *)
Inductive split_indices : Type :=
| Ints (indices : list nat)
| Specs (indices : list Irreps.t).

(** [l[i:j]] of Python for non-negative [i] and [j]. *)
Definition py_slice {X : Type} (i j : nat) (l : list X) : list X := skipn i (firstn j l).

Section Split.
Context {A : Type}.

(** The branch of [split] for integer boundaries. *)
Definition split_ints (self : IrrepsArray A) (indices : list nat)
  : result (list (IrrepsArray A)) :=
  array_parts <- jnp.split (array self)
                   (map (fun i => Irreps.dim (firstn i (irreps self))) indices) 1 ;;
  _ <- assert (length array_parts =? length indices + 1) ;;
  l <- list_ self ;;
  mapM (fun ija : (nat * nat) * ndarray A =>
          let '((i, j), a) := ija in
          __init__ (py_slice i j (irreps self)) a (Some (py_slice i j l)) true)
       (combine (combine (0 :: indices) (indices ++ [length (irreps self)])) array_parts).

(** The branch of [split] for target specs. *)
Definition split_specs (self : IrrepsArray A) (irrepss : list Irreps.t)
  : result (list (IrrepsArray A)) :=
  _ <- assert (Irreps.eqb (Irreps.simplify (irreps self))
                          (Irreps.simplify (concat irrepss))) ;;
  array_parts <- jnp.split (array self)
                   (map (fun i => list_sum (map Irreps.dim (firstn i irrepss)))
                        (seq 1 (length irrepss - 1))) 1 ;;
  _ <- assert (length array_parts =? length irrepss) ;;
  mapM (fun ia : Irreps.t * ndarray A => __init__ (fst ia) (snd ia) None true)
       (combine irrepss array_parts).

(** [IrrepsArray.split]. *)
Definition split (self : IrrepsArray A) (indices : split_indices)
  : result (list (IrrepsArray A)) :=
  match indices with
  | Ints indices => split_ints self indices
  | Specs [] => split_ints self []
  | Specs irrepss => split_specs self irrepss
  end.

End Split.

(** ** Layout conversion *)

(** [x.shape[-k]]; it raises [IndexError] when the array has fewer axes. *)
Definition shape_at (k : nat) (s : list nat) : result nat :=
  if has_axis k s then Ok (at_axis k s) else Raise IndexError.

Section Convert.
Context {T : Type} `{Scalar T}.

(** The variable [current_array] of [convert]: an [int] while every
    contribution to the slot was [None], an array afterwards. *)
Inductive accumulator : Type :=
| Count (n : nat)
| Arr (a : ndarray T).

(** [while len(new_list) < len(irreps) and irreps[len(new_list)].mul == 0:
    new_list.append(None)], by recursion on the slots not yet sealed. *)
Fixpoint skip_zero_mul (rest : Irreps.t) (new_list : list (option (ndarray T)))
  : list (option (ndarray T)) :=
  match rest with
  | (0, _) :: rest' => skip_zero_mul rest' (new_list ++ [None])
  | _ => new_list
  end.

Definition skip_zero_slots (irreps : Irreps.t) (new_list : list (option (ndarray T)))
  : list (option (ndarray T)) :=
  skip_zero_mul (skipn (length new_list) irreps) new_list.

(** [current_array.shape[-2]], or [current_array] itself when it is an [int]. *)
Definition current_mul_of (current_array : accumulator) : result nat :=
  match current_array with
  | Count n => Ok n
  | Arr a => shape_at 2 (shape a)
  end.

(** [x, y = jnp.split(y, [needed_mul], axis=-2)]. *)
Definition split_block (y : ndarray T) (needed_mul : nat)
  : result (ndarray T * ndarray T) :=
  parts <- jnp.split y [needed_mul] 2 ;;
  match parts with
  | [x; y'] => Ok (x, y')
  | _ => Raise RuntimeShapeError
  end.

(** The update of [current_array] by a contribution [x] of multiplicity [m]. *)
Definition accumulate (leading_shape : list nat) (ir : Irreps.Irrep)
  (current_array : accumulator) (x : option (ndarray T)) (m : nat) : result accumulator :=
  match x, current_array with
  | None, Count n => Ok (Count (n + m))
  | None, Arr a =>
      r <- concatenate [a; jnp.zeros (leading_shape ++ [m; Irreps.ir_dim ir])] 2 ;;
      Ok (Arr r)
  | Some x, Count n =>
      if n =? 0 then Ok (Arr x)
      else r <- concatenate [jnp.zeros (leading_shape ++ [n; Irreps.ir_dim ir]); x] 2 ;;
           Ok (Arr r)
  | Some x, Arr a =>
      r <- concatenate [a; x] 2 ;;
      Ok (Arr r)
  end.

(** The sealing of the slot being filled once it holds [target_mul]. *)
Definition seal (target_mul : nat) (new_list : list (option (ndarray T)))
  (current_array : accumulator) : result (list (option (ndarray T)) * accumulator) :=
  match current_array with
  | Count n =>
      if n =? target_mul then Ok (new_list ++ [None], Count 0)
      else Ok (new_list, current_array)
  | Arr a =>
      n <- shape_at 2 (shape a) ;;
      if n =? target_mul then Ok (new_list ++ [Some a], Count 0)
      else Ok (new_list, current_array)
  end.

(** The loop [while mul > 0] over one source block.  Every turn consumes
    [min mul needed_mul] of the block's multiplicity, so [fuel = mul] turns
    suffice whenever [needed_mul > 0]; with [needed_mul <= 0] and
    [mul > needed_mul] the source loop would not advance, which the model
    reports as [NoProgress].  [mul <= needed_mul], where
    [needed_mul = irreps[len(new_list)].mul - current_mul] is an integer, is
    written [mul + current_mul <= irreps[len(new_list)].mul]. *)
Fixpoint convert_block (fuel : nat) (irreps : Irreps.t) (leading_shape : list nat)
  (mul_ir : Irreps.MulIr) (mul : nat) (y : option (ndarray T))
  (new_list : list (option (ndarray T))) (current_array : accumulator)
  : result (list (option (ndarray T)) * accumulator) :=
  if mul =? 0 then Ok (new_list, current_array)
  else match fuel with
  | 0 => Raise NoProgress
  | S fuel' =>
      current_mul <- current_mul_of current_array ;;
      target <- match nth_error irreps (length new_list) with
                | Some target => Ok target
                | None => Raise IndexError
                end ;;
      '(x, y', m, mul') <-
        (if mul + current_mul <=? fst target then Ok (y, y, mul, 0)
         else if fst target <=? current_mul then Raise NoProgress
         else
           let needed_mul := fst target - current_mul in
           match y with
           | None => Ok (None, None, needed_mul, mul - needed_mul)
           | Some y =>
               '(x, y') <- split_block y needed_mul ;;
               Ok (Some x, Some y', needed_mul, mul - needed_mul)
           end) ;;
      current_array <- accumulate leading_shape (snd mul_ir) current_array x m ;;
      '(new_list, current_array) <- seal (fst target) new_list current_array ;;
      convert_block fuel' irreps leading_shape mul_ir mul' y'
        (skip_zero_slots irreps new_list) current_array
  end.

(** [for mul_ir, y in zip(self.irreps, self.list)]. *)
Fixpoint convert_blocks (irreps : Irreps.t) (leading_shape : list nat)
  (blocks : list (Irreps.MulIr * option (ndarray T)))
  (new_list : list (option (ndarray T))) (current_array : accumulator)
  : result (list (option (ndarray T)) * accumulator) :=
  match blocks with
  | [] => Ok (new_list, current_array)
  | (mul_ir, y) :: rest =>
      '(new_list, current_array) <-
        convert_block (fst mul_ir) irreps leading_shape mul_ir (fst mul_ir) y
          new_list current_array ;;
      convert_blocks irreps leading_shape rest new_list current_array
  end.

(** [x.shape[-2:] == (mul, ir.dim)] for a block that is not [None]. *)
Definition trailing_shape_ok (x : option (ndarray T)) (mul_ir : Irreps.MulIr) : bool :=
  match x with
  | None => true
  | Some x => shape_eqb (skipn (length (shape x) - 2) (shape x))
                [fst mul_ir; Irreps.ir_dim (snd mul_ir)]
  end.

(** [IrrepsArray.convert], with the object after the call: the block view of
    [self] is stored by the access to [self.list].  The argument [irreps] of
    the source is written [new_irreps].  An array left in [current_array] at
    the end makes [assert current_array == 0] compare elementwise; the slot
    it belongs to was not sealed, and the model raises [AssertionError]
    there. *)
Definition convert_st (self : IrrepsArray T) (new_irreps : Irreps.t)
  : IrrepsArray T * result (IrrepsArray T) :=
  if negb (Irreps.eqb (Irreps.simplify (irreps self)) (Irreps.simplify new_irreps))
  then (self, Raise AssertionError)
  else
    let leading_shape := removelast (shape_of self) in
    let new_list := skip_zero_slots new_irreps [] in
    match list_cached self with
    | Raise e => (self, Raise e)
    | Ok (self', l) =>
        (self',
         '(new_list, current_array) <-
           convert_blocks new_irreps leading_shape (combine (irreps self) l)
             new_list (Count 0) ;;
         _ <- assert (match current_array with Count n => n =? 0 | Arr _ => false end) ;;
         _ <- assert (length new_list =? length new_irreps) ;;
         _ <- assert (forallb (fun xm => trailing_shape_ok (fst xm) (snd xm))
                        (combine new_list new_irreps)) ;;
         __init__ new_irreps (array self) (Some new_list) true)
    end.

Definition convert (self : IrrepsArray T) (new_irreps : Irreps.t) : result (IrrepsArray T) :=
  snd (convert_st self new_irreps).

End Convert.

(** ** Elementwise algebra *)

(** The right operand of an operator: an [IrrepsArray], or anything else,
    which the operators turn into an array of the runtime. *)
Inductive operand (A : Type) : Type :=
| Tensor (other : IrrepsArray A)
| Bare (other : ndarray A).

Arguments Tensor {A} other.
Arguments Bare {A} other.

Definition is_none {X : Type} (x : option X) : bool :=
  match x with None => true | Some _ => false end.

Section Algebra.
Context {T : Type} `{Scalar T}.

(** What [Irreps.lmax] answers on an empty spec. *)
Variable lmax_of_empty : option nat.

(** [e3nn.elementwise_tensor_product], which is not among the sources; it
    answers [None] when it raises. *)
Variable elementwise_tensor_product : IrrepsArray T -> IrrepsArray T -> option (IrrepsArray T).

Definition tensor_product (x y : IrrepsArray T) : result (IrrepsArray T) :=
  match elementwise_tensor_product x y with
  | Some r => Ok r
  | None => Raise CollaboratorError
  end.

Definition lmax_ (self : IrrepsArray T) : result nat := Irreps.lmax lmax_of_empty (irreps self).

(** [other.ndim > 0 and other.shape[-1] != 1]. *)
Definition not_per_element {X : Type} (other : ndarray X) : bool :=
  (0 <? ndim other) && negb (last (shape other) 0 =? 1).


(** [x if y is None else (y if x is None else x + y)]. *)
Definition add_blocks (xy : option (ndarray T) * option (ndarray T))
  : result (option (ndarray T)) :=
  match xy with
  | (x, None) => Ok x
  | (None, Some y) => Ok (Some y)
  | (Some x, Some y) => r <- map2 add x y ;; Ok (Some r)
  end.

(** [IrrepsArray.__add__]. *)
Definition __add__ (self : IrrepsArray T) (other : operand T) : result (IrrepsArray T) :=
  match other with
  | Bare other =>
      if forallb (fun mi : Irreps.MulIr => Irreps.ir_eqb (snd mi) Irreps.ir0e) (irreps self)
      then r <- map2 add (array self) other ;;
           __init__ (irreps self) r None true
      else Raise EquivarianceViolation
  | Tensor other =>
      if negb (Irreps.eqb (irreps self) (irreps other)) then Raise EquivarianceViolation
      else
        l1 <- list_ self ;;
        l2 <- list_ other ;;
        lst <- mapM add_blocks (combine l1 l2) ;;
        r <- map2 add (array self) (array other) ;;
        __init__ (irreps self) r (Some lst) true
  end.

(** The branch of [__mul__] and [__truediv__] for an operand that is not
    an [IrrepsArray], with the elementwise operator [f]. *)
Definition scale (f : T -> T -> T) (self : IrrepsArray T) (other : ndarray T)
  : result (IrrepsArray T) :=
  lmax <- lmax_ self ;;
  if (0 <? lmax) && not_per_element other then Raise EquivarianceViolation
  else
    l <- list_ self ;;
    lst <- mapM (fun x : option (ndarray T) =>
                   match x with
                   | None => Ok None
                   | Some x => r <- map2 f x (expand_last other) ;; Ok (Some r)
                   end) l ;;
    r <- map2 f (array self) other ;;
    __init__ (irreps self) r (Some lst) true.

(** [IrrepsArray.__mul__]. *)
Definition __mul__ (self : IrrepsArray T) (other : operand T) : result (IrrepsArray T) :=
  match other with
  | Tensor other =>
      lmax <- lmax_ self ;;
      if 0 <? lmax then
        lmax' <- lmax_ other ;;
        if 0 <? lmax' then Raise EquivarianceViolation
        else tensor_product self other
      else tensor_product self other
  | Bare other => scale mul self other
  end.

(** [IrrepsArray.__rtruediv__]: [other / self]. *)
Definition __rtruediv__ (self : IrrepsArray T) (other : ndarray T) : result (IrrepsArray T) :=
  lmax <- lmax_ self ;;
  if 0 <? lmax then Raise EquivarianceViolation
  else
    l <- list_ self ;;
    if existsb is_none l then Raise DivisionByDeterministicZero
    else
      r <- map2 div other (array self) ;;
      lst <- mapM (fun x : option (ndarray T) =>
                     match x with
                     | None => Raise TypeError
                     | Some x => q <- map2 div (expand_last other) x ;; Ok (Some q)
                     end) l ;;
      __init__ (irreps self) r (Some lst) true.

(** [IrrepsArray.__truediv__]; [1.0 / other] is [other.__rtruediv__(1.0)]. *)
Definition __truediv__ (self : IrrepsArray T) (other : operand T) : result (IrrepsArray T) :=
  match other with
  | Tensor other =>
      if length (irreps other) =? 0 then Raise EquivarianceViolation
      else
        lmax <- lmax_ other ;;
        if (0 <? lmax) || negb (Irreps.num_irreps (irreps self) =? Irreps.num_irreps (irreps other))
        then Raise EquivarianceViolation
        else
          l <- list_ other ;;
          if existsb is_none l then Raise DivisionByDeterministicZero
          else
            other <- __rtruediv__ other (mk [] [one]) ;;
            tensor_product self other
  | Bare other => scale div self other
  end.

End Algebra.

(** ** Reductions *)

(** The [axis] argument of a reduction. *)
Inductive axis_arg : Type :=
| AxisNone
| AxisInt (i : Z)
| AxisTuple (l : list Z).

(** [sorted(set(l))]. *)
Fixpoint insert_set (i : nat) (l : list nat) : list nat :=
  match l with
  | [] => [i]
  | j :: l' => if i <? j then i :: l else if i =? j then l else j :: insert_set i l'
  end.

Definition sorted_set (l : list nat) : list nat := fold_right insert_set [] l.

(** [_standardize_axis]. *)
Definition _standardize_axis (axis : axis_arg) (ndim : nat) : result (list nat) :=
  match axis with
  | AxisNone => Ok (seq 0 ndim)
  | AxisInt i =>
      _ <- assert (axes_in_range ndim [i]) ;;
      Ok (sorted_set [norm_axis ndim i])
  | AxisTuple l =>
      _ <- assert (axes_in_range ndim l) ;;
      Ok (sorted_set (map (norm_axis ndim) l))
  end.

Section Reductions.
Context {T : Type} `{Scalar T}.

(** [None if x is None else op(x, axis=axis, keepdims=keepdims)] over a list. *)
Definition reduce_blocks (op : ndarray T -> list Z -> bool -> result (ndarray T))
  (axis : list Z) (keepdims : bool) (l : list (option (ndarray T)))
  : result (list (option (ndarray T))) :=
  mapM (fun x : option (ndarray T) =>
          match x with
          | None => Ok None
          | Some x => r <- op x axis keepdims ;; Ok (Some r)
          end) l.

(** [_reduce]; [depth] bounds the nesting of the recursive calls.  The
    recursive call passes the standardized axes without the last one, all
    of them before the irrep axis, so it does not recurse again. *)
Fixpoint _reduce_upto (depth : nat) (op : ndarray T -> list Z -> bool -> result (ndarray T))
  (array : IrrepsArray T) (axis : axis_arg) (keepdims : bool) : result (IrrepsArray T) :=
  match depth with
  | 0 => Raise NoProgress
  | S depth' =>
      axis <- _standardize_axis axis (ndim (array_of array)) ;;
      match axis with
      | [] => Ok array
      | _ =>
          if last axis 0 <? ndim (array_of array) - 1 then
            r <- op (array_of array) (map Z.of_nat axis) keepdims ;;
            l <- list_ array ;;
            lst <- reduce_blocks op (map Z.of_nat axis) keepdims l ;;
            __init__ (irreps array) r (Some lst) true
          else
            array <- _reduce_upto depth' op array (AxisTuple (map Z.of_nat (removelast axis)))
                       keepdims ;;
            l <- list_ array ;;
            lst <- reduce_blocks op [(-2)%Z] true l ;;
            from_list (map (fun mi : Irreps.MulIr => (1, snd mi)) (irreps array)) lst
              (removelast (shape_of array))
      end
  end.

Definition _reduce := _reduce_upto 2.

(** [mean]. *)
Definition mean (array : IrrepsArray T) (axis : axis_arg) (keepdims : bool)
  : result (IrrepsArray T) :=
  _reduce jnp.mean array axis keepdims.

(** [sum_]. *)
Definition sum_ (array : IrrepsArray T) (axis : axis_arg) (keepdims : bool)
  : result (IrrepsArray T) :=
  _reduce jnp.sum array axis keepdims.

(** The inner function [f] of [norm]; [x**2] is [x * x] elementwise. *)
Definition norm_f (squared : bool) (x : option (ndarray T)) : result (option (ndarray T)) :=
  match x with
  | None => Raise TypeError
  | Some x =>
      x <- jnp.sum (map_elts (fun v => mul v v) x) [(-1)%Z] true ;;
      Ok (Some (if negb squared then map_elts sqrt x else x))
  end.

(** [norm]. *)
Definition norm (array : IrrepsArray T) (squared : bool) : result (IrrepsArray T) :=
  l <- list_ array ;;
  lst <- mapM (norm_f squared) l ;;
  from_list (map (fun mi : Irreps.MulIr => (fst mi, Irreps.ir0e)) (irreps array)) lst
    (removelast (shape_of array)).

End Reductions.

(** ** Further operations of the container *)

(** The exceptions that the operations below raise besides those of [exn]:
    a [ValueError] of another condition, and two further classes. *)
Inductive raised : Type :=
| Exn (e : exn)
| ValueError            (* a ValueError on a condition that [exn] does not list *)
| ZeroDivisionError
| NotImplementedError.

Inductive outcome (A : Type) : Type :=
| Returns (a : A)
| Raises (e : raised).

Arguments Returns {A} a.
Arguments Raises {A} e.

Definition lift {A : Type} (m : result A) : outcome A :=
  match m with
  | Ok a => Returns a
  | Raise e => Raises (Exn e)
  end.

(** Modelled from the spec: [n * irreps] of [e3nn_jax.Irreps], the spec
    concatenated with itself [n] times. *)
Definition irreps_rmul (n : nat) (irreps : Irreps.t) : Irreps.t := concat (repeat irreps n).

(** [zip] of the unpacked lists: the lists read by position, up to the
    shortest. *)
Fixpoint zip_star {X : Type} (ls : list (list X)) : list (list X) :=
  match ls with
  | [] => []
  | [l] => map (fun x => [x]) l
  | l :: ls' => map (fun p : X * list X => fst p :: snd p) (combine l (zip_star ls'))
  end.

(** The argument [any] of [from_any]. *)
Inductive any_arg (A : Type) : Type :=
| AnyTensor (any : IrrepsArray A)
| AnyList (any : list (option (ndarray A)))
| AnyArray (any : ndarray A).

Arguments AnyTensor {A} any.
Arguments AnyList {A} any.
Arguments AnyArray {A} any.

Section Views.
Context {A : Type}.

(** [len(self)]: [len] of an array without axes raises [TypeError]. *)
Definition __len__ (self : IrrepsArray A) : result nat :=
  match shape (array self) with
  | [] => Raise TypeError
  | n :: _ => Ok n
  end.

(** [IrrepsArray.repeat_irreps_by_last_axis]. *)
Definition repeat_irreps_by_last_axis (self : IrrepsArray A) : result (IrrepsArray A) :=
  _ <- assert (2 <=? length (shape_of self)) ;;
  let irreps := Irreps.simplify (irreps_rmul (at_axis 2 (shape_of self)) (irreps self)) in
  array <- reshape (array self) (pre_axis 2 (shape_of self) ++ [Irreps.dim irreps]) ;;
  __init__ irreps array None true.

(** The flattening function registered for [IrrepsArray] with the tree
    utilities: the children [(x.array, x.list)] and the auxiliary data
    [x.irreps]. *)
Definition tree_flatten (x : IrrepsArray A)
  : result ((ndarray A * list (option (ndarray A))) * Irreps.t) :=
  l <- list_ x ;; Ok ((array x, l), irreps x).

(** The unflattening function registered with it: the constructor with
    [_perform_checks=False]. *)
Definition tree_unflatten (x : Irreps.t) (data : ndarray A * list (option (ndarray A)))
  : result (IrrepsArray A) :=
  __init__ x (fst data) (Some (snd data)) false.

End Views.

Section Structure.
Context {T : Type} `{Scalar T}.

(** The loop of [from_any] that infers the leading shape: the last element
    that is not [None] decides, by [x.shape[:-2]]. *)
Definition infer_leading_shape (any : list (option (ndarray T))) : option (list nat) :=
  fold_left (fun leading_shape x =>
               match x with
               | None => leading_shape
               | Some x => Some (firstn (length (shape x) - 2) (shape x))
               end) any None.

(** [IrrepsArray.from_any]. *)
Definition from_any (irreps : Irreps.t) (any : any_arg T) : outcome (IrrepsArray T) :=
  match any with
  | AnyTensor any => lift (convert any irreps)
  | AnyList any =>
      match infer_leading_shape any with
      | None => Raises ValueError
      | Some leading_shape => lift (from_list irreps any leading_shape)
      end
  | AnyArray any => lift (__init__ irreps any None true)
  end.

(** [None if x is None else x.reshape(shape + (mul, ir.dim))] over
    [zip(irreps, list)]. *)
Definition reshape_blocks (shape : list Z) (irreps : Irreps.t)
  (l : list (option (ndarray T))) : result (list (option (ndarray T))) :=
  mapM (fun mx : Irreps.MulIr * option (ndarray T) =>
          match snd mx with
          | None => Ok None
          | Some x =>
              r <- reshape_to x (shape ++ [Z.of_nat (fst (fst mx));
                                           Z.of_nat (Irreps.ir_dim (snd (fst mx)))]) ;;
              Ok (Some r)
          end) (combine irreps l).

(** [shape[-1]] of a tuple of integers. *)
Definition last_entry (shape : list Z) : result Z :=
  match shape with
  | [] => Raise IndexError
  | _ => Ok (last shape 0%Z)
  end.

(** [IrrepsArray.reshape]. *)
Definition reshape_ (self : IrrepsArray T) (shape : list Z) : result (IrrepsArray T) :=
  n <- last_entry shape ;;
  _ <- assert ((n =? Z.of_nat (Irreps.dim (irreps self)))%Z || (n =? -1)%Z) ;;
  let shape := removelast shape in
  l <- list_ self ;;
  lst <- reshape_blocks shape (irreps self) l ;;
  array <- reshape_to (array self) (shape ++ [Z.of_nat (Irreps.dim (irreps self))]) ;;
  __init__ (irreps self) array (Some lst) true.

(** [IrrepsArray.broadcast_to]; that [shape] is a tuple holds by typing. *)
Definition broadcast_to_ (self : IrrepsArray T) (shape : list Z) : result (IrrepsArray T) :=
  n <- last_entry shape ;;
  _ <- assert ((n =? Z.of_nat (Irreps.dim (irreps self)))%Z || (n =? -1)%Z) ;;
  let leading_shape := removelast shape in
  array <- broadcast_to (array self)
             (leading_shape ++ [Z.of_nat (Irreps.dim (irreps self))]) ;;
  l <- list_ self ;;
  lst <- mapM (fun mx : Irreps.MulIr * option (ndarray T) =>
                 match snd mx with
                 | None => Ok None
                 | Some x =>
                     r <- broadcast_to x
                            (leading_shape ++ [Z.of_nat (fst (fst mx));
                                               Z.of_nat (Irreps.ir_dim (snd (fst mx)))]) ;;
                     Ok (Some r)
                 end) (combine (irreps self) l) ;;
  __init__ (irreps self) array (Some lst) true.

(** [IrrepsArray.replace_none_with_zeros]. *)
Definition replace_none_with_zeros (self : IrrepsArray T) : result (IrrepsArray T) :=
  l <- list_ self ;;
  let lst := map (fun mx : Irreps.MulIr * option (ndarray T) =>
                    match snd mx with
                    | None => Some (jnp.zeros (removelast (shape_of self)
                                               ++ [fst (fst mx); Irreps.ir_dim (snd (fst mx))]))
                    | Some x => Some x
                    end) (combine (irreps self) l) in
  __init__ (irreps self) (array self) (Some lst) true.

(** [IrrepsArray.remove_nones].  [return self] returns the object itself,
    whose block view is stored by then. *)
Definition remove_nones (self : IrrepsArray T) : result (IrrepsArray T) :=
  '(self', l) <- list_cached self ;;
  if existsb is_none l then
    let irreps := map fst (filter (fun mx : Irreps.MulIr * option (ndarray T) =>
                                     negb (is_none (snd mx)))
                             (combine (irreps self) l)) in
    let lst := filter (fun x : option (ndarray T) => negb (is_none x)) l in
    from_list irreps lst (removelast (shape_of self))
  else Ok self'.

(** [IrrepsArray.simplify]. *)
Definition simplify (self : IrrepsArray T) : result (IrrepsArray T) :=
  convert self (Irreps.simplify (irreps self)).

(** [IrrepsArray.repeat_mul_by_last_axis]. *)
Definition repeat_mul_by_last_axis (self : IrrepsArray T) : result (IrrepsArray T) :=
  _ <- assert (2 <=? length (shape_of self)) ;;
  let irreps := map (fun mi : Irreps.MulIr => (at_axis 2 (shape_of self) * fst mi, snd mi))
                  (irreps self) in
  l <- list_ self ;;
  lst <- mapM (fun mx : Irreps.MulIr * option (ndarray T) =>
                 match snd mx with
                 | None => Ok None
                 | Some x =>
                     r <- reshape x (pre_axis 2 (shape_of self)
                                     ++ [fst (fst mx); Irreps.ir_dim (snd (fst mx))]) ;;
                     Ok (Some r)
                 end) (combine irreps l) ;;
  from_list irreps lst (pre_axis 2 (shape_of self)).

(** [IrrepsArray.factor_irreps_to_last_axis]. *)
Definition factor_irreps_to_last_axis (self : IrrepsArray T) : outcome (IrrepsArray T) :=
  Raises NotImplementedError.

(** [IrrepsArray.factor_mul_to_last_axis] for a factor that is not
    negative; [None] stands for the default, [math.gcd] of the
    multiplicities, which is 0 when there is none.  [mul % factor] raises
    [ZeroDivisionError] at the first entry when the factor is 0. *)
Definition factor_mul_to_last_axis (self : IrrepsArray T) (factor : option nat)
  : outcome (IrrepsArray T) :=
  let factor := match factor with
                | Some factor => factor
                | None => fold_right Nat.gcd 0 (map fst (irreps self))
                end in
  match irreps self, factor with
  | _ :: _, 0 => Raises ZeroDivisionError
  | _, _ =>
      if negb (forallb (fun mi : Irreps.MulIr => fst mi mod factor =? 0) (irreps self))
      then Raises ValueError
      else
        let irreps := map (fun mi : Irreps.MulIr => (fst mi / factor, snd mi)) (irreps self) in
        lift (l <- list_ self ;;
              lst <- mapM (fun mx : Irreps.MulIr * option (ndarray T) =>
                             match snd mx with
                             | None => Ok None
                             | Some x =>
                                 r <- reshape x (removelast (shape_of self)
                                                 ++ [factor; fst (fst mx);
                                                     Irreps.ir_dim (snd (fst mx))]) ;;
                                 Ok (Some r)
                             end) (combine irreps l) ;;
              from_list irreps lst (removelast (shape_of self) ++ [factor]))
  end.

(** [jnp.concatenate(xs, axis=axis)] for the blocks at one position; a
    block that is [None] is not an array. *)
Definition concatenate_blocks (axis : nat) (xs : list (option (ndarray T)))
  : result (option (ndarray T)) :=
  xs <- mapM (fun x : option (ndarray T) =>
                match x with
                | None => Raise TypeError
                | Some x => Ok x
                end) xs ;;
  r <- concatenate_at xs axis ;;
  Ok (Some r).

(** [concatenate]; [cat] is the same function behind a deprecation
    warning.  That [axis] is an integer holds by typing. *)
Definition concatenate_ (arrays : list (IrrepsArray T)) (axis : Z) : result (IrrepsArray T) :=
  match arrays with
  | [] => Raise AssertionError
  | first :: _ =>
      let n := ndim (array first) in
      _ <- assert ((- Z.of_nat n <=? axis)%Z && (axis <? Z.of_nat n)%Z) ;;
      let axis := norm_axis n axis in
      if axis =? n - 1 then
        array <- concatenate (map (fun x : IrrepsArray T => array x) arrays) 1 ;;
        lists <- mapM (fun x : IrrepsArray T => list_ x) arrays ;;
        __init__ (concat (map (fun x : IrrepsArray T => irreps x) arrays)) array
          (Some (concat lists)) true
      else
        _ <- assert (forallb (fun x : IrrepsArray T => Irreps.eqb (irreps x) (irreps first))
                       arrays) ;;
        arrays <- mapM replace_none_with_zeros arrays ;;
        match arrays with
        | [] => Raise IndexError
        | first :: _ =>
            array <- concatenate_at (map (fun x : IrrepsArray T => array x) arrays) axis ;;
            lists <- mapM (fun x : IrrepsArray T => list_ x) arrays ;;
            lst <- mapM (concatenate_blocks axis) (zip_star lists) ;;
            __init__ (irreps first) array (Some lst) true
        end
  end.

Definition cat := concatenate_.

End Structure.

(** ** Further elementwise operators *)

(** Boolean arrays, the results of comparisons: [zero] and [one] are
    [False] and [True], addition and multiplication the disjunction and
    conjunction with which the runtime adds and multiplies booleans, and
    [eqb] their equality.  The definitions on boolean arrays read [zero],
    [one] and [eqb] only. *)
#[export] Instance Scalar_bool : Scalar bool := {
  zero := false;
  one := true;
  add := orb;
  sub := xorb;
  mul := andb;
  div := fun a _ => a;
  sqrt := fun a => a;
  eqb := Bool.eqb
}.

Section MoreAlgebra.
Context {T : Type} `{Scalar T}.

(** [-y], the negation of the element type, which [Scalar] does not list. *)
Variable negative : T -> T.

(** [x if y is None else (-y if x is None else x - y)]. *)
Definition sub_blocks (xy : option (ndarray T) * option (ndarray T))
  : result (option (ndarray T)) :=
  match xy with
  | (x, None) => Ok x
  | (None, Some y) => Ok (Some (map_elts negative y))
  | (Some x, Some y) => r <- map2 sub x y ;; Ok (Some r)
  end.

(** [IrrepsArray.__sub__]. *)
Definition __sub__ (self : IrrepsArray T) (other : operand T) : result (IrrepsArray T) :=
  match other with
  | Bare other =>
      if forallb (fun mi : Irreps.MulIr => Irreps.ir_eqb (snd mi) Irreps.ir0e) (irreps self)
      then r <- map2 sub (array self) other ;;
           __init__ (irreps self) r None true
      else Raise EquivarianceViolation
  | Tensor other =>
      if negb (Irreps.eqb (irreps self) (irreps other)) then Raise EquivarianceViolation
      else
        l1 <- list_ self ;;
        l2 <- list_ other ;;
        lst <- mapM sub_blocks (combine l1 l2) ;;
        r <- map2 sub (array self) (array other) ;;
        __init__ (irreps self) r (Some lst) true
  end.

(** The inner function [eq] of [__eq__]: a [None] operand is compared as
    the number [0.0]. *)
Definition eq_blocks (leading_shape : list nat) (mul : nat) (x y : option (ndarray T))
  : result (ndarray bool) :=
  match x, y with
  | None, None => Ok (jnp.full (leading_shape ++ [mul]) true)
  | _, _ =>
      let x := match x with None => mk [] [zero] | Some x => x end in
      let y := match y with None => mk [] [zero] | Some y => y end in
      c <- map2 eqb x y ;;
      all_ c [(-1)%Z] false
  end.

(** [IrrepsArray.__eq__] for an operand that is an [IrrepsArray] (the
    first branch of the method). *)
Definition __eq__tensor (self other : IrrepsArray T) : result (IrrepsArray bool) :=
  if negb (Irreps.eqb (irreps self) (irreps other)) then Raise EquivarianceViolation
  else
    leading_shape <- broadcast_shapes (removelast (shape_of self))
                       (removelast (shape_of other)) ;;
    l1 <- list_ self ;;
    l2 <- list_ other ;;
    lst <- mapM (fun mxy : (Irreps.MulIr * option (ndarray T)) * option (ndarray T) =>
                   r <- eq_blocks leading_shape (fst (fst (fst mxy))) (snd (fst mxy)) (snd mxy) ;;
                   Ok (Some (expand_last r)))
             (combine (combine (irreps self) l1) l2) ;;
    from_list (map (fun mi : Irreps.MulIr => (fst mi, Irreps.ir0e)) (irreps self)) lst
      leading_shape.

End MoreAlgebra.

(** ** Indexing and iteration *)

(** An entry of an index: an integer, a slice, the ellipsis, or an irreps
    (an [Irreps] or the string that writes it).  [None] and arrays used as
    index entries are not modelled. *)
Inductive index_entry : Type :=
| IdxInt (i : Z)
| IdxSlice (start stop step : option Z)
| IdxEllipsis
| IdxIrreps (irreps : Irreps.t).

(** The inner function [is_ellipse] of [__getitem__]. *)
Definition is_ellipse (x : index_entry) : bool :=
  match x with
  | IdxEllipsis => true
  | _ => false
  end.

(** The inner function [is_none_slice] of [__getitem__]: [x == slice(None)]. *)
Definition is_none_slice (x : index_entry) : bool :=
  match x with
  | IdxSlice None None None => true
  | _ => false
  end.

(** [slice(None)]. *)
Definition full_slice : index_entry := IdxSlice None None None.

(** [list(irreps).count(x)]. *)
Definition count_of (x : Irreps.MulIr) (irreps : Irreps.t) : nat :=
  length (filter (fun y => Irreps.mulir_eqb y x) irreps).

(** [list(irreps).index(x)], for an [x] that occurs. *)
Fixpoint index_of (x : Irreps.MulIr) (irreps : Irreps.t) : nat :=
  match irreps with
  | [] => 0
  | y :: rest => if Irreps.mulir_eqb y x then 0 else S (index_of x rest)
  end.

(** A comprehension over calls that return an [outcome]. *)
Fixpoint map_outcome {X Y : Type} (f : X -> outcome Y) (l : list X) : outcome (list Y) :=
  match l with
  | [] => Returns []
  | x :: l' =>
      match f x with
      | Raises e => Raises e
      | Returns y =>
          match map_outcome f l' with
          | Raises e => Raises e
          | Returns ys => Returns (y :: ys)
          end
      end
  end.

Section Indexing.
Context {T : Type} `{Scalar T}.

(** [a[index]], the indexing of the numeric runtime, which is not among
    the sources. *)
Variable getitem : ndarray T -> list index_entry -> result (ndarray T).

(** [__getitem__] from its last [if] on, which is what it does for an
    index that does not end with an irreps. *)
Definition getitem_leading (self : IrrepsArray T) (index : list index_entry)
  : result (IrrepsArray T) :=
  last_entry <- match index with
                | [] => Raise IndexError
                | _ => Ok (last index IdxEllipsis)
                end ;;
  if ((length index =? ndim (array self)) || existsb is_ellipse index)
     && negb (is_ellipse last_entry || is_none_slice last_entry)
  then Raise IndexError
  else
    array <- getitem (array self) index ;;
    l <- list_ self ;;
    lst <- mapM (fun x : option (ndarray T) =>
                   match x with
                   | None => Ok None
                   | Some x => r <- getitem x (index ++ [full_slice]) ;; Ok (Some r)
                   end) l ;;
    __init__ (irreps self) array (Some lst) true.

(** [IrrepsArray.__getitem__] for an index given as a tuple; a single
    entry [i] is the tuple [(i,)].  [index[-1]] raises [IndexError] on the
    empty tuple.  The call that the irreps branch makes on the extracted
    tensor has an index that ends with a slice, so it runs the part
    [getitem_leading]. *)
Definition __getitem__ (self : IrrepsArray T) (index : list index_entry)
  : outcome (IrrepsArray T) :=
  match index with
  | [] => Raises (Exn IndexError)
  | _ =>
      match last index IdxEllipsis with
      | IdxIrreps irs =>
          if negb (existsb is_ellipse (removelast index)
                   || (length index =? ndim (array self)))
          then Raises ValueError
          else if negb (length irs =? 1) then Raises ValueError
          else
            match irs with
            | [] => Raises (Exn IndexError)
            | mul_ir :: _ =>
                if negb (count_of mul_ir (irreps self) =? 1) then Raises ValueError
                else
                  let i := index_of mul_ir (irreps self) in
                  let index := removelast index ++ [full_slice] in
                  lift (l <- list_ self ;;
                        sub <- from_list irs (py_slice i (i + 1) l)
                                 (removelast (shape_of self)) ;;
                        getitem_leading sub index)
            end
      | _ => lift (getitem_leading self index)
      end
  end.

(** [IrrepsArray.__iter__], run to its end: the tensors the iterator
    yields, or the first exception it raises. *)
Definition __iter__ (self : IrrepsArray T) : outcome (list (IrrepsArray T)) :=
  if ndim (array self) <=? 1 then Raises ValueError
  else
    match __len__ self with
    | Raise e => Raises (Exn e)
    | Ok n => map_outcome (fun i => __getitem__ self [IdxInt (Z.of_nat i)]) (seq 0 n)
    end.

End Indexing.

(** ** Vocabulary of the properties *)

(** [t] is what [IrrepsArray(t.irreps, t.array, t._list)] accepts and builds. *)
Definition checked {A : Type} (t : IrrepsArray A) : Prop :=
  __init__ (irreps t) (array t) (_list t) true = Ok t.

(** A block that is present with the shape its entry asks for. *)
Definition block_of {A : Type} (lead : list nat) (x : option (ndarray A))
  (mi : Irreps.MulIr) : Prop :=
  exists b, x = Some b /\ shape b = lead ++ [fst mi; Irreps.ir_dim (snd mi)].

(** A block is [None] or has the shape its entry asks for. *)
Definition block_fits {A : Type} (lead : list nat) (x : option (ndarray A))
  (mi : Irreps.MulIr) : Prop :=
  match x with
  | None => True
  | Some b => shape b = lead ++ [fst mi; Irreps.ir_dim (snd mi)]
  end.

(** A well-formed block: [None], or an array of the shape its entry asks
    for that holds as many elements as its shape says. *)
Definition block_wf {A : Type} (lead : list nat) (x : option (ndarray A))
  (mi : Irreps.MulIr) : Prop :=
  match x with
  | None => True
  | Some b => shape b = lead ++ [fst mi; Irreps.ir_dim (snd mi)] /\ jnp.wf b
  end.

(** A block with [None] made explicit as a zero-filled array. *)
Definition densify {T : Type} `{Scalar T} (lead : list nat) (x : option (ndarray T))
  (mi : Irreps.MulIr) : ndarray T :=
  match x with
  | Some b => b
  | None => jnp.zeros (lead ++ [fst mi; Irreps.ir_dim (snd mi)])
  end.

(** The block view derived from the buffer alone: the blocks, with [None]
    read as zeros. *)
Definition dense_view {T : Type} `{Scalar T} (lead : list nat) (irs : Irreps.t)
  (blocks : list (option (ndarray T)))
  : list (option (ndarray T)) :=
  map (fun xm : option (ndarray T) * Irreps.MulIr => Some (densify lead (fst xm) (snd xm)))
      (combine blocks irs).

(** The parts that [from_list] concatenates. *)
Definition part_of {T : Type} `{Scalar T} (leading_shape : list nat)
  (mx : Irreps.MulIr * option (ndarray T)) : result (ndarray T) :=
  match snd mx with
  | None => Ok (jnp.zeros (leading_shape ++ [Irreps.mulir_dim (fst mx)]))
  | Some x => reshape x (leading_shape ++ [Irreps.mulir_dim (fst mx)])
  end.

(** The elements of a block, with [None] read as zeros. *)
Definition block_data {T : Type} `{Scalar T} (lead : list nat)
  (x : option (ndarray T)) (mi : Irreps.MulIr) : list T :=
  match x with
  | Some b => data b
  | None => repeat zero (size (lead ++ [Irreps.mulir_dim mi]))
  end.

(** [m] returns, or raises an exception that satisfies [P]. *)
Definition raises_only {A : Type} (P : exn -> Prop) (m : result A) : Prop :=
  match m with
  | Ok _ => True
  | Raise e => P e
  end.

(** The exceptions of the runtime, of the constructor's checks and of the
    collaborators: neither an equivariance violation nor a division by a
    deterministic zero. *)
Definition benign (e : exn) : Prop :=
  e = ShapeMismatch \/ e = IndexError \/ e = RuntimeShapeError
  \/ e = TypeError \/ e = CollaboratorError.

(** The contract of a reduction of the runtime: it accepts axes within the
    array's dimensions and returns an array of the reduced shape. *)
Definition reduction {A : Type} (op : ndarray A -> list Z -> bool -> result (ndarray A)) : Prop :=
  forall x axes keepdims,
    axes_in_range (ndim x) axes = true ->
    exists r, op x axes keepdims = Ok r /\ shape r = reduce_shape (shape x) axes keepdims.

(** A block reduced by [op] over [axes]: [None] stays [None], and a block
    that is present becomes what [op] returns on it. *)
Definition block_reduced {T : Type}
  (op : ndarray T -> list Z -> bool -> result (ndarray T)) (axes : list Z) (keepdims : bool)
  (x y : option (ndarray T)) : Prop :=
  match x with
  | None => y = None
  | Some b => exists r, op b axes keepdims = Ok r /\ y = Some r
  end.

(** What a reduction [op] over the standardized axes [ax], the irrep axis
    among them, comes to, [outcome] being what the call returned: the other
    axes are reduced first, giving [reduced] ([t] itself when there is no
    other axis, else the tensor over the same spec whose buffer is [op] of
    the buffer and whose blocks are [op] of the blocks, [None] kept); then
    every block of [reduced] is reduced along its multiplicity axis
    ([op(x, axis=-2, keepdims=True)], [None] kept), and the result is the
    tensor that [from_list] builds from these blocks over the spec of [t]
    with every multiplicity set to 1: it stores these blocks, each with one
    multiplicity under the leading shape of [reduced], and its buffer has
    that leading shape followed by the dimension of the new spec. *)
Definition reduces_final_axis {T : Type} `{Scalar T}
  (op : ndarray T -> list Z -> bool -> result (ndarray T))
  (t : IrrepsArray T) (keepdims : bool) (ax : list nat)
  (outcome : result (IrrepsArray T)) : Prop :=
  let irreps' := map (fun mi : Irreps.MulIr => (1, snd mi)) (irreps t) in
  exists reduced l lst arr,
    _reduce op t (AxisTuple (map Z.of_nat (removelast ax))) keepdims = Ok reduced
    /\ (removelast ax = [] -> reduced = t)
    /\ (removelast ax <> [] ->
        exists b l0 lst0,
          op (array_of t) (map Z.of_nat (removelast ax)) keepdims = Ok b
          /\ list_ t = Ok l0
          /\ Forall2 (block_reduced op (map Z.of_nat (removelast ax)) keepdims) l0 lst0
          /\ reduced = mkIrrepsArray (irreps t) b (Some lst0))
    /\ list_ reduced = Ok l
    /\ Forall2 (block_reduced op [(-2)%Z] true) l lst
    /\ from_list irreps' lst (removelast (shape_of reduced))
       = Ok (mkIrrepsArray irreps' arr (Some lst))
    /\ outcome = Ok (mkIrrepsArray irreps' arr (Some lst))
    /\ shape arr = removelast (shape_of reduced) ++ [Irreps.dim irreps']
    /\ Forall2 (block_fits (removelast (shape_of reduced))) lst irreps'.

(** The collaborator used in the examples: it always raises. *)
Definition no_tensor_product (x y : IrrepsArray Z) : option (IrrepsArray Z) := None.

(** [current_array] holds multiplicity [c] of an irrep of dimension [d]. *)
Definition holds {T : Type} (lead : list nat) (current_array : accumulator (T := T))
  (c d : nat) : Prop :=
  match current_array with
  | Count n => n = c
  | Arr a => shape a = lead ++ [c; d]
  end.

(** The state of the loops of [convert]: the sealed slots [new_list] fit
    the target entries [done] before the slots [rest] still to fill, and
    the slot being filled holds [c], less than it asks for. *)
Definition converting {T : Type} (target : Irreps.t) (lead : list nat)
  (new_list : list (option (ndarray T))) (current_array : accumulator (T := T))
  (rest : Irreps.t) (c : nat) : Prop :=
  exists done,
    target = done ++ rest
    /\ Forall2 (block_fits lead) new_list done
    /\ match rest with
       | [] => current_array = Count 0 /\ c = 0
       | (tmul, tir) :: _ => c < tmul /\ holds lead current_array c (Irreps.ir_dim tir)
       end.

(** The channels the target still waits for. *)
Definition pending (rest : Irreps.t) (c : nat) : list Irreps.Irrep :=
  match rest with
  | [] => []
  | (tmul, tir) :: rest' => repeat tir (tmul - c) ++ Irreps.channels rest'
  end.

(** A contribution [x] of multiplicity [m]: [None], or an array of that
    many rows. *)
Definition contributes {T : Type} (lead : list nat) (x : option (ndarray T))
  (m d : nat) : Prop :=
  match x with
  | None => True
  | Some b => shape b = lead ++ [m; d]
  end.

(** Row [r] of the buffer: row [r] of every block in turn. *)
Definition buffer_row {T : Type} `{Scalar T} (lead : list nat) (irs : Irreps.t)
  (blocks : list (option (ndarray T))) (r : nat)
  : list T :=
  flat_map (fun mx : Irreps.MulIr * option (ndarray T) =>
              chunk (Irreps.mulir_dim (fst mx)) r (block_data lead (snd mx) (fst mx)))
           (combine irs blocks).

(** ** Vocabulary of the further properties *)

(** A spec as [simplify] leaves it: no multiplicity is zero and no two
    adjacent entries carry the same tag. *)
Fixpoint simplified (irreps : Irreps.t) : Prop :=
  match irreps with
  | [] => True
  | mi :: rest =>
      0 < fst mi
      /\ match rest with
         | [] => True
         | mi' :: _ => snd mi <> snd mi'
         end
      /\ simplified rest
  end.

(** The piece of [split] between the entries [i] and [j]. *)
Definition piece {A : Type} (t : IrrepsArray A) (l : list (option (ndarray A)))
  (ij : nat * nat) : IrrepsArray A :=
  mkIrrepsArray (py_slice (fst ij) (snd ij) (irreps t))
    (take_axis (array t) 1 (Irreps.dim (firstn (fst ij) (irreps t)))
       (Irreps.dim (firstn (snd ij) (irreps t)) - Irreps.dim (firstn (fst ij) (irreps t))))
    (Some (py_slice (fst ij) (snd ij) l)).

(** The block that [t == t] computes at an entry of multiplicity [mul]. *)
Definition true_block (lead : list nat) (mi : Irreps.MulIr) : option (ndarray bool) :=
  Some (mk ((lead ++ [fst mi]) ++ [1]) (repeat true (size (lead ++ [fst mi])))).

(** The block [x] of an entry of multiplicity [mul], read with a new axis of
    length [factor] before the multiplicity. *)
Definition factored {T : Type} (lead : list nat) (factor : nat) (mx : Irreps.MulIr * option (ndarray T))
  : option (ndarray T) :=
  match snd mx with
  | None => None
  | Some x => Some (mk (lead ++ [factor; fst (fst mx) / factor; Irreps.ir_dim (snd (fst mx))])
                      (data x))
  end.

(** The block of an entry under the leading shape [lead]: the same elements. *)
Definition reshaped {T : Type} (lead : list nat) (mx : Irreps.MulIr * option (ndarray T))
  : option (ndarray T) :=
  match snd mx with
  | None => None
  | Some x => Some (mk (lead ++ [fst (fst mx); Irreps.ir_dim (snd (fst mx))]) (data x))
  end.


(** A block with [g] applied to every element; [None] stays [None]. *)
Definition map_block {T : Type} (g : T -> T) (x : option (ndarray T)) : option (ndarray T) :=
  match x with
  | None => None
  | Some x => Some (map_elts g x)
  end.

(** An index that selects everything of an array with [n] axes: full
    slices, at most [n] of them, and at most one ellipsis. *)
Definition selects_all (n : nat) (index : list index_entry) : Prop :=
  Forall (fun e => e = IdxEllipsis \/ e = full_slice) index
  /\ length (filter is_ellipse index) <= 1
  /\ length (filter (fun e => negb (is_ellipse e)) index) <= n.

(** Row [i] of an array along its first axis. *)
Definition row {A : Type} (i : nat) (a : ndarray A) : ndarray A :=
  mk (tl (shape a)) (chunk (size (tl (shape a))) i (data a)).

(** Row [i] of a tensor along its first axis: the row of its buffer and of
    every block that is not [None]. *)
Definition row_of {A : Type} (t : IrrepsArray A) (l : list (option (ndarray A))) (i : nat)
  : IrrepsArray A :=
  mkIrrepsArray (irreps t) (row i (array t))
    (Some (map (fun x => match x with
                         | None => None
                         | Some x => Some (row i x)
                         end) l)).

(** The indexing used in the examples: an index that selects everything
    returns the array, an integer within the first axis, alone or followed
    by full slices, returns that row, and anything else raises
    [IndexError]. *)
Definition getitem_rows {A : Type} (a : ndarray A) (index : list index_entry)
  : result (ndarray A) :=
  match index with
  | IdxInt i :: rest =>
      match shape a with
      | n :: s =>
          if (0 <=? i)%Z && (i <? Z.of_nat n)%Z && forallb is_none_slice rest
             && (length rest <=? length s)
          then Ok (row (Z.to_nat i) a)
          else Raise IndexError
      | [] => Raise IndexError
      end
  | _ =>
      if forallb (fun e => is_ellipse e || is_none_slice e) index
         && (length (filter is_ellipse index) <=? 1)
         && (length (filter (fun e => negb (is_ellipse e)) index) <=? ndim a)
      then Ok a
      else Raise IndexError
  end.

(** * Properties *)

(** ** Worked examples

    [split_doc_specs] and [split_doc_ints] are the examples of the docstring
    of [split]; [convert_doc] is the example of the docstring of [convert]
    with multiplicity 2 in place of 10. *)

Example simplify_ex :
  Irreps.simplify [(2, Irreps.ir0e); (0, Irreps.ir1e); (3, Irreps.ir0e); (1, Irreps.ir1o)]
  = [(5, Irreps.ir0e); (1, Irreps.ir1o)].
Proof. reflexivity. Qed.

Example zeros_ex :
  zeros (T := Z) [(2, Irreps.ir0e)] [3]
  = Ok (mkIrrepsArray [(2, Irreps.ir0e)] (mk [3; 2] [0; 0; 0; 0; 0; 0]%Z) (Some [None])).
Proof. reflexivity. Qed.

Example split_doc_specs :
  split (mkIrrepsArray [(1, Irreps.ir0e); (1, Irreps.ir1e)] (mk [4] [1; 2; 3; 4]%Z) None)
        (Specs [[(1, Irreps.ir0e)]; [(1, Irreps.ir1e)]])
  = Ok [mkIrrepsArray [(1, Irreps.ir0e)] (mk [1] [1]%Z) None;
        mkIrrepsArray [(1, Irreps.ir1e)] (mk [3] [2; 3; 4]%Z) None].
Proof. reflexivity. Qed.

Example split_doc_ints :
  split (mkIrrepsArray [(1, Irreps.ir0e); (1, Irreps.ir1e)] (mk [4] [1; 2; 3; 4]%Z) None)
        (Ints [1])
  = Ok [mkIrrepsArray [(1, Irreps.ir0e)] (mk [1] [1]%Z) (Some [Some (mk [1; 1] [1]%Z)]);
        mkIrrepsArray [(1, Irreps.ir1e)] (mk [3] [2; 3; 4]%Z) (Some [Some (mk [1; 3] [2; 3; 4]%Z)])].
Proof. reflexivity. Qed.

Example convert_doc :
  let id := mkIrrepsArray [(2, Irreps.ir0e); (2, Irreps.ir0e)] (mk [1; 4] [0; 0; 1; 1]%Z)
              (Some [None; Some (mk [1; 2; 1] [1; 1]%Z)]) in
  convert id [(4, Irreps.ir0e)]
  = Ok (mkIrrepsArray [(4, Irreps.ir0e)] (mk [1; 4] [0; 0; 1; 1]%Z)
          (Some [Some (mk [1; 4; 1] [0; 0; 1; 1]%Z)])).
Proof. reflexivity. Qed.

Example convert_regroup :
  let t := mkIrrepsArray [(3, Irreps.ir0e); (2, Irreps.ir1e)]
             (mk [2; 9] [1; 2; 3; 4; 5; 6; 7; 8; 9; 11; 12; 13; 14; 15; 16; 17; 18; 19]%Z) None in
  convert t [(1, Irreps.ir0e); (0, Irreps.ir2e); (2, Irreps.ir0e); (1, Irreps.ir1e); (1, Irreps.ir1e)]
  = Ok (mkIrrepsArray
          [(1, Irreps.ir0e); (0, Irreps.ir2e); (2, Irreps.ir0e); (1, Irreps.ir1e); (1, Irreps.ir1e)]
          (mk [2; 9] [1; 2; 3; 4; 5; 6; 7; 8; 9; 11; 12; 13; 14; 15; 16; 17; 18; 19]%Z)
          (Some [Some (mk [2; 1; 1] [1; 11]%Z); None; Some (mk [2; 2; 1] [2; 3; 12; 13]%Z);
                 Some (mk [2; 1; 3] [4; 5; 6; 14; 15; 16]%Z);
                 Some (mk [2; 1; 3] [7; 8; 9; 17; 18; 19]%Z)])).
Proof. reflexivity. Qed.

(** ** Basic facts *)

Lemma bind_ok {A B : Type} (m : result A) (f : A -> result B) (b : B) :
  bind m f = Ok b -> exists a, m = Ok a /\ f a = Ok b.
Proof. destruct m as [a|e]; simpl; [eauto | discriminate]. Qed.

Lemma shape_eqb_eq (s t : list nat) : shape_eqb s t = true <-> s = t.
Proof.
  revert t; induction s as [|a s IH]; intros [|b t]; simpl; split; try easy.
  - rewrite andb_true_iff, Nat.eqb_eq, IH. now intros [-> ->].
  - intros [= -> ->]. rewrite Nat.eqb_refl. now apply IH.
Qed.

Lemma shape_eqb_refl (s : list nat) : shape_eqb s s = true.
Proof. now apply shape_eqb_eq. Qed.

Lemma size_app (s t : list nat) : size (s ++ t) = size s * size t.
Proof. induction s as [|a s IH]; simpl; [lia | rewrite IH; lia]. Qed.

Lemma last_dim_app (s : list nat) (n : nat) : last_dim (s ++ [n]) = Ok n.
Proof.
  unfold last_dim. rewrite last_last. destruct s; reflexivity.
Qed.

Lemma last_dim_ok (s : list nat) (n : nat) :
  last_dim s = Ok n -> s = removelast s ++ [n].
Proof.
  unfold last_dim. destruct s as [|a s]; [discriminate|].
  intros [= <-]. apply (@app_removelast_last _ (a :: s) 0). discriminate.
Qed.

Lemma ir_eqb_eq (a b : Irreps.Irrep) : Irreps.ir_eqb a b = true <-> a = b.
Proof.
  destruct a as [la pa], b as [lb pb]. unfold Irreps.ir_eqb; simpl.
  rewrite andb_true_iff, Nat.eqb_eq. split.
  - intros [-> Hp]. destruct pa, pb; simpl in Hp; congruence.
  - intros [= -> ->]. split; [reflexivity | now destruct pb].
Qed.

Lemma ir_eqb_refl (a : Irreps.Irrep) : Irreps.ir_eqb a a = true.
Proof. now apply ir_eqb_eq. Qed.

Lemma irreps_eqb_eq (a b : Irreps.t) : Irreps.eqb a b = true <-> a = b.
Proof.
  revert b; induction a as [|[m i] a IH]; intros [|[n j] b]; simpl; split; try easy.
  - unfold Irreps.mulir_eqb; simpl.
    rewrite !andb_true_iff, Nat.eqb_eq, ir_eqb_eq, IH. now intros [[-> ->] ->].
  - intros [= -> -> ->]. unfold Irreps.mulir_eqb; simpl.
    rewrite Nat.eqb_refl, ir_eqb_refl. now apply IH.
Qed.

(** *** Simplification keeps the channels *)

Lemma channels_app (a b : Irreps.t) :
  Irreps.channels (a ++ b) = Irreps.channels a ++ Irreps.channels b.
Proof. unfold Irreps.channels. apply flat_map_app. Qed.

Lemma channels_cons (mul : nat) (ir : Irreps.Irrep) (l : Irreps.t) :
  Irreps.channels ((mul, ir) :: l) = repeat ir mul ++ Irreps.channels l.
Proof. reflexivity. Qed.

Lemma channels_rev_cons (mul : nat) (ir : Irreps.Irrep) (out : Irreps.t) :
  Irreps.channels (rev ((mul, ir) :: out)) = Irreps.channels (rev out) ++ repeat ir mul.
Proof. simpl. rewrite channels_app, channels_cons. simpl. now rewrite app_nil_r. Qed.

Lemma channels_simplify_into (out l : Irreps.t) :
  Irreps.channels (Irreps.simplify_into out l)
  = Irreps.channels (rev out) ++ Irreps.channels l.
Proof.
  revert out; induction l as [|[mul ir] l IH]; intros out; cbn [Irreps.simplify_into].
  - simpl. now rewrite app_nil_r.
  - rewrite channels_cons.
    assert (Hdrop : (0 <? mul) = false ->
                    Irreps.channels (Irreps.simplify_into out l)
                    = Irreps.channels (rev out) ++ repeat ir mul ++ Irreps.channels l).
    { intros Hm. apply Nat.ltb_ge in Hm. assert (mul = 0) as -> by lia. apply IH. }
    assert (Hkeep : Irreps.channels (Irreps.simplify_into ((mul, ir) :: out) l)
                    = Irreps.channels (rev out) ++ repeat ir mul ++ Irreps.channels l).
    { rewrite IH, channels_rev_cons, <- app_assoc. reflexivity. }
    destruct out as [|[mul' ir'] out'].
    + destruct (0 <? mul); [exact Hkeep | now apply Hdrop].
    + destruct (Irreps.ir_eqb ir' ir) eqn:Hi.
      * apply ir_eqb_eq in Hi; subst ir'.
        rewrite IH, !channels_rev_cons, repeat_app, <- !app_assoc. reflexivity.
      * destruct (0 <? mul); [exact Hkeep | now apply Hdrop].
Qed.

Lemma channels_simplify (l : Irreps.t) :
  Irreps.channels (Irreps.simplify l) = Irreps.channels l.
Proof. unfold Irreps.simplify. now rewrite channels_simplify_into. Qed.

Lemma simplify_eq_channels (a b : Irreps.t) :
  Irreps.simplify a = Irreps.simplify b -> Irreps.channels a = Irreps.channels b.
Proof.
  intros E. rewrite <- (channels_simplify a), <- (channels_simplify b). now rewrite E.
Qed.

Lemma list_sum_repeat (n k : nat) : list_sum (repeat n k) = k * n.
Proof. induction k as [|k IH]; simpl; [reflexivity | rewrite IH; lia]. Qed.

Lemma dim_channels (l : Irreps.t) :
  Irreps.dim l = list_sum (map Irreps.ir_dim (Irreps.channels l)).
Proof.
  unfold Irreps.dim, Irreps.channels.
  induction l as [|[mul ir] l IH]; simpl; [reflexivity|].
  rewrite map_app, list_sum_app, <- IH, map_repeat, list_sum_repeat.
  reflexivity.
Qed.

Lemma simplify_eq_dim (a b : Irreps.t) :
  Irreps.simplify a = Irreps.simplify b -> Irreps.dim a = Irreps.dim b.
Proof. intros E. rewrite !dim_channels. now rewrite (simplify_eq_channels _ _ E). Qed.

(** *** Comprehensions *)

Lemma mapM_forall {A B : Type} (f : A -> result B) (P : B -> Prop) (l : list A) :
  (forall x, In x l -> exists y, f x = Ok y /\ P y) ->
  exists r, mapM f l = Ok r /\ Forall P r /\ length r = length l.
Proof.
  induction l as [|a l IH]; intros Hf; simpl.
  - exists []. auto.
  - destruct (Hf a (or_introl eq_refl)) as (y & -> & Hy).
    destruct IH as (r & -> & Hr & Hlen); [intros x Hx; apply Hf; now right|].
    exists (y :: r). simpl. auto.
Qed.

Lemma mapM_inv {A B : Type} (f : A -> result B) (l : list A) (r : list B) :
  mapM f l = Ok r -> Forall2 (fun x y => f x = Ok y) l r.
Proof.
  revert r; induction l as [|a l IH]; simpl; intros r E.
  - injection E as <-. constructor.
  - apply bind_ok in E as (b & Eb & E). apply bind_ok in E as (bs & Ebs & E).
    injection E as <-. constructor; auto.
Qed.

(** *** Axes of a shape *)

Lemma axis_of_shape (pre : list nat) (n : nat) (post : list nat) :
  has_axis (S (length post)) (pre ++ n :: post) = true
  /\ pre_axis (S (length post)) (pre ++ n :: post) = pre
  /\ at_axis (S (length post)) (pre ++ n :: post) = n
  /\ post_axis (S (length post)) (pre ++ n :: post) = post.
Proof.
  unfold has_axis, pre_axis, at_axis, post_axis.
  rewrite length_app; cbn [length].
  replace (length pre + S (length post) - S (length post)) with (length pre) by lia.
  repeat split.
  - apply andb_true_iff; split; apply Nat.leb_le; lia.
  - rewrite firstn_app, Nat.sub_diag, firstn_all. simpl. apply app_nil_r.
  - rewrite app_nth2, Nat.sub_diag by lia. reflexivity.
  - rewrite skipn_app, skipn_all2 by lia.
    replace (length pre + 1 - length pre) with 1 by lia. reflexivity.
Qed.

Lemma last_axis (lead : list nat) (n : nat) :
  has_axis 1 (lead ++ [n]) = true /\ pre_axis 1 (lead ++ [n]) = lead
  /\ at_axis 1 (lead ++ [n]) = n /\ post_axis 1 (lead ++ [n]) = [].
Proof. apply (axis_of_shape lead n []). Qed.

Lemma mul_axis (lead : list nat) (m d : nat) :
  has_axis 2 (lead ++ [m; d]) = true /\ pre_axis 2 (lead ++ [m; d]) = lead
  /\ at_axis 2 (lead ++ [m; d]) = m /\ post_axis 2 (lead ++ [m; d]) = [d].
Proof. apply (axis_of_shape lead m [d]). Qed.

Lemma removelast_snoc {X : Type} (l : list X) (x : X) : removelast (l ++ [x]) = l.
Proof. apply removelast_last. Qed.

(** *** Tensors that pass the constructor's checks *)

Lemma init_ok_inv {A : Type} (irs : Irreps.t) (a : ndarray A)
  (lst : option (list (option (ndarray A)))) (t : IrrepsArray A) :
  __init__ irs a lst true = Ok t ->
  t = mkIrrepsArray irs a lst
  /\ shape a = removelast (shape a) ++ [Irreps.dim irs]
  /\ match lst with
     | None => True
     | Some l => length l = length irs
                 /\ forallb (fun xm => block_shape_ok (removelast (shape a)) (fst xm) (snd xm))
                      (combine l irs) = true
     end.
Proof.
  unfold __init__. intros E. apply bind_ok in E as (n & En & E).
  destruct (n =? Irreps.dim irs) eqn:Hn; simpl in E; [|discriminate].
  apply Nat.eqb_eq in Hn; subst n. apply last_dim_ok in En.
  destruct lst as [l|].
  - destruct (length l =? length irs) eqn:Hl; simpl in E; [|discriminate].
    apply Nat.eqb_eq in Hl.
    destruct (forallb _ _) eqn:Hf; [|discriminate].
    injection E as <-. auto.
  - injection E as <-. auto.
Qed.

Lemma init_checked {A : Type} (irs : Irreps.t) (a : ndarray A)
  (lst : option (list (option (ndarray A)))) (t : IrrepsArray A) :
  __init__ irs a lst true = Ok t -> checked t.
Proof.
  intros E. destruct (init_ok_inv _ _ _ E) as (-> & _). exact E.
Qed.

Lemma init_no_list {A : Type} (irs : Irreps.t) (lead : list nat) (a : ndarray A) :
  shape a = lead ++ [Irreps.dim irs] ->
  __init__ irs a None true = Ok (mkIrrepsArray irs a None).
Proof.
  intros Hs. unfold __init__. rewrite Hs, last_dim_app. simpl.
  now rewrite Nat.eqb_refl.
Qed.

(** *** The block view derived from a buffer *)

Lemma size_block (lead : list nat) (mul d : nat) :
  size (lead ++ [mul * d]) = size (lead ++ [mul; d]).
Proof. rewrite !size_app. simpl. lia. Qed.

Lemma take_last_shape {A : Type} (a : ndarray A) (lead : list nat) (n start len : nat) :
  shape a = lead ++ [n] -> shape (take_axis a 1 start len) = lead ++ [len].
Proof.
  intros Hs. unfold take_axis; cbn [shape]. rewrite Hs.
  destruct (last_axis lead n) as (_ & -> & _ & ->). reflexivity.
Qed.

Lemma getitem_last_in_range {A : Type} (a : ndarray A) (lead : list nat) (n i w : nat) :
  shape a = lead ++ [n] -> i + w <= n ->
  getitem_last a i (i + w) = Ok (take_axis a 1 i w).
Proof.
  intros Hs Hle. unfold getitem_last. rewrite Hs.
  destruct (last_axis lead n) as (-> & _ & -> & _).
  rewrite (Nat.min_l i n), (Nat.min_l (i + w) n), (Nat.max_r i (i + w)) by lia.
  replace (i + w - i) with w by lia. reflexivity.
Qed.

Lemma derive_slices_ok {A : Type} (a : ndarray A) (lead : list nat) (n : nat)
  (irs : Irreps.t) (i : nat) :
  shape a = lead ++ [n] -> i + Irreps.dim irs <= n ->
  exists l,
    mapM (fun im : (nat * nat) * Irreps.MulIr =>
            let '((start, stop), (mul, ir)) := im in
            s <- getitem_last a start stop ;;
            x <- reshape s (lead ++ [mul; Irreps.ir_dim ir]) ;;
            Ok (Some x))
         (combine (Irreps.slices_from i irs) irs) = Ok l
    /\ Forall2 (block_of lead) l irs.
Proof.
  intros Hs. revert i. induction irs as [|[mul ir] irs IH]; intros i Hle.
  - exists []. split; [reflexivity | constructor].
  - unfold Irreps.dim in Hle; simpl in Hle. fold (Irreps.dim irs) in Hle.
    unfold Irreps.mulir_dim in Hle; simpl in Hle.
    cbn [Irreps.slices_from combine mapM]. unfold Irreps.mulir_dim at 1; cbn [fst snd].
    rewrite (@getitem_last_in_range _ a lead n i (mul * Irreps.ir_dim ir)) by (auto; lia).
    cbn [bind]. unfold reshape at 1.
    rewrite (@take_last_shape _ a lead n i (mul * Irreps.ir_dim ir) Hs), size_block, Nat.eqb_refl.
    cbn [bind].
    destruct (IH (i + mul * Irreps.ir_dim ir)) as (l & El & Hl).
    { unfold Irreps.mulir_dim. lia. }
    unfold Irreps.mulir_dim in El |- *; cbn [fst snd] in El |- *. rewrite El. cbn [bind].
    eexists; split; [reflexivity|]. constructor; [|exact Hl].
    eexists; split; reflexivity.
Qed.

Lemma derive_list_ok {A : Type} (irs : Irreps.t) (a : ndarray A) (lead : list nat) :
  shape a = lead ++ [Irreps.dim irs] ->
  exists l, derive_list irs a = Ok l /\ Forall2 (block_of lead) l irs.
Proof.
  intros Hs. unfold derive_list. rewrite Hs, removelast_snoc.
  assert (Hgen : exists l,
    mapM (fun im : (nat * nat) * Irreps.MulIr =>
            let '((start, stop), (mul, ir)) := im in
            s <- getitem_last a start stop ;;
            x <- reshape s (lead ++ [mul; Irreps.ir_dim ir]) ;;
            Ok (Some x))
         (combine (Irreps.slices irs) irs) = Ok l
    /\ Forall2 (block_of lead) l irs).
  { apply (@derive_slices_ok _ a lead (Irreps.dim irs) irs 0); [exact Hs | simpl; lia]. }
  destruct irs as [|[mul ir] [|mi irs]]; try exact Hgen.
  unfold reshape. rewrite Hs.
  match goal with
  | |- context [size ?s =? size ?t] =>
      replace (size s) with (size t)
        by (rewrite !size_app; unfold Irreps.dim, Irreps.mulir_dim; simpl; lia)
  end.
  rewrite Nat.eqb_refl. cbn [bind].
  eexists; split; [reflexivity|]. constructor; [|constructor].
  eexists; split; reflexivity.
Qed.

Lemma block_of_not_none {A : Type} (lead : list nat) (l : list (option (ndarray A)))
  (irs : Irreps.t) :
  Forall2 (block_of lead) l irs -> Forall (fun x => x <> None) l.
Proof.
  induction 1 as [|x mi l irs (b & -> & _) _ IH]; constructor; [discriminate | exact IH].
Qed.

(** A tensor built without a list holds no [None] in its block view. *)
Lemma list_of_buffer {A : Type} (irs : Irreps.t) (a : ndarray A) (lead : list nat) :
  shape a = lead ++ [Irreps.dim irs] ->
  exists l, list_ (mkIrrepsArray irs a None) = Ok l
            /\ Forall2 (block_of lead) l irs /\ Forall (fun x => x <> None) l.
Proof.
  intros Hs. destruct (@derive_list_ok _ irs a lead Hs) as (l & El & Hl).
  exists l. unfold list_, list_cached; simpl. rewrite El. simpl.
  repeat split; [exact Hl | exact (block_of_not_none Hl)].
Qed.

(** *** Splitting a buffer at cumulative widths *)

Lemma take_axis_shape {A : Type} (a : ndarray A) (pre : list nat) (n : nat)
  (post : list nat) (start len : nat) :
  shape a = pre ++ n :: post ->
  shape (take_axis a (S (length post)) start len) = pre ++ len :: post.
Proof.
  intros Hs. unfold take_axis; cbn [shape]. rewrite Hs.
  destruct (axis_of_shape pre n post) as (_ & -> & _ & ->). reflexivity.
Qed.

Lemma split_from_sums {A : Type} (a : ndarray A) (pre : list nat) (n : nat)
  (post : list nat) (ds : list nat) (start : nat) :
  shape a = pre ++ n :: post ->
  start + list_sum ds <= n ->
  exists parts,
    split_from a (S (length post)) start
      (map (fun i => start + list_sum (firstn i ds)) (seq 1 (length ds))) = Ok parts
    /\ Forall2 (fun p d => shape p = pre ++ d :: post) parts ds.
Proof.
  intros Hs. revert start. induction ds as [|d ds IH]; intros start Hle.
  - exists []. split; [reflexivity | constructor].
  - simpl in Hle. cbn [length seq map split_from firstn list_sum].
    rewrite Hs. destruct (axis_of_shape pre n post) as (_ & _ & -> & _).
    change (list_sum [d]) with (d + 0). rewrite !Nat.add_0_r.
    replace ((start <=? start + d) && (start + d <=? n)) with true
      by (symmetry; apply andb_true_iff; split; apply Nat.leb_le; lia).
    destruct (IH (start + d)) as (parts & E & Hp); [lia|].
    rewrite <- seq_shift, map_map.
    erewrite map_ext; [rewrite E|].
    + cbn [bind]. eexists; split; [reflexivity|]. constructor; [|exact Hp].
      replace (start + d - start) with d by lia.
      now apply take_axis_shape with (n := n).
    + intros i. simpl. lia.
Qed.

Lemma dim_concat (irrepss : list Irreps.t) :
  Irreps.dim (concat irrepss) = list_sum (map Irreps.dim irrepss).
Proof.
  unfold Irreps.dim. induction irrepss as [|irs irrepss IH]; simpl; [reflexivity|].
  rewrite map_app, list_sum_app, IH. reflexivity.
Qed.

(** The split points of the spec form, with the axis length appended, are
    the cumulative widths of the target specs. *)
Lemma spec_bounds (irrepss : list Irreps.t) :
  irrepss <> [] ->
  map (fun i => list_sum (map Irreps.dim (firstn i irrepss))) (seq 1 (length irrepss - 1))
    ++ [list_sum (map Irreps.dim irrepss)]
  = map (fun i => 0 + list_sum (firstn i (map Irreps.dim irrepss)))
      (seq 1 (length (map Irreps.dim irrepss))).
Proof.
  intros Hne. rewrite length_map.
  destruct (length irrepss) as [|n] eqn:Hlen.
  - destruct irrepss; [congruence | discriminate].
  - replace (S n - 1) with n by lia. rewrite seq_S, map_app. cbn [map].
    f_equal.
    + apply map_ext. intros i. now rewrite firstn_map.
    + rewrite firstn_all2 by (rewrite length_map; lia). reflexivity.
Qed.

(** Building the parts of the spec form: each part keeps no list. *)
Lemma init_parts {A : Type} (lead : list nat) (irrepss : list Irreps.t)
  (array_parts : list (ndarray A)) :
  Forall2 (fun p d => shape p = lead ++ [d]) array_parts (map Irreps.dim irrepss) ->
  exists parts,
    mapM (fun ia : Irreps.t * ndarray A => __init__ (fst ia) (snd ia) None true)
      (combine irrepss array_parts) = Ok parts
    /\ length parts = length irrepss
    /\ Forall (fun p => _list p = None
                        /\ exists l, list_ p = Ok l /\ Forall (fun x => x <> None) l) parts.
Proof.
  revert array_parts. induction irrepss as [|irs irrepss IH]; intros array_parts Hp.
  - exists []. simpl. auto.
  - inversion Hp as [|a d array_parts' ds Ha Hrest]; subst.
    destruct (IH _ Hrest) as (parts & E & Hlen & Hall).
    cbn [combine mapM fst snd]. rewrite (init_no_list irs lead a Ha). cbn [bind].
    rewrite E. cbn [bind]. eexists; split; [reflexivity|]. split; [simpl; lia|].
    constructor; [|exact Hall]. split; [reflexivity|].
    destruct (@list_of_buffer _ irs a lead Ha) as (l & El & _ & Hl). eauto.
Qed.

(** ** The factory [zeros] *)

(** C9.  [zeros("2x0e", (3,))] has a buffer of shape [(3, 2)] filled with
    zeros and the block list [[None]]: one [None] for the single irrep
    entry. *)
Theorem zeros_2x0e (T : Type) (S : Scalar T) :
  zeros [(2, Irreps.ir0e)] [3]
  = Ok (mkIrrepsArray [(2, Irreps.ir0e)] (mk [3; 2] (repeat zero 6)) (Some [None])).
Proof. reflexivity. Qed.

(** ** [split] *)

Lemma Forall2_right {X Y : Type} (R : X -> Y -> Prop) (P : Y -> Prop)
  (l : list X) (r : list Y) :
  Forall2 R l r -> (forall x y, R x y -> P y) -> Forall P r.
Proof. induction 1; intros HR; constructor; eauto. Qed.

Lemma mapM_map {X Y : Type} (f : X -> result Y) (g : X -> Y) (l : list X) :
  (forall x, In x l -> f x = Ok (g x)) -> mapM f l = Ok (map g l).
Proof.
  induction l as [|x l IH]; intros Hf; simpl; [reflexivity|].
  rewrite (Hf x (or_introl eq_refl)), IH; [reflexivity|].
  intros y Hy. apply Hf. now right.
Qed.

(** The integer form of [split] hands each part a slice of the block list
    of the tensor it splits. *)
Lemma split_ints_passes_list {A : Type} (t : IrrepsArray A) (indices : list nat)
  (parts : list (IrrepsArray A)) (l : list (option (ndarray A))) :
  split_ints t indices = Ok parts -> list_ t = Ok l ->
  Forall (fun p => exists i j, _list p = Some (py_slice i j l)) parts.
Proof.
  unfold split_ints. intros E El.
  apply bind_ok in E as (array_parts & _ & E).
  apply bind_ok in E as (_ & _ & E).
  rewrite El in E. cbn [bind] in E.
  apply mapM_inv in E. eapply Forall2_right; [exact E|].
  intros [[i j] a] p Hp. cbn beta iota in Hp.
  destruct (init_ok_inv _ _ _ Hp) as (-> & _). exists i, j. reflexivity.
Qed.

(** C10, as amended.  For a tensor that passes the constructor's checks and
    a non-empty list of target specs that jointly simplify to its spec,
    [split] returns one part per target spec; each part is built from a
    piece of the buffer alone, with no list, and its block view, derived
    from that piece, holds no [None].  The integer form instead hands each
    part a slice of the block list of the tensor it splits. *)
Theorem split_specs_drops_none (A : Type) (t : IrrepsArray A) (irrepss : list Irreps.t) :
  irrepss <> [] ->
  checked t ->
  Irreps.simplify (irreps t) = Irreps.simplify (concat irrepss) ->
  (exists array_parts parts,
     jnp.split (array t)
       (map (fun i => list_sum (map Irreps.dim (firstn i irrepss)))
          (seq 1 (length irrepss - 1))) 1 = Ok array_parts
     /\ split t (Specs irrepss) = Ok parts
     /\ parts = map (fun ia : Irreps.t * ndarray A => mkIrrepsArray (fst ia) (snd ia) None)
                  (combine irrepss array_parts)
     /\ length parts = length irrepss
     /\ Forall (fun p => _list p = None
                         /\ exists l, list_ p = Ok l /\ Forall (fun x => x <> None) l) parts)
  /\ (forall indices parts l,
        split t (Ints indices) = Ok parts -> list_ t = Ok l ->
        Forall (fun p => exists i j, _list p = Some (py_slice i j l)) parts).
Proof.
  intros Hne Hck Hsimp. split; [|intros indices parts l; apply split_ints_passes_list].
  destruct (init_ok_inv _ _ _ Hck) as (_ & Hs & _).
  set (lead := removelast (shape (array t))) in *.
  assert (Hdim : Irreps.dim (irreps t) = list_sum (map Irreps.dim irrepss))
    by (rewrite (simplify_eq_dim _ _ Hsimp); apply dim_concat).
  rewrite Hdim in Hs.
  destruct (@split_from_sums _ (array t) lead _ [] (map Irreps.dim irrepss) 0 Hs)
    as (array_parts & Esplit & Hshapes); [simpl; lia|].
  assert (Ejnp : jnp.split (array t)
            (map (fun i => list_sum (map Irreps.dim (firstn i irrepss)))
               (seq 1 (length irrepss - 1))) 1 = Ok array_parts).
  { unfold jnp.split. rewrite Hs.
    destruct (last_axis lead (list_sum (map Irreps.dim irrepss))) as (-> & _ & -> & _).
    rewrite (spec_bounds Hne). exact Esplit. }
  destruct (init_parts lead irrepss Hshapes) as (parts & Eparts & Hlen & Hall).
  assert (Hlen' : length array_parts = length irrepss).
  { apply Forall2_length in Hshapes. now rewrite length_map in Hshapes. }
  exists array_parts, parts. repeat split; auto.
  - destruct irrepss as [|irs irrepss]; [congruence|].
    unfold split, split_specs.
    rewrite Hsimp. rewrite (proj2 (irreps_eqb_eq _ _) eq_refl). cbn [assert bind].
    rewrite Ejnp. cbn [bind]. rewrite Hlen', Nat.eqb_refl. cbn [assert bind].
    exact Eparts.
  - rewrite mapM_map with (g := fun ia : Irreps.t * ndarray A =>
                                   mkIrrepsArray (fst ia) (snd ia) None) in Eparts.
    + now injection Eparts.
    + intros [irs a] Hin. cbn [fst snd].
      clear - Hin Hshapes.
      revert array_parts Hin Hshapes. induction irrepss as [|irs' irrepss IH];
        intros array_parts Hin Hshapes; [destruct Hin|].
      inversion Hshapes as [|a' d ap ds Ha' Hrest]; subst.
      destruct Hin as [Heq | Hin].
      * injection Heq as -> ->. now apply init_no_list with (lead := lead).
      * eapply IH; eauto.
Qed.

(** The amended C10 at a tensor over [0e + 1e] whose first block is [None]. *)
Lemma split_specs_drops_none_witness :
  let t := mkIrrepsArray [(1, Irreps.ir0e); (1, Irreps.ir1e)] (mk [4] [0; 2; 3; 4]%Z)
             (Some [None; Some (mk [1; 3] [2; 3; 4]%Z)]) in
  let irrepss := [[(1, Irreps.ir0e)]; [(1, Irreps.ir1e)]] in
  exists parts,
    split t (Specs irrepss) = Ok parts
    /\ length parts = length irrepss
    /\ Forall (fun p => _list p = None
                        /\ exists l, list_ p = Ok l /\ Forall (fun x => x <> None) l) parts.
Proof.
  intros t irrepss.
  destruct (@split_specs_drops_none Z t irrepss) as [(ap & parts & _ & E & _ & Hlen & Hall) _].
  - discriminate.
  - reflexivity.
  - reflexivity.
  - exists parts. auto.
Defined.

(** C10, the claim as stated fails on the empty list of target specs:
    Python's [all(isinstance(i, int) for i in indices)] holds of it, so
    [split] takes the integer form and hands the block list through.  The
    tensor [zeros("0x1e", ())] simplifies to the empty spec, as the empty
    list of targets does, and [split([])] returns one part whose block view
    is [[None]]. *)
Lemma split_empty_list_keeps_none :
  let t := mkIrrepsArray [(0, Irreps.ir1e)] (mk [0] (@nil Z)) (Some [None]) in
  zeros [(0, Irreps.ir1e)] [] = Ok t
  /\ Irreps.simplify (irreps t) = Irreps.simplify (concat [])
  /\ split t (Specs []) = Ok [t]
  /\ list_ t = Ok [None].
Proof. repeat split. Qed.

(** ** Which exceptions an operation can raise *)

Lemma raises_only_bind {A B : Type} (P : exn -> Prop) (m : result A) (f : A -> result B) :
  raises_only P m -> (forall a, m = Ok a -> raises_only P (f a)) ->
  raises_only P (bind m f).
Proof. destruct m as [a|e]; simpl; auto. Qed.

Lemma raises_only_mapM {A B : Type} (P : exn -> Prop) (f : A -> result B) (l : list A) :
  (forall x, raises_only P (f x)) -> raises_only P (mapM f l).
Proof.
  intros Hf. induction l as [|a l IH]; simpl; [exact I|].
  apply raises_only_bind; [apply Hf|]. intros b _.
  apply raises_only_bind; [exact IH|]. intros bs _. exact I.
Qed.

Lemma raises_only_neq {A : Type} (m : result A) (e : exn) :
  raises_only benign m -> ~ benign e -> m <> Raise e.
Proof. intros Hm He ->. exact (He Hm). Qed.

Lemma not_benign_equivariance : ~ benign EquivarianceViolation.
Proof. unfold benign. intuition discriminate. Qed.

Lemma not_benign_division : ~ benign DivisionByDeterministicZero.
Proof. unfold benign. intuition discriminate. Qed.

Ltac benign_tac := unfold benign; auto 6.

Lemma reshape_benign {A : Type} (a : ndarray A) (s : list nat) :
  raises_only benign (reshape a s).
Proof. unfold reshape. destruct (_ =? _); simpl; [exact I | benign_tac]. Qed.

Lemma broadcast_rev_benign (s t : list nat) : raises_only benign (broadcast_rev s t).
Proof.
  revert t; induction s as [|a s IH]; intros [|b t]; simpl; try exact I.
  apply raises_only_bind; [apply IH|]. intros rest _.
  destruct (a =? b); [exact I|]. destruct (a =? 1); [exact I|].
  destruct (b =? 1); [exact I|]. simpl. benign_tac.
Qed.

Lemma map2_benign {A B C : Type} (f : A -> B -> C) (a : ndarray A) (b : ndarray B) :
  raises_only benign (map2 f a b).
Proof.
  unfold map2, broadcast_shapes.
  apply raises_only_bind; [|intros; exact I].
  apply raises_only_bind; [apply broadcast_rev_benign | intros; exact I].
Qed.

Lemma init_benign {A : Type} (irs : Irreps.t) (a : ndarray A)
  (lst : option (list (option (ndarray A)))) (checks : bool) :
  raises_only benign (__init__ irs a lst checks).
Proof.
  unfold __init__. destruct checks; [|exact I].
  apply raises_only_bind.
  - unfold last_dim. destruct (shape a); simpl; [benign_tac | exact I].
  - intros n _. destruct (negb _); simpl; [benign_tac|].
    destruct lst as [l|]; [|exact I].
    destruct (negb _); simpl; [benign_tac|].
    destruct (forallb _ _); simpl; [exact I | benign_tac].
Qed.

Lemma getitem_last_benign {A : Type} (a : ndarray A) (i j : nat) :
  raises_only benign (getitem_last a i j).
Proof. unfold getitem_last. destruct (has_axis _ _); simpl; [exact I | benign_tac]. Qed.

Lemma derive_list_benign {A : Type} (irs : Irreps.t) (a : ndarray A) :
  raises_only benign (derive_list irs a).
Proof.
  unfold derive_list.
  assert (Hgen : forall lead,
    raises_only benign
      (mapM (fun im : (nat * nat) * Irreps.MulIr =>
               let '((start, stop), (mul, ir)) := im in
               s <- getitem_last a start stop ;;
               x <- reshape s (lead ++ [mul; Irreps.ir_dim ir]) ;;
               Ok (Some x))
            (combine (Irreps.slices irs) irs))).
  { intros lead. apply raises_only_mapM. intros [[start stop] [mul ir]].
    apply raises_only_bind; [apply getitem_last_benign|]. intros s _.
    apply raises_only_bind; [apply reshape_benign|]. intros x _. exact I. }
  destruct irs as [|[mul ir] [|mi irs]]; try apply Hgen.
  apply raises_only_bind; [apply reshape_benign | intros; exact I].
Qed.

Lemma list_benign {A : Type} (t : IrrepsArray A) : raises_only benign (list_ t).
Proof.
  unfold list_, list_cached. destruct (_list t) as [l|]; [exact I|].
  apply raises_only_bind; [|intros [? ?] _; exact I].
  apply raises_only_bind; [apply derive_list_benign | intros; exact I].
Qed.

(** A derived block view holds no [None]. *)
Lemma derive_list_no_none {A : Type} (irs : Irreps.t) (a : ndarray A)
  (l : list (option (ndarray A))) :
  derive_list irs a = Ok l -> existsb is_none l = false.
Proof.
  unfold derive_list.
  assert (Hgen : forall lead,
    mapM (fun im : (nat * nat) * Irreps.MulIr =>
            let '((start, stop), (mul, ir)) := im in
            s <- getitem_last a start stop ;;
            x <- reshape s (lead ++ [mul; Irreps.ir_dim ir]) ;;
            Ok (Some x))
         (combine (Irreps.slices irs) irs) = Ok l ->
    existsb is_none l = false).
  { intros lead E. apply mapM_inv in E.
    induction E as [|[[start stop] [mul ir]] x ims l Hx _ IH]; [reflexivity|].
    apply bind_ok in Hx as (s & _ & Hx). apply bind_ok in Hx as (b & _ & Hx).
    injection Hx as <-. exact IH. }
  destruct irs as [|[mul ir] [|mi irs]]; try apply Hgen.
  intros E. apply bind_ok in E as (x & _ & E). injection E as <-. reflexivity.
Qed.

Lemma list_stored {A : Type} (t : IrrepsArray A) (l : list (option (ndarray A))) :
  _list t = Some l -> list_ t = Ok l.
Proof. intros E. unfold list_, list_cached. now rewrite E. Qed.

Lemma list_derived_no_none {A : Type} (t : IrrepsArray A) (l : list (option (ndarray A))) :
  _list t = None -> list_ t = Ok l -> existsb is_none l = false.
Proof.
  intros E. unfold list_, list_cached. rewrite E. intros El.
  apply bind_ok in El as ([t' l'] & El & Eq). injection Eq as <-.
  apply bind_ok in El as (l0 & El & Eq). injection Eq as _ <-.
  exact (derive_list_no_none _ _ El).
Qed.

Lemma existsb_is_none_in {X : Type} (l : list (option X)) :
  existsb is_none l = true <-> In None l.
Proof.
  rewrite existsb_exists. split.
  - intros ([x|] & Hin & Hx); [discriminate | exact Hin].
  - intros Hin. exists None. auto.
Qed.

Lemma lmax_nonempty (o : option nat) (irs : Irreps.t) :
  irs <> [] -> Irreps.lmax o irs = Ok (Irreps.max_order irs).
Proof. destruct irs; [congruence | reflexivity]. Qed.

(** ** Guards of the elementwise operators *)

Section AlgebraFacts.
Context {T : Type} `{Scalar T}.

(** [o] is what [Irreps.lmax] answers on an empty spec and [tp] the
    collaborator [elementwise_tensor_product]. *)
Variable o : option nat.
Variable tp : IrrepsArray T -> IrrepsArray T -> option (IrrepsArray T).

Lemma lmax_benign (t : IrrepsArray T) : raises_only benign (lmax_ o t).
Proof.
  unfold lmax_, Irreps.lmax. destruct (irreps t); [|exact I].
  destruct o; simpl; [exact I | benign_tac].
Qed.

Lemma tensor_product_benign (x y : IrrepsArray T) : raises_only benign (tensor_product tp x y).
Proof.
  unfold tensor_product. destruct (tp x y); simpl;
    [exact I | benign_tac].
Qed.

(** Past its two guards, [__rtruediv__] raises nothing but benign exceptions. *)
Lemma rtruediv_benign (y : IrrepsArray T) (v : ndarray T) (l : list (option (ndarray T))) :
  lmax_ o y = Ok 0 -> list_ y = Ok l -> existsb is_none l = false ->
  raises_only benign (__rtruediv__ o y v).
Proof.
  intros Hl El Hn. unfold __rtruediv__. rewrite Hl. cbn [bind Nat.ltb Nat.leb].
  rewrite El. cbn [bind]. rewrite Hn.
  apply raises_only_bind; [apply map2_benign|]. intros r _.
  apply raises_only_bind; [|intros; apply init_benign].
  apply raises_only_mapM. intros [x|]; simpl; [|benign_tac].
  apply raises_only_bind; [apply map2_benign | intros; exact I].
Qed.

(** What [__truediv__] does once the divisor is accepted as a scalar tensor
    with as many channels as the dividend. *)
Lemma truediv_permitted (x y : IrrepsArray T) :
  irreps y <> [] ->
  Irreps.max_order (irreps y) = 0 ->
  Irreps.num_irreps (irreps x) = Irreps.num_irreps (irreps y) ->
  __truediv__ o tp x (Tensor y)
  = (l <- list_ y ;;
     if existsb is_none l then Raise DivisionByDeterministicZero
     else other <- __rtruediv__ o y (mk [] [one]) ;; tensor_product tp x other).
Proof.
  intros Hne Hmax Hnum. unfold __truediv__.
  destruct (irreps y) as [|mi irs] eqn:Ey; [congruence|].
  cbn [length Nat.eqb]. unfold lmax_. rewrite Ey.
  cbn [Irreps.lmax bind]. rewrite Hmax, Hnum, Nat.eqb_refl. reflexivity.
Qed.

Lemma truediv_rest_benign (x y : IrrepsArray T) (l : list (option (ndarray T))) :
  irreps y <> [] -> Irreps.max_order (irreps y) = 0 ->
  list_ y = Ok l -> existsb is_none l = false ->
  raises_only benign (other <- __rtruediv__ o y (mk [] [one]) ;; tensor_product tp x other).
Proof.
  intros Hne Hmax El Hn.
  apply raises_only_bind; [|intros; apply tensor_product_benign].
  apply rtruediv_benign with (l := l); auto.
  unfold lmax_. now rewrite lmax_nonempty, Hmax.
Qed.

(** C3, as amended.  [x / y] raises the division-by-deterministic-zero
    error exactly when division by [y] is otherwise permitted ([y] has a
    non-empty all-scalar spec with as many irrep channels as [x]) and the
    stored block list of [y] holds a [None].  A tensor whose stored list
    holds a [None], divided by itself, raises that error exactly when its
    spec is non-empty and all-scalar; when its spec is empty or non-scalar
    the division raises the equivariance error instead, because that guard
    is tested before the block list is read. *)
Theorem truediv_deterministic_zero (x y : IrrepsArray T) :
  (__truediv__ o tp x (Tensor y) = Raise DivisionByDeterministicZero
   <-> irreps y <> [] /\ Irreps.max_order (irreps y) = 0
       /\ Irreps.num_irreps (irreps x) = Irreps.num_irreps (irreps y)
       /\ exists l, _list y = Some l /\ In None l)
  /\ ((exists l, _list y = Some l /\ In None l) ->
      (__truediv__ o tp y (Tensor y) = Raise DivisionByDeterministicZero
       <-> irreps y <> [] /\ Irreps.max_order (irreps y) = 0)
      /\ (__truediv__ o tp y (Tensor y) = Raise EquivarianceViolation
          <-> irreps y = [] \/ 0 < Irreps.max_order (irreps y))).
Proof.
  assert (Hperm : forall x', irreps y <> [] -> Irreps.max_order (irreps y) = 0 ->
            Irreps.num_irreps (irreps x') = Irreps.num_irreps (irreps y) ->
            (__truediv__ o tp x' (Tensor y) = Raise DivisionByDeterministicZero
             <-> exists l, _list y = Some l /\ In None l)).
  { intros x' Hne Hmax Hnum'. rewrite (@truediv_permitted x' y Hne Hmax Hnum'). split.
    - destruct (list_ y) as [l|e] eqn:El; cbn [bind].
      + destruct (existsb is_none l) eqn:Hn.
        * intros _. destruct (_list y) as [l'|] eqn:Es.
          -- rewrite (list_stored _ Es) in El. injection El as ->.
             exists l. split; [reflexivity | now apply existsb_is_none_in].
          -- rewrite (list_derived_no_none _ Es El) in Hn. discriminate.
        * intros E. exfalso. revert E. apply raises_only_neq.
          -- now apply truediv_rest_benign with (l := l).
          -- exact not_benign_division.
      + intros [= ->]. pose proof (list_benign y) as Hb. rewrite El in Hb.
        exfalso. exact (not_benign_division Hb).
    - intros (l & Es & Hin). rewrite (list_stored _ Es). cbn [bind].
      now rewrite (proj2 (existsb_is_none_in l) Hin). }
  assert (Hrefused : forall x', irreps y = [] \/ 0 < Irreps.max_order (irreps y)
                       \/ Irreps.num_irreps (irreps x') <> Irreps.num_irreps (irreps y) ->
            __truediv__ o tp x' (Tensor y) = Raise EquivarianceViolation).
  { intros x' Hg. unfold __truediv__.
    destruct (irreps y) as [|mi irs] eqn:Ey; [reflexivity|].
    cbn [length Nat.eqb]. unfold lmax_. rewrite Ey. cbn [Irreps.lmax bind].
    replace ((0 <? Irreps.max_order (mi :: irs))
             || negb (Irreps.num_irreps (irreps x') =? Irreps.num_irreps (mi :: irs)))
      with true; [reflexivity|].
    symmetry. apply orb_true_iff. destruct Hg as [Hg | [Hg | Hg]]; [discriminate | |].
    - left. now apply Nat.ltb_lt.
    - right. apply negb_true_iff. now apply Nat.eqb_neq. }
  assert (Hcases : forall x' : IrrepsArray T,
            (irreps y <> [] /\ Irreps.max_order (irreps y) = 0
             /\ Irreps.num_irreps (irreps x') = Irreps.num_irreps (irreps y))
            \/ (irreps y = [] \/ 0 < Irreps.max_order (irreps y)
                \/ Irreps.num_irreps (irreps x') <> Irreps.num_irreps (irreps y))).
  { intros x'. destruct (irreps y) as [|mi irs]; [right; now left|].
    destruct (Irreps.max_order (mi :: irs)) as [|m]; [|right; right; left; lia].
    destruct (Nat.eq_dec (Irreps.num_irreps (irreps x')) (Irreps.num_irreps (mi :: irs)))
      as [E|E]; [left; repeat split; [discriminate | exact E] | right; right; now right]. }
  split; [|intros Hl; split].
  - split.
    + intros E. destruct (Hcases x) as [(Hne & Hmax & Hnum) | Hg].
      * repeat split; auto. now apply (Hperm x Hne Hmax Hnum).
      * rewrite (Hrefused x Hg) in E. discriminate.
    + intros (Hne & Hmax & Hnum & Hl). now apply (Hperm x Hne Hmax Hnum).
  - split.
    + intros E. destruct (Hcases y) as [(Hne & Hmax & _) | Hg]; [now split|].
      rewrite (Hrefused y Hg) in E. discriminate.
    + intros [Hne Hmax]. now apply (Hperm y Hne Hmax eq_refl).
  - split.
    + intros E. destruct (Hcases y) as [(Hne & Hmax & _) | [Hg | [Hg | Hg]]]; auto.
      * rewrite (proj2 (Hperm y Hne Hmax eq_refl) Hl) in E. discriminate.
      * congruence.
    + intros Hg. apply Hrefused. destruct Hg as [Hg | Hg]; auto.
Qed.

(** A non-scalar tensor divided by itself is refused as not equivariant
    before its block list is looked at. *)
Lemma truediv_self_nonscalar (t : IrrepsArray T) :
  0 < Irreps.max_order (irreps t) ->
  __truediv__ o tp t (Tensor t) = Raise EquivarianceViolation.
Proof.
  intros Hmax. unfold __truediv__.
  destruct (irreps t) as [|mi irs] eqn:Et; [reflexivity|].
  cbn [length Nat.eqb]. unfold lmax_. rewrite Et. cbn [Irreps.lmax bind].
  now rewrite (proj2 (Nat.ltb_lt _ _) Hmax).
Qed.

(** C4, as amended.  [x * y] raises the ambiguity error exactly when both
    operands are non-scalar.  [x / y] raises the equivariance error exactly
    when the divisor [y] has an empty spec, is non-scalar, or has another
    number of irrep channels than [x]: the divisor itself must be scalar,
    whatever [x] is. *)
Theorem mul_div_guards (x y : IrrepsArray T) :
  (__mul__ o tp x (Tensor y) = Raise EquivarianceViolation
   <-> exists n m, lmax_ o x = Ok n /\ lmax_ o y = Ok m /\ 0 < n /\ 0 < m)
  /\ (__truediv__ o tp x (Tensor y) = Raise EquivarianceViolation
      <-> irreps y = [] \/ 0 < Irreps.max_order (irreps y)
          \/ Irreps.num_irreps (irreps x) <> Irreps.num_irreps (irreps y)).
Proof.
  split.
  - unfold __mul__. split.
    + pose proof (lmax_benign x) as Hx. pose proof (lmax_benign y) as Hy.
      destruct (lmax_ o x) as [n|e]; cbn [bind].
      * destruct (0 <? n) eqn:Hn.
        -- destruct (lmax_ o y) as [m|e]; cbn [bind].
           ++ destruct (0 <? m) eqn:Hm.
              ** intros _. exists n, m. apply Nat.ltb_lt in Hn, Hm. auto.
              ** intros E. exfalso. revert E.
                 apply raises_only_neq;
                   [apply tensor_product_benign | exact not_benign_equivariance].
           ++ intros [= ->]. exfalso. exact (not_benign_equivariance Hy).
        -- intros E. exfalso. revert E.
           apply raises_only_neq;
             [apply tensor_product_benign | exact not_benign_equivariance].
      * intros [= ->]. exfalso. exact (not_benign_equivariance Hx).
    + intros (n & m & -> & Em & Hn & Hm). cbn [bind].
      rewrite (proj2 (Nat.ltb_lt _ _) Hn), Em. cbn [bind].
      now rewrite (proj2 (Nat.ltb_lt _ _) Hm).
  - destruct (Nat.eq_dec (length (irreps y)) 0) as [E0|E0].
    + apply length_zero_iff_nil in E0.
      unfold __truediv__. rewrite E0. simpl. tauto.
    + assert (Hne : irreps y <> []) by (intros Ey; now rewrite Ey in E0).
      destruct (0 <? Irreps.max_order (irreps y)) eqn:Hmax.
      * apply Nat.ltb_lt in Hmax. split; [auto|]. intros _.
        unfold __truediv__.
        destruct (irreps y) as [|mi irs] eqn:Ey; [reflexivity|].
        cbn [length Nat.eqb]. unfold lmax_. rewrite Ey.
        cbn [Irreps.lmax bind]. now rewrite (proj2 (Nat.ltb_lt _ _) Hmax).
      * apply Nat.ltb_ge in Hmax. assert (Hmax0 : Irreps.max_order (irreps y) = 0) by lia.
        destruct (Nat.eq_dec (Irreps.num_irreps (irreps x)) (Irreps.num_irreps (irreps y)))
          as [Hnum|Hnum].
        -- rewrite (@truediv_permitted x y Hne Hmax0 Hnum). split.
           ++ intros E. exfalso. revert E.
              pose proof (list_benign y) as Hb.
              destruct (list_ y) as [l|e] eqn:El; cbn [bind].
              ** destruct (existsb is_none l) eqn:Hn; [discriminate|].
                 apply raises_only_neq; [|exact not_benign_equivariance].
                 now apply truediv_rest_benign with (l := l).
              ** intros [= ->]. exact (not_benign_equivariance Hb).
           ++ intros [Ey | [Hpos | Hneq]]; [congruence | lia | congruence].
        -- split; [auto|]. intros _. unfold __truediv__.
           destruct (irreps y) as [|mi irs] eqn:Ey; [reflexivity|].
           cbn [length Nat.eqb]. unfold lmax_. rewrite Ey.
           cbn [Irreps.lmax bind]. rewrite Hmax0.
           apply Nat.eqb_neq in Hnum. now rewrite Hnum.
Qed.

(** *** Comparison with a bare value *)




End AlgebraFacts.

(** The amended C3 at the tensor [zeros("2x0e", ())] divided by itself. *)
Lemma truediv_deterministic_zero_witness :
  let t := mkIrrepsArray [(2, Irreps.ir0e)] (mk [2] [0; 0]%Z) (Some [None]) in
  __truediv__ None no_tensor_product t (Tensor t) = Raise DivisionByDeterministicZero.
Proof.
  intros t.
  apply (proj2 (proj1 (proj2 (@truediv_deterministic_zero Z _ None no_tensor_product t t)
                         (ex_intro _ [None] (conj eq_refl (or_introl eq_refl)))))).
  split; [discriminate | reflexivity].
Defined.

(** C3, the claim as stated fails in its self-division clause:
    [zeros("1x1e", ())] stores the block list [[None]], yet dividing it by
    itself raises the equivariance error and not the
    division-by-deterministic-zero error. *)
Lemma truediv_self_vector_refused :
  let t := mkIrrepsArray [(1, Irreps.ir1e)] (mk [3] [0; 0; 0]%Z) (Some [None]) in
  zeros [(1, Irreps.ir1e)] [] = Ok t
  /\ (exists l, _list t = Some l /\ In None l)
  /\ __truediv__ None no_tensor_product t (Tensor t) = Raise EquivarianceViolation
  /\ __truediv__ None no_tensor_product t (Tensor t) <> Raise DivisionByDeterministicZero.
Proof.
  intros t. split; [reflexivity|]. split; [exists [None]; split; [reflexivity | now left]|].
  split; [reflexivity | discriminate].
Qed.

(** C4, the claim as stated fails for division: with a scalar dividend and
    a non-scalar divisor at most one operand is non-scalar, the divisor's
    spec is not empty, the channel counts agree and no divisor block is
    [None], yet the division is refused as not equivariant. *)
Lemma truediv_by_vector_refused :
  let x := mkIrrepsArray [(1, Irreps.ir0e)] (mk [1] [5]%Z) None in
  let y := mkIrrepsArray [(1, Irreps.ir1e)] (mk [3] [1; 2; 3]%Z) None in
  lmax_ None x = Ok 0
  /\ irreps y <> []
  /\ Irreps.num_irreps (irreps x) = Irreps.num_irreps (irreps y)
  /\ list_ y = Ok [Some (mk [1; 3] [1; 2; 3]%Z)]
  /\ __truediv__ None no_tensor_product x (Tensor y) = Raise EquivarianceViolation.
Proof. repeat split. discriminate. Qed.



(** ** [norm] *)

(** C8, the defect.  [norm] applies its inner function to every entry of
    the block list, [None] included, and [None ** 2] raises [TypeError]:
    the norm of [zeros("1x1e", ())] is not a tensor over [1x0e]. *)
Lemma norm_of_zeros_raises (T : Type) (S : Scalar T) (squared : bool) :
  (t <- zeros [(1, Irreps.ir1e)] [] ;; norm t squared) = Raise TypeError.
Proof. reflexivity. Qed.

(** ** Building a tensor from blocks *)

Lemma block_shape_ok_fits {A : Type} (lead : list nat) (x : option (ndarray A))
  (mi : Irreps.MulIr) :
  block_shape_ok lead x mi = true <-> block_fits lead x mi.
Proof.
  unfold block_shape_ok, block_fits. destruct x as [b|]; [apply shape_eqb_eq | tauto].
Qed.

Lemma forallb_fits {A : Type} (lead : list nat) (lst : list (option (ndarray A)))
  (irs : Irreps.t) :
  Forall2 (block_fits lead) lst irs ->
  forallb (fun xm => block_shape_ok lead (fst xm) (snd xm)) (combine lst irs) = true.
Proof.
  induction 1 as [|x mi lst irs Hx _ IH]; simpl; [reflexivity|].
  now rewrite (proj2 (block_shape_ok_fits lead x mi) Hx), IH.
Qed.

Lemma fits_of_forallb {A : Type} (lead : list nat) (lst : list (option (ndarray A)))
  (irs : Irreps.t) :
  length lst = length irs ->
  forallb (fun xm => block_shape_ok lead (fst xm) (snd xm)) (combine lst irs) = true ->
  Forall2 (block_fits lead) lst irs.
Proof.
  revert irs. induction lst as [|x lst IH]; intros [|mi irs] Hlen Hf; try discriminate.
  - constructor.
  - simpl in Hf. apply andb_true_iff in Hf as [Hx Hf].
    constructor; [now apply block_shape_ok_fits | apply IH; auto].
Qed.

Lemma block_of_fits {A : Type} (lead : list nat) (lst : list (option (ndarray A)))
  (irs : Irreps.t) :
  Forall2 (block_of lead) lst irs -> Forall2 (block_fits lead) lst irs.
Proof.
  induction 1 as [|x mi lst irs (b & -> & Hb) _ IH]; constructor; [exact Hb | exact IH].
Qed.

(** The block list of a checked tensor fits its spec. *)
Lemma checked_list_fits {A : Type} (t : IrrepsArray A) :
  checked t ->
  shape (array t) = removelast (shape (array t)) ++ [Irreps.dim (irreps t)]
  /\ exists l, list_ t = Ok l /\ Forall2 (block_fits (removelast (shape (array t)))) l (irreps t).
Proof.
  intros Hck. destruct (init_ok_inv _ _ _ Hck) as (_ & Hs & Hl). split; [exact Hs|].
  destruct (_list t) as [l|] eqn:El.
  - exists l. split; [now apply list_stored|]. destruct Hl as [Hlen Hf].
    now apply fits_of_forallb.
  - destruct (@list_of_buffer _ (irreps t) (array t) _ Hs) as (l & E & Hl' & _).
    exists l. split; [|now apply block_of_fits].
    destruct t as [irs a lst]. simpl in *. now subst lst.
Qed.

(** *** Concatenation *)

Lemma concatenate_ok {A : Type} (parts : list (ndarray A)) (pre post : list nat)
  (ws : list nat) :
  Forall2 (fun p w => shape p = pre ++ w :: post) parts ws ->
  parts <> [] ->
  concatenate parts (S (length post))
  = Ok (mk (pre ++ list_sum ws :: post)
           (flat_map (fun r =>
              flat_map (fun a => chunk (at_axis (S (length post)) (shape a) * size post) r
                                   (data a)) parts)
              (seq 0 (size pre)))).
Proof.
  intros Hp Hne. unfold concatenate.
  destruct parts as [|a0 parts']; [congruence|].
  assert (H0 : exists w0, shape a0 = pre ++ w0 :: post)
    by (inversion Hp; subst; eauto).
  destruct H0 as (w0 & Hs0). rewrite Hs0.
  destruct (axis_of_shape pre w0 post) as (_ & -> & _ & ->).
  assert (Hall : forallb (fun a => has_axis (S (length post)) (shape a)
                            && shape_eqb (pre_axis (S (length post)) (shape a)) pre
                            && shape_eqb (post_axis (S (length post)) (shape a)) post)
                   (a0 :: parts') = true
                 /\ list_sum (map (fun a => at_axis (S (length post)) (shape a)) (a0 :: parts'))
                    = list_sum ws).
  { clear Hne Hs0. induction Hp as [|p w ps ws' Hs _ IH]; [split; reflexivity|].
    destruct IH as [IH1 IH2]. cbn [forallb map]. rewrite Hs.
    destruct (axis_of_shape pre w post) as (-> & -> & -> & ->).
    rewrite !shape_eqb_refl, IH1. split; [reflexivity|].
    change (list_sum (w :: ws')) with (w + list_sum ws'). rewrite <- IH2. reflexivity. }
  destruct Hall as [-> ->]. reflexivity.
Qed.

Lemma concatenate_last_ok {A : Type} (parts : list (ndarray A)) (lead ws : list nat) :
  Forall2 (fun p w => shape p = lead ++ [w]) parts ws ->
  parts <> [] ->
  concatenate parts 1
  = Ok (mk (lead ++ [list_sum ws])
           (flat_map (fun r =>
              flat_map (fun a => chunk (at_axis 1 (shape a) * 1) r (data a)) parts)
              (seq 0 (size lead)))).
Proof. intros Hp Hne. exact (@concatenate_ok _ parts lead [] ws Hp Hne). Qed.

Section FromList.
Context {T : Type} `{Scalar T}.

Lemma parts_ok (lead : list nat) (lst : list (option (ndarray T))) (irs : Irreps.t) :
  Forall2 (block_fits lead) lst irs ->
  mapM (part_of lead) (combine irs lst)
  = Ok (map (fun mx : Irreps.MulIr * option (ndarray T) =>
               mk (lead ++ [Irreps.mulir_dim (fst mx)]) (block_data lead (snd mx) (fst mx)))
            (combine irs lst)).
Proof.
  induction 1 as [|x mi lst irs Hx _ IH]; [reflexivity|].
  cbn [combine mapM map]. rewrite IH.
  unfold part_of at 1. cbn [fst snd]. destruct x as [b|]; cbn [block_data].
  - unfold reshape. simpl in Hx. rewrite Hx. unfold Irreps.mulir_dim at 1.
    rewrite size_block, Nat.eqb_refl. reflexivity.
  - reflexivity.
Qed.

Lemma from_list_ok (irs : Irreps.t) (lst : list (option (ndarray T))) (lead : list nat) :
  Forall2 (block_fits lead) lst irs ->
  exists arr,
    from_list irs lst lead = Ok (mkIrrepsArray irs arr (Some lst))
    /\ shape arr = lead ++ [Irreps.dim irs]
    /\ (0 < Irreps.dim irs ->
        data arr = flat_map (fun r =>
                     flat_map (fun mx : Irreps.MulIr * option (ndarray T) =>
                                 chunk (Irreps.mulir_dim (fst mx)) r
                                   (block_data lead (snd mx) (fst mx)))
                       (combine irs lst))
                     (seq 0 (size lead)))
    /\ (Irreps.dim irs = 0 -> data arr = []).
Proof.
  intros Hfit. pose proof (Forall2_length Hfit) as Hlen.
  assert (Hinit : forall arr, shape arr = lead ++ [Irreps.dim irs] ->
            __init__ irs arr (Some lst) true = Ok (mkIrrepsArray irs arr (Some lst))).
  { intros arr Hs. unfold __init__. rewrite Hs, last_dim_app. cbn [bind].
    rewrite Nat.eqb_refl, Hlen, Nat.eqb_refl, removelast_snoc. cbn [negb].
    now rewrite (forallb_fits Hfit). }
  unfold from_list. rewrite Hlen, Nat.eqb_refl, (forallb_fits Hfit). cbn [negb].
  destruct (0 <? Irreps.dim irs) eqn:Hd.
  - apply Nat.ltb_lt in Hd.
    change (fun mx : Irreps.MulIr * option (ndarray T) =>
              match snd mx with
              | Some x => reshape x (lead ++ [Irreps.mulir_dim (fst mx)])
              | None => Ok (jnp.zeros (lead ++ [Irreps.mulir_dim (fst mx)]))
              end) with (part_of lead).
    rewrite (parts_ok Hfit). cbn [bind].
    set (parts := map _ (combine irs lst)).
    assert (Hparts : Forall2 (fun p w => shape p = lead ++ [w]) parts
                       (map Irreps.mulir_dim irs)).
    { subst parts. clear Hd Hinit Hlen.
      induction Hfit as [|x mi lst irs _ _ IH]; simpl; constructor; auto. }
    assert (Hne : parts <> []).
    { subst parts. destruct Hfit; [unfold Irreps.dim in Hd; simpl in Hd; lia | discriminate]. }
    rewrite (@concatenate_last_ok _ parts lead _ Hparts Hne). cbn [bind].
    eexists. split; [apply Hinit; reflexivity|]. split; [reflexivity|].
    split; [|unfold Irreps.dim in *; lia]. intros _. cbn [data size length fold_right].
    apply flat_map_ext. intros r. subst parts. rewrite flat_map_concat_map, map_map,
      <- flat_map_concat_map.
    apply flat_map_ext. intros [mi x]. cbn [shape data fst snd].
    destruct (last_axis lead (Irreps.mulir_dim mi)) as (_ & _ & -> & _).
    now rewrite Nat.mul_1_r.
  - apply Nat.ltb_ge in Hd. assert (Hd0 : Irreps.dim irs = 0) by lia. cbn [bind].
    eexists. split; [apply Hinit; now rewrite Hd0|]. rewrite Hd0.
    split; [reflexivity|]. split; [lia|]. intros _.
    unfold jnp.zeros, full. cbn [data]. rewrite size_app. simpl. now rewrite Nat.mul_0_r.
Qed.

End FromList.

(** ** Standardized axes *)

Lemma insert_set_in (i x : nat) (l : list nat) :
  In x (insert_set i l) <-> x = i \/ In x l.
Proof.
  induction l as [|j l IH]; simpl; [intuition|].
  destruct (i <? j) eqn:Hlt; [simpl; intuition|].
  destruct (i =? j) eqn:Heq.
  - apply Nat.eqb_eq in Heq; subst j. simpl. intuition.
  - simpl. rewrite IH. intuition.
Qed.

Lemma insert_set_sorted (i : nat) (l : list nat) :
  StronglySorted lt l -> StronglySorted lt (insert_set i l).
Proof.
  induction 1 as [|j l Hs IH Hj]; simpl; [repeat constructor|].
  destruct (i <? j) eqn:Hlt.
  - apply Nat.ltb_lt in Hlt. constructor; [now constructor|].
    constructor; [exact Hlt|]. eapply Forall_impl; [|exact Hj]. intros; simpl in *; lia.
  - destruct (i =? j) eqn:Heq; [now constructor|].
    apply Nat.ltb_ge in Hlt. apply Nat.eqb_neq in Heq.
    constructor; [exact IH|]. apply Forall_forall. intros x Hx.
    apply insert_set_in in Hx as [-> | Hx]; [lia|].
    rewrite Forall_forall in Hj. now apply Hj.
Qed.

Lemma sorted_set_sorted (l : list nat) : StronglySorted lt (sorted_set l).
Proof.
  induction l as [|a l IH]; simpl; [constructor | now apply insert_set_sorted].
Qed.

Lemma sorted_set_in (x : nat) (l : list nat) : In x (sorted_set l) <-> In x l.
Proof.
  induction l as [|a l IH]; simpl; [tauto|]. rewrite insert_set_in, IH. intuition.
Qed.

Lemma sorted_set_id (l : list nat) : StronglySorted lt l -> sorted_set l = l.
Proof.
  induction 1 as [|a l Hs IH Ha]; [reflexivity|]. simpl. rewrite IH.
  destruct l as [|b l]; [reflexivity|]. simpl.
  inversion Ha as [|? ? Hab _]; subst. now rewrite (proj2 (Nat.ltb_lt _ _) Hab).
Qed.

Lemma sorted_removelast (l : list nat) :
  StronglySorted lt l -> l <> [] ->
  StronglySorted lt (removelast l)
  /\ Forall (fun x => x < last l 0) (removelast l)
  /\ In (last l 0) l.
Proof.
  induction 1 as [|a l Hs IH Ha]; [congruence|]. intros _.
  destruct l as [|b l]; [simpl; repeat split; [constructor | constructor | now left]|].
  destruct IH as (IH1 & IH2 & IH3); [discriminate|].
  change (removelast (a :: b :: l)) with (a :: removelast (b :: l)).
  change (last (a :: b :: l) 0) with (last (b :: l) 0).
  rewrite Forall_forall in Ha. repeat split.
  - constructor; [exact IH1|]. apply Forall_forall. intros x Hx.
    apply Ha. clear - Hx. revert Hx. generalize (b :: l). intros l'.
    induction l' as [|c [|c' l'] IH]; simpl; intros Hx; [destruct Hx | destruct Hx |].
    destruct Hx as [-> | Hx]; [now left | right; now apply IH].
  - constructor; [now apply Ha | exact IH2].
  - now right.
Qed.

Lemma sorted_last_max (l : list nat) (x : nat) :
  StronglySorted lt l -> In x l -> x <= last l 0.
Proof.
  intros Hs Hx. assert (Hne : l <> []) by (intros ->; destruct Hx).
  destruct (sorted_removelast Hs Hne) as (_ & Hlt & _).
  rewrite (app_removelast_last 0 Hne) in Hx. apply in_app_or in Hx as [Hx | [<- | []]].
  - rewrite Forall_forall in Hlt. specialize (Hlt x Hx). lia.
  - lia.
Qed.

Lemma norm_axis_of_nat (n i : nat) : i < n -> norm_axis n (Z.of_nat i) = i.
Proof.
  intros Hi. unfold norm_axis. rewrite Z.mod_small by lia. apply Nat2Z.id.
Qed.

Lemma norm_axis_lt (n : nat) (i : Z) : 0 < n -> norm_axis n i < n.
Proof.
  intros Hn. unfold norm_axis.
  pose proof (Z.mod_pos_bound i (Z.of_nat n) ltac:(lia)). lia.
Qed.

Lemma axes_in_range_of_nat (n : nat) (ax : list nat) :
  Forall (fun i => i < n) ax -> axes_in_range n (map Z.of_nat ax) = true.
Proof.
  unfold axes_in_range. rewrite forallb_forall. intros Hax z Hz.
  apply in_map_iff in Hz as (i & <- & Hi). rewrite Forall_forall in Hax.
  specialize (Hax i Hi). apply andb_true_iff. split; [apply Z.leb_le | apply Z.ltb_lt]; lia.
Qed.

(** What [_standardize_axis] returns: strictly increasing axes within the
    array's dimensions. *)
Lemma standardize_axis_spec (axis : axis_arg) (n : nat) (ax : list nat) :
  _standardize_axis axis n = Ok ax ->
  StronglySorted lt ax /\ Forall (fun i => i < n) ax.
Proof.
  destruct axis as [|i|l]; unfold _standardize_axis.
  - intros [= <-]. split.
    + generalize 0. induction n as [|n IH]; intros s; simpl; constructor; [apply IH|].
      apply Forall_forall. intros x Hx. apply in_seq in Hx. lia.
    + apply Forall_forall. intros x Hx. apply in_seq in Hx. lia.
  - destruct (axes_in_range n [i]) eqn:Hr; cbn [assert bind]; [|discriminate]. intros [= <-].
    split; [repeat constructor|]. repeat constructor. apply norm_axis_lt.
    unfold axes_in_range in Hr. simpl in Hr. destruct n; [|lia].
    apply andb_true_iff in Hr as [Hr _]. apply andb_true_iff in Hr as [H1 H2].
    apply Z.leb_le in H1. apply Z.ltb_lt in H2. simpl in *. lia.
  - destruct (axes_in_range n l) eqn:Hr; cbn [assert bind]; [|discriminate]. intros [= <-].
    split; [apply sorted_set_sorted|]. apply Forall_forall. intros x Hx.
    apply (proj1 (sorted_set_in _ _)) in Hx. apply in_map_iff in Hx as (z & <- & Hz).
    apply norm_axis_lt. unfold axes_in_range in Hr. rewrite forallb_forall in Hr.
    specialize (Hr z Hz). apply andb_true_iff in Hr as [H1 H2].
    apply Z.leb_le in H1. apply Z.ltb_lt in H2. destruct n; [simpl in *; lia | lia].
Qed.

(** Standardizing axes that are already standard changes nothing. *)
Lemma standardize_axis_id (n : nat) (ax : list nat) :
  StronglySorted lt ax -> Forall (fun i => i < n) ax ->
  _standardize_axis (AxisTuple (map Z.of_nat ax)) n = Ok ax.
Proof.
  intros Hs Hax. unfold _standardize_axis. rewrite (axes_in_range_of_nat Hax).
  cbn [assert bind]. rewrite map_map. rewrite (map_ext_in _ (fun i => i)).
  - rewrite map_id. now rewrite sorted_set_id.
  - intros i Hi. rewrite Forall_forall in Hax. now apply norm_axis_of_nat, Hax.
Qed.

(** ** Shapes left by a reduction *)

Lemma reduce_dims_skip (ax : list nat) (kd : bool) (tail : list nat) (k : nat) :
  Forall (fun i => i < k) ax -> reduce_dims ax kd k tail = tail.
Proof.
  revert k. induction tail as [|n tail IH]; intros k Hax; simpl; [reflexivity|].
  replace (existsb (Nat.eqb k) ax) with false.
  - simpl. f_equal. apply IH. eapply Forall_impl; [|exact Hax]. intros; simpl in *; lia.
  - symmetry. apply not_true_iff_false. intros Hex.
    apply existsb_exists in Hex as (i & Hi & Heq). apply Nat.eqb_eq in Heq; subst i.
    rewrite Forall_forall in Hax. specialize (Hax k Hi). lia.
Qed.

Lemma reduce_dims_app (ax : list nat) (kd : bool) (lead tail : list nat) (k : nat) :
  Forall (fun i => i < k + length lead) ax ->
  reduce_dims ax kd k (lead ++ tail) = reduce_dims ax kd k lead ++ tail.
Proof.
  revert k. induction lead as [|n lead IH]; intros k Hax; simpl.
  - apply reduce_dims_skip. eapply Forall_impl; [|exact Hax]. intros; simpl in *; lia.
  - rewrite <- app_assoc. f_equal. apply IH.
    eapply Forall_impl; [|exact Hax]. intros; simpl in *; lia.
Qed.

(** Reducing leading axes leaves the trailing axes alone. *)
Lemma reduce_shape_leading (ax : list nat) (kd : bool) (lead tail : list nat) :
  Forall (fun i => i < length lead) ax ->
  reduce_shape (lead ++ tail) (map Z.of_nat ax) kd = reduce_dims ax kd 0 lead ++ tail.
Proof.
  intros Hax. unfold reduce_shape. rewrite map_map.
  rewrite (map_ext_in _ (fun i => i)).
  - rewrite map_id. now apply reduce_dims_app.
  - intros i Hi. rewrite Forall_forall in Hax. specialize (Hax i Hi).
    apply norm_axis_of_nat. rewrite length_app. lia.
Qed.

Lemma reduce_dims_mul_axis (lead : list nat) (m d k : nat) :
  reduce_dims [k + length lead] true k (lead ++ [m; d]) = lead ++ [1; d].
Proof.
  revert k. induction lead as [|n lead IH]; intros k; cbn [app length reduce_dims existsb].
  - rewrite Nat.add_0_r, Nat.eqb_refl.
    replace (S k =? k) with false by (symmetry; apply Nat.eqb_neq; lia). reflexivity.
  - replace (k =? k + S (length lead)) with false by (symmetry; apply Nat.eqb_neq; lia).
    cbn [orb app]. f_equal.
    replace (k + S (length lead)) with (S k + length lead) by lia. apply IH.
Qed.

(** [axis=-2, keepdims=True] on a block collapses its multiplicity axis. *)
Lemma reduce_shape_mul_axis (lead : list nat) (m d : nat) :
  axes_in_range (length (lead ++ [m; d])) [(-2)%Z] = true
  /\ reduce_shape (lead ++ [m; d]) [(-2)%Z] true = lead ++ [1; d].
Proof.
  rewrite length_app. cbn [length]. split.
  - unfold axes_in_range. cbn [forallb]. rewrite andb_true_r.
    apply andb_true_iff. split; [apply Z.leb_le | apply Z.ltb_lt]; lia.
  - unfold reduce_shape. rewrite length_app. cbn [length map].
    replace (norm_axis (length lead + 2) (-2)) with (0 + length lead);
      [apply reduce_dims_mul_axis|].
    unfold norm_axis. symmetry.
    rewrite <- (Z.mod_unique (-2) (Z.of_nat (length lead + 2)) (-1) (Z.of_nat (length lead)));
      [apply Nat2Z.id | left; lia | lia].
Qed.

Lemma reduce_is_reduction {A : Type} (f : list A -> A) : reduction (reduce f).
Proof.
  intros x axes keepdims Hr. unfold reduce. unfold ndim in Hr. rewrite Hr.
  eexists. split; reflexivity.
Qed.

(** ** [_reduce] over the irrep axis *)

Section ReduceFacts.
Context {T : Type} `{Scalar T}.
Variable op : ndarray T -> list Z -> bool -> result (ndarray T).
Hypothesis op_reduction : reduction op.

Lemma reduce_blocks_ok (axes : list Z) (kd : bool) (g : Irreps.MulIr -> Irreps.MulIr)
  (lead lead' : list nat) (l : list (option (ndarray T))) (irs : Irreps.t) :
  Forall2 (block_fits lead) l irs ->
  (forall mi : Irreps.MulIr,
     axes_in_range (length (lead ++ [fst mi; Irreps.ir_dim (snd mi)])) axes = true
     /\ reduce_shape (lead ++ [fst mi; Irreps.ir_dim (snd mi)]) axes kd
        = lead' ++ [fst (g mi); Irreps.ir_dim (snd (g mi))]) ->
  exists l', reduce_blocks op axes kd l = Ok l'
             /\ Forall2 (block_fits lead') l' (map g irs).
Proof.
  intros Hfit Hshape. unfold reduce_blocks.
  induction Hfit as [|x mi l irs Hx _ (l' & El & Hl')]; [exists []; split; [reflexivity | constructor]|].
  cbn [mapM map]. destruct x as [b|].
  - simpl in Hx. destruct (Hshape mi) as [Hr Hs].
    destruct (op_reduction b axes kd) as (r & Er & Hsr).
    { unfold ndim. now rewrite Hx. }
    rewrite Er. cbn [bind]. rewrite El. cbn [bind].
    eexists. split; [reflexivity|]. constructor; [|exact Hl'].
    simpl. now rewrite Hsr, Hx.
  - cbn [bind]. rewrite El. cbn [bind].
    eexists. split; [reflexivity|]. constructor; [exact I | exact Hl'].
Qed.

Lemma reduce_upto_unfold (depth : nat) (t : IrrepsArray T) (axis : axis_arg) (kd : bool) :
  _reduce_upto (S depth) op t axis kd
  = (axis <- _standardize_axis axis (ndim (array_of t)) ;;
     match axis with
     | [] => Ok t
     | _ =>
         if last axis 0 <? ndim (array_of t) - 1 then
           r <- op (array_of t) (map Z.of_nat axis) kd ;;
           l <- list_ t ;;
           lst <- reduce_blocks op (map Z.of_nat axis) kd l ;;
           __init__ (irreps t) r (Some lst) true
         else
           reduced <- _reduce_upto depth op t (AxisTuple (map Z.of_nat (removelast axis))) kd ;;
           l <- list_ reduced ;;
           lst <- reduce_blocks op [(-2)%Z] true l ;;
           from_list (map (fun mi : Irreps.MulIr => (1, snd mi)) (irreps reduced)) lst
             (removelast (shape_of reduced))
     end).
Proof. reflexivity. Qed.

(** The recursive call of [_reduce]: the axes before the irrep axis. *)
Lemma reduce_leading (depth : nat) (t : IrrepsArray T) (ax : list nat) (kd : bool) :
  checked t ->
  StronglySorted lt ax ->
  Forall (fun i => i < ndim (array_of t) - 1) ax ->
  exists reduced,
    _reduce_upto (S depth) op t (AxisTuple (map Z.of_nat ax)) kd = Ok reduced
    /\ checked reduced
    /\ irreps reduced = irreps t
    /\ (ax = [] -> reduced = t)
    /\ (ax <> [] ->
        exists b l lst,
          op (array_of t) (map Z.of_nat ax) kd = Ok b
          /\ list_ t = Ok l
          /\ reduce_blocks op (map Z.of_nat ax) kd l = Ok lst
          /\ reduced = mkIrrepsArray (irreps t) b (Some lst)).
Proof.
  intros Hck Hs Hax. rewrite reduce_upto_unfold.
  assert (Hax' : Forall (fun i => i < ndim (array_of t)) ax)
    by (eapply Forall_impl; [|exact Hax]; intros; simpl in *; lia).
  rewrite (standardize_axis_id Hs Hax'). cbn [bind].
  destruct ax as [|a0 ax0] eqn:Eax.
  - exists t. repeat split; auto. congruence.
  - rewrite <- Eax in *.
    assert (Hne : ax <> []) by (subst ax; discriminate).
    destruct (sorted_removelast Hs Hne) as (_ & _ & Hlast).
    rewrite Forall_forall in Hax. pose proof (Hax _ Hlast) as Hlt.
    rewrite (proj2 (Nat.ltb_lt _ _) Hlt).
    destruct (checked_list_fits Hck) as (Hshape & l & El & Hfit).
    set (lead := removelast (shape (array t))) in *.
    assert (Hlen : ndim (array_of t) - 1 = length lead).
    { unfold ndim, array_of. rewrite Hshape, length_app. simpl. lia. }
    assert (Hax1 : Forall (fun i => i < length lead) ax)
      by (apply Forall_forall; intros i Hi; rewrite <- Hlen; now apply Hax).
    destruct (op_reduction (array_of t) (map Z.of_nat ax) kd) as (b & Eb & Hsb).
    { apply axes_in_range_of_nat. apply Forall_forall. intros i Hi.
      specialize (Hax i Hi). lia. }
    unfold array_of in Hsb at 1. rewrite Hshape, (@reduce_shape_leading ax kd lead [_] Hax1) in Hsb.
    rewrite Eb. cbn [bind]. rewrite El. cbn [bind].
    destruct (@reduce_blocks_ok (map Z.of_nat ax) kd (fun mi => mi) lead
                (reduce_dims ax kd 0 lead) l (irreps t) Hfit) as (lst & Elst & Hlst).
    { intros mi. split.
      - apply axes_in_range_of_nat. eapply Forall_impl; [|exact Hax1].
        intros i Hi. simpl in Hi. rewrite length_app. lia.
      - apply (@reduce_shape_leading ax kd lead [fst mi; Irreps.ir_dim (snd mi)] Hax1). }
    rewrite map_id in Hlst. rewrite Elst. cbn [bind].
    assert (Einit : __init__ (irreps t) b (Some lst) true
                    = Ok (mkIrrepsArray (irreps t) b (Some lst))).
    { unfold __init__. rewrite Hsb, last_dim_app. cbn [bind]. rewrite Nat.eqb_refl.
      rewrite (Forall2_length Hlst), Nat.eqb_refl, removelast_snoc. cbn [negb].
      now rewrite (forallb_fits Hlst). }
    rewrite Einit. eexists. split; [reflexivity|].
    split; [exact Einit|]. split; [reflexivity|]. split; [intros; congruence|].
    intros _. exists b, l, lst. auto.
Qed.

(** What the comprehension over the blocks returns, block by block. *)
Lemma reduce_blocks_spec (axes : list Z) (kd : bool) (l lst : list (option (ndarray T))) :
  reduce_blocks op axes kd l = Ok lst -> Forall2 (block_reduced op axes kd) l lst.
Proof.
  unfold reduce_blocks. intros E. apply mapM_inv in E.
  induction E as [|x y l lst Hxy _ IH]; constructor; [|exact IH].
  destruct x as [b|]; cbn [block_reduced].
  - apply bind_ok in Hxy as (r & Er & Hy). injection Hy as <-. exists r. auto.
  - now injection Hxy as <-.
Qed.

(** The generic statement behind C7, for any reduction of the runtime. *)
Lemma reduce_final_axis (t : IrrepsArray T) (axis : axis_arg) (kd : bool)
  (ax : list nat) :
  checked t ->
  _standardize_axis axis (ndim (array_of t)) = Ok ax ->
  In (ndim (array_of t) - 1) ax ->
  reduces_final_axis op t kd ax (_reduce op t axis kd).
Proof.
  intros Hck Estd Hin. unfold reduces_final_axis. cbv zeta.
  destruct (standardize_axis_spec _ _ Estd) as [Hs Hax].
  assert (Hne : ax <> []) by (intros ->; destruct Hin).
  destruct (sorted_removelast Hs Hne) as (Hs' & Hlt & Hlast).
  assert (Elast : last ax 0 = ndim (array_of t) - 1).
  { pose proof (@sorted_last_max ax _ Hs Hin). rewrite Forall_forall in Hax.
    specialize (Hax _ Hlast). lia. }
  rewrite Elast in Hlt.
  destruct (@reduce_leading 1 t (removelast ax) kd Hck Hs' Hlt)
    as (reduced & Ered & Hckr & Hirr & Hnil & Hcons).
  destruct (checked_list_fits Hckr) as (Hshape & l & El & Hfit).
  set (lead := removelast (shape (array reduced))) in *.
  destruct (@reduce_blocks_ok [(-2)%Z] true (fun mi => (1, snd mi)) lead lead l
              (irreps reduced) Hfit) as (lst & Elst & Hlst).
  { intros mi. apply reduce_shape_mul_axis. }
  destruct (from_list_ok Hlst) as (arr & Efl & Hsarr & _).
  rewrite Hirr in Efl, Hsarr, Hlst.
  exists reduced, l, lst, arr.
  split; [exact Ered|]. split; [exact Hnil|]. split.
  { intros Hrl. destruct (Hcons Hrl) as (b & l0 & lst0 & Eb & El0 & Elst0 & Er).
    exists b, l0, lst0. repeat split; auto. now apply reduce_blocks_spec. }
  split; [exact El|]. split; [now apply reduce_blocks_spec|].
  split; [exact Efl|]. split; [|split; [exact Hsarr | exact Hlst]].
  unfold _reduce. rewrite reduce_upto_unfold, Estd. cbn [bind].
  destruct ax as [|a0 ax0] eqn:Eax; [congruence|]. rewrite <- Eax in *.
  rewrite Elast, Nat.ltb_irrefl.
  destruct (@reduce_leading 0 t (removelast ax) kd Hck Hs' Hlt)
    as (reduced' & Ered' & _ & _ & Hnil' & Hcons').
  rewrite Ered'.
  assert (reduced' = reduced) as ->.
  { destruct (removelast ax) as [|c cs] eqn:Erl.
    - rewrite Hnil', Hnil; auto.
    - destruct Hcons as (b & l0 & lst0 & Eb & El0 & Elst0 & ->); [discriminate|].
      destruct Hcons' as (b' & l0' & lst0' & Eb' & El0' & Elst0' & ->); [discriminate|].
      congruence. }
  cbn [bind]. rewrite El. cbn [bind]. rewrite Elst. cbn [bind]. rewrite Hirr. exact Efl.
Qed.

End ReduceFacts.

(** C7.  For a tensor that passes the constructor's checks and an axis
    argument whose standardized axes [ax] include the final (irrep) axis,
    [mean] and [sum_] return: they first reduce the other requested axes,
    then reduce each block along its multiplicity axis, every result block
    being the runtime reduction of the block of the first step over
    [axis=-2] with that axis kept ([None] where that block is [None]), and
    the spec of the result has every multiplicity equal to 1 with the irrep
    tags unchanged and in the same order. *)
Theorem mean_sum_final_axis (T : Type) (S : Scalar T) (t : IrrepsArray T)
  (axis : axis_arg) (keepdims : bool) (ax : list nat) :
  checked t ->
  _standardize_axis axis (ndim (array_of t)) = Ok ax ->
  In (ndim (array_of t) - 1) ax ->
  reduces_final_axis jnp.mean t keepdims ax (mean t axis keepdims)
  /\ reduces_final_axis jnp.sum t keepdims ax (sum_ t axis keepdims).
Proof.
  intros Hck Estd Hin. split.
  - apply (reduce_final_axis (reduce_is_reduction _) axis keepdims Hck Estd Hin).
  - apply (reduce_final_axis (reduce_is_reduction _) axis keepdims Hck Estd Hin).
Qed.

(** C7 at a tensor of shape [(2, 5)] over [2x0e + 1x1e] reduced over all axes. *)
Lemma mean_sum_final_axis_witness :
  let t := mkIrrepsArray [(2, Irreps.ir0e); (1, Irreps.ir1e)]
             (mk [2; 5] [1; 2; 3; 4; 5; 6; 7; 8; 9; 10]%Z) None in
  reduces_final_axis jnp.mean t false [0; 1] (mean t AxisNone false)
  /\ reduces_final_axis jnp.sum t false [0; 1] (sum_ t AxisNone false).
Proof.
  intros t. apply (@mean_sum_final_axis Z _ t AxisNone false [0; 1]).
  - reflexivity.
  - reflexivity.
  - simpl. auto.
Defined.

Example sum_final_axis_ex :
  sum_ (mkIrrepsArray [(2, Irreps.ir0e); (1, Irreps.ir1e)]
          (mk [2; 5] [1; 2; 3; 4; 5; 6; 7; 8; 9; 10]%Z) None) AxisNone false
  = Ok (mkIrrepsArray [(1, Irreps.ir0e); (1, Irreps.ir1e)] (mk [4] [16; 11; 13; 15]%Z)
          (Some [Some (mk [1; 1] [16]%Z); Some (mk [1; 3] [11; 13; 15]%Z)])).
Proof. reflexivity. Qed.

(** ** Elementwise operators on arrays of one shape *)

Lemma map_flat_map {X Y Z : Type} (f : Y -> Z) (g : X -> list Y) (l : list X) :
  map f (flat_map g l) = flat_map (fun x => map f (g x)) l.
Proof.
  induction l as [|x l IH]; simpl; [reflexivity|]. now rewrite map_app, IH.
Qed.

Lemma flat_map_ext_in {X Y : Type} (f g : X -> list Y) (l : list X) :
  (forall x, In x l -> f x = g x) -> flat_map f l = flat_map g l.
Proof.
  induction l as [|x l IH]; intros Hfg; simpl; [reflexivity|].
  rewrite (Hfg x (or_introl eq_refl)), IH; [reflexivity|].
  intros y Hy. apply Hfg. now right.
Qed.

Lemma flat_map_seq_blocks (w n : nat) :
  flat_map (fun i => seq (i * w) w) (seq 0 n) = seq 0 (n * w).
Proof.
  induction n as [|n IH]; [reflexivity|].
  rewrite seq_S, flat_map_app, IH. simpl flat_map. rewrite app_nil_r.
  replace (S n * w) with (n * w + w) by lia. now rewrite seq_app.
Qed.

Lemma map_add_seq (c s n : nat) : map (fun k => c + k) (seq s n) = seq (c + s) n.
Proof.
  revert s. induction n as [|n IH]; intros s; simpl; [reflexivity|].
  f_equal. rewrite IH. f_equal. lia.
Qed.

Lemma indices_length (s idx : list nat) : In idx (indices s) -> length idx = length s.
Proof.
  revert idx. induction s as [|n s IH]; simpl; intros idx Hin.
  - destruct Hin as [<- | []]. reflexivity.
  - apply in_flat_map in Hin as (i & _ & Hin). apply in_map_iff in Hin as (idx' & <- & Hin).
    simpl. f_equal. now apply IH.
Qed.

(** The multi-indices of a shape enumerate its row-major buffer in order. *)
Lemma offsets_of_indices (s : list nat) : map (offset s) (indices s) = seq 0 (size s).
Proof.
  induction s as [|n s IH]; [reflexivity|].
  cbn [indices]. rewrite map_flat_map.
  rewrite (flat_map_ext_in _ (fun i => seq (i * size s) (size s))).
  - apply flat_map_seq_blocks.
  - intros i Hi. apply in_seq in Hi. rewrite map_map. cbn [offset].
    assert (Hi' : (if n =? 1 then 0 else i) = i).
    { destruct (n =? 1) eqn:Hn; [apply Nat.eqb_eq in Hn; lia | reflexivity]. }
    rewrite Hi'. rewrite <- (map_map (offset s) (fun k => i * size s + k)), IH.
    rewrite map_add_seq. now rewrite Nat.add_0_r.
Qed.

Lemma broadcast_rev_same (s : list nat) : broadcast_rev s s = Ok s.
Proof.
  induction s as [|a s IH]; simpl; [reflexivity|]. rewrite IH. simpl.
  now rewrite Nat.eqb_refl.
Qed.

Lemma broadcast_shapes_same (s : list nat) : broadcast_shapes s s = Ok s.
Proof.
  unfold broadcast_shapes. rewrite broadcast_rev_same. simpl. now rewrite rev_involutive.
Qed.

Lemma zip_by_position {X Y Z : Type} (f : X -> Y -> Z) (l1 pre1 : list X) (l2 pre2 : list Y) :
  length pre1 = length pre2 -> length l1 = length l2 ->
  flat_map (fun k => match nth_error (pre1 ++ l1) k, nth_error (pre2 ++ l2) k with
                     | Some x, Some y => [f x y]
                     | _, _ => []
                     end) (seq (length pre1) (length l1))
  = map (fun xy => f (fst xy) (snd xy)) (combine l1 l2).
Proof.
  revert pre1 pre2 l2. induction l1 as [|x l1 IH]; intros pre1 pre2 [|y l2] Hp Hl;
    try discriminate; [reflexivity|].
  cbn [length seq flat_map combine map fst snd].
  assert (E1 : nth_error (pre1 ++ x :: l1) (length pre1) = Some x)
    by (rewrite nth_error_app2, Nat.sub_diag by lia; reflexivity).
  assert (E2 : nth_error (pre2 ++ y :: l2) (length pre1) = Some y)
    by (rewrite Hp, nth_error_app2, Nat.sub_diag by lia; reflexivity).
  rewrite E1, E2. cbn [app]. f_equal.
  specialize (IH (pre1 ++ [x]) (pre2 ++ [y]) l2).
  rewrite <- !app_assoc, !length_app in IH. cbn [length app] in IH.
  rewrite Nat.add_1_r in IH. apply IH; [lia | simpl in Hl; lia].
Qed.

(** On two well-formed arrays of one shape an elementwise operator pairs
    the elements position by position. *)
Lemma map2_same_shape {X Y Z : Type} (f : X -> Y -> Z) (a : ndarray X) (b : ndarray Y) :
  shape b = shape a -> jnp.wf a -> jnp.wf b ->
  map2 f a b = Ok (mk (shape a) (map (fun xy => f (fst xy) (snd xy))
                                     (combine (data a) (data b)))).
Proof.
  intros Hs Ha Hb. unfold map2. rewrite Hs, broadcast_shapes_same. cbn [bind].
  do 2 f_equal.
  rewrite (flat_map_ext_in _
             (fun idx => match nth_error (data a) (offset (shape a) idx),
                               nth_error (data b) (offset (shape a) idx) with
                         | Some x, Some y => [f x y]
                         | _, _ => []
                         end)).
  - rewrite (flat_map_concat_map _ (indices (shape a))).
    rewrite <- (map_map (offset (shape a))
                  (fun k => match nth_error (data a) k, nth_error (data b) k with
                            | Some x, Some y => [f x y]
                            | _, _ => []
                            end)).
    rewrite offsets_of_indices, <- flat_map_concat_map.
    unfold jnp.wf in Ha, Hb. rewrite Hs in Hb. rewrite <- Ha.
    apply (zip_by_position f (data a) [] (data b) []); [reflexivity | lia].
  - intros idx Hidx. unfold bget. rewrite Hs, (indices_length _ _ Hidx), Nat.sub_diag.
    reflexivity.
Qed.

(** ** Addition of the zero tensor *)

Section AddFacts.
Context {T : Type} `{Scalar T}.

Lemma zeros_ok (irs : Irreps.t) (lead : list nat) :
  zeros irs lead
  = Ok (mkIrrepsArray irs (jnp.zeros (lead ++ [Irreps.dim irs]))
          (Some (repeat None (length irs)))).
Proof.
  unfold zeros, __init__. cbn [jnp.zeros full shape]. rewrite last_dim_app. cbn [bind].
  rewrite Nat.eqb_refl, repeat_length, Nat.eqb_refl. cbn [negb].
  assert (Hnone : forall ld (irs' : Irreps.t),
            forallb (fun xm : option (ndarray T) * Irreps.MulIr =>
                       block_shape_ok ld (fst xm) (snd xm))
              (combine (repeat None (length irs')) irs') = true).
  { intros ld irs'. induction irs' as [|mi irs' IH]; simpl; [reflexivity | exact IH]. }
  now rewrite Hnone.
Qed.

Lemma add_none_blocks (l : list (option (ndarray T))) :
  mapM add_blocks (combine l (repeat None (length l))) = Ok l.
Proof.
  induction l as [|x l IH]; simpl; [reflexivity|]. rewrite IH. now destruct x.
Qed.

Lemma add_zero_data (d : list T) :
  (forall x, add x zero = x) ->
  map (fun xy => add (fst xy) (snd xy)) (combine d (repeat zero (length d))) = d.
Proof.
  intros Hadd. induction d as [|x d IH]; simpl; [reflexivity|]. now rewrite Hadd, IH.
Qed.

(** C6.  For a tensor [t] that passes the constructor's checks, scalar or
    not, over elements for which adding zero changes nothing,
    [t + zeros(t.irreps, t.shape[:-1])] returns a tensor with the buffer of
    [t] (and its spec and block list): the tensor [zeros] builds, an
    all-zero buffer with an all-[None] block list, is a right identity of
    elementwise addition. *)
Theorem add_zeros_identity (t : IrrepsArray T) :
  checked t ->
  jnp.wf (array t) ->
  (forall x : T, add x zero = x) ->
  exists l,
    zeros (irreps t) (removelast (shape_of t))
    = Ok (mkIrrepsArray (irreps t) (jnp.zeros (shape_of t))
            (Some (repeat None (length (irreps t)))))
    /\ list_ t = Ok l
    /\ (z <- zeros (irreps t) (removelast (shape_of t)) ;; __add__ t (Tensor z))
       = Ok (mkIrrepsArray (irreps t) (array t) (Some l)).
Proof.
  intros Hck Hwf Hadd.
  destruct (checked_list_fits Hck) as (Hshape & l & El & Hfit).
  exists l. unfold shape_of.
  assert (Ez : zeros (irreps t) (removelast (shape (array t)))
               = Ok (mkIrrepsArray (irreps t) (jnp.zeros (shape (array t)))
                       (Some (repeat None (length (irreps t)))))).
  { rewrite zeros_ok. now rewrite <- Hshape. }
  split; [exact Ez|]. split; [exact El|].
  rewrite Ez. cbn [bind]. unfold __add__. cbn [irreps array].
  rewrite (proj2 (irreps_eqb_eq _ _) eq_refl). cbn [negb]. rewrite El. cbn [bind].
  unfold list_ at 1, list_cached. cbn [_list bind].
  rewrite <- (Forall2_length Hfit), add_none_blocks. cbn [bind].
  rewrite map2_same_shape; [|reflexivity | exact Hwf |].
  - cbn [bind jnp.zeros full data]. unfold jnp.wf in Hwf. rewrite <- Hwf.
    rewrite (add_zero_data _ Hadd).
    assert (Earr : mk (shape (array t)) (data (array t)) = array t)
      by (destruct (array t); reflexivity).
    rewrite Earr. unfold __init__. rewrite Hshape at 1. rewrite last_dim_app. cbn [bind].
    rewrite Nat.eqb_refl, (Forall2_length Hfit), Nat.eqb_refl. cbn [negb].
    now rewrite (forallb_fits Hfit).
  - unfold jnp.wf, jnp.zeros, full. cbn [data shape]. apply repeat_length.
Qed.

End AddFacts.

(** C6 at a tensor over [0e + 1e] with integer elements. *)
Lemma add_zeros_identity_witness :
  let t := mkIrrepsArray [(1, Irreps.ir0e); (1, Irreps.ir1e)] (mk [4] [0; 2; 3; 4]%Z)
             (Some [None; Some (mk [1; 3] [2; 3; 4]%Z)]) in
  (z <- zeros (irreps t) (removelast (shape_of t)) ;; __add__ t (Tensor z))
  = Ok (mkIrrepsArray (irreps t) (array t) (Some [None; Some (mk [1; 3] [2; 3; 4]%Z)])).
Proof.
  intros t.
  destruct (@add_zeros_identity Z _ t) as (l & _ & El & E).
  - reflexivity.
  - reflexivity.
  - intros x. apply Z.add_0_r.
  - injection El as <-. exact E.
Defined.

(** ** [convert] *)

Lemma list_cached_spec {A : Type} (t t' : IrrepsArray A) (l : list (option (ndarray A))) :
  list_cached t = Ok (t', l) ->
  irreps t' = irreps t /\ array t' = array t /\ list_ t = Ok l.
Proof.
  unfold list_, list_cached. destruct (_list t) as [l0|].
  - intros [= <- <-]. auto.
  - intros E. apply bind_ok in E as (l0 & -> & E). injection E as <- <-. auto.
Qed.

Lemma list_cached_of_list {A : Type} (t : IrrepsArray A) (l : list (option (ndarray A))) :
  list_ t = Ok l -> exists t', list_cached t = Ok (t', l).
Proof.
  unfold list_. intros E. apply bind_ok in E as ([t' l'] & E & [= <-]). eauto.
Qed.

Section ConvertFacts.
Context {T : Type} `{Scalar T}.

(** The target spec and the leading shape of the tensor being converted. *)
Variable target : Irreps.t.
Variable lead : list nat.

Lemma pending_zero (rest : Irreps.t) : pending rest 0 = Irreps.channels rest.
Proof. destruct rest as [|[tmul tir] rest]; [reflexivity|]. simpl. now rewrite Nat.sub_0_r. Qed.

Lemma converting_slot (new_list : list (option (ndarray T))) (done rest : Irreps.t) :
  target = done ++ rest -> Forall2 (block_fits lead) new_list done ->
  nth_error target (length new_list) = nth_error rest 0
  /\ skipn (length new_list) target = rest.
Proof.
  intros -> Hfit. rewrite (Forall2_length Hfit). split.
  - rewrite nth_error_app2, Nat.sub_diag by lia. reflexivity.
  - rewrite skipn_app, Nat.sub_diag, skipn_all. reflexivity.
Qed.

(** Skipping the slots of multiplicity zero keeps the state and the pending
    channels, and stops at a slot that asks for something. *)
Lemma skip_zero_ok (new_list : list (option (ndarray T))) (done rest : Irreps.t) :
  target = done ++ rest -> Forall2 (block_fits lead) new_list done ->
  exists rest',
    converting target lead (skip_zero_slots target new_list) (Count 0) rest' 0
    /\ Irreps.channels rest' = Irreps.channels rest.
Proof.
  intros Ht Hfit. unfold skip_zero_slots.
  rewrite (proj2 (@converting_slot new_list done rest Ht Hfit)).
  revert new_list done Ht Hfit. induction rest as [|[tmul tir] rest IH]; intros nl done Ht Hfit.
  - exists []. split; [|reflexivity]. exists done. simpl. auto.
  - destruct tmul as [|n].
    + cbn [skip_zero_mul].
      destruct (IH (nl ++ [None]) (done ++ [(0, tir)])) as (rest' & Hc & Hch).
      * now rewrite <- app_assoc.
      * apply Forall2_app; [exact Hfit | repeat constructor].
      * exists rest'. split; [exact Hc | exact Hch].
    + exists ((S n, tir) :: rest). split; [|reflexivity].
      exists done. cbn [skip_zero_mul]. repeat split; auto. lia.
Qed.

Lemma current_mul_holds (cur : accumulator (T := T)) (c d : nat) :
  holds lead cur c d -> current_mul_of cur = Ok c.
Proof.
  destruct cur as [n|a]; simpl; [now intros -> |].
  intros Hs. unfold shape_at. rewrite Hs.
  destruct (mul_axis lead c d) as (-> & _ & -> & _). reflexivity.
Qed.

Lemma concatenate_mul_ok (a b : ndarray T) (m1 m2 d : nat) :
  shape a = lead ++ [m1; d] -> shape b = lead ++ [m2; d] ->
  exists r, concatenate [a; b] 2 = Ok r /\ shape r = lead ++ [m1 + m2; d].
Proof.
  intros Ha Hb.
  assert (Hp : Forall2 (fun p w => shape p = lead ++ w :: [d]) [a; b] [m1; m2])
    by (repeat constructor; assumption).
  pose proof (@concatenate_ok _ [a; b] lead [d] [m1; m2] Hp ltac:(discriminate)) as E.
  cbn [length] in E. rewrite E. eexists. split; [reflexivity|].
  cbn [shape list_sum fold_right]. now rewrite Nat.add_0_r.
Qed.

Lemma accumulate_ok (ir : Irreps.Irrep) (cur : accumulator (T := T)) (x : option (ndarray T))
  (c m : nat) :
  holds lead cur c (Irreps.ir_dim ir) -> contributes lead x m (Irreps.ir_dim ir) ->
  exists cur', accumulate lead ir cur x m = Ok cur' /\ holds lead cur' (c + m) (Irreps.ir_dim ir).
Proof.
  intros Hc Hx. unfold accumulate.
  destruct x as [b|]; destruct cur as [n|a]; simpl in Hc, Hx.
  - subst n. destruct (c =? 0) eqn:Hc0.
    + apply Nat.eqb_eq in Hc0; subst c. eexists; split; [reflexivity | exact Hx].
    + destruct (@concatenate_mul_ok (jnp.zeros (lead ++ [c; Irreps.ir_dim ir])) b
                  c m (Irreps.ir_dim ir) eq_refl Hx) as (r & -> & Hr).
      eexists; split; [reflexivity | exact Hr].
  - destruct (@concatenate_mul_ok a b c m (Irreps.ir_dim ir) Hc Hx) as (r & -> & Hr).
    eexists; split; [reflexivity | exact Hr].
  - subst n. eexists; split; reflexivity.
  - destruct (@concatenate_mul_ok a (jnp.zeros (lead ++ [m; Irreps.ir_dim ir]))
                c m (Irreps.ir_dim ir) Hc eq_refl) as (r & -> & Hr).
    eexists; split; [reflexivity | exact Hr].
Qed.

Lemma seal_ok (tmul d : nat) (new_list : list (option (ndarray T))) (cur : accumulator (T := T))
  (c : nat) :
  holds lead cur c d ->
  (c <> tmul -> seal tmul new_list cur = Ok (new_list, cur))
  /\ (c = tmul ->
      exists blk, seal tmul new_list cur = Ok (new_list ++ [blk], Count 0)
                  /\ contributes lead blk tmul d).
Proof.
  intros Hc. unfold seal. destruct cur as [n|a]; simpl in Hc.
  - subst n. split.
    + intros Hne. now rewrite (proj2 (Nat.eqb_neq _ _) Hne).
    + intros ->. rewrite Nat.eqb_refl. exists None. split; [reflexivity | exact I].
  - unfold shape_at. rewrite Hc. destruct (mul_axis lead c d) as (-> & _ & -> & _).
    cbn [bind]. split.
    + intros Hne. now rewrite (proj2 (Nat.eqb_neq _ _) Hne).
    + intros ->. rewrite Nat.eqb_refl. exists (Some a). split; [reflexivity | exact Hc].
Qed.

Lemma split_block_ok (y : ndarray T) (mul needed d : nat) :
  shape y = lead ++ [mul; d] -> needed <= mul ->
  exists x y', split_block y needed = Ok (x, y')
               /\ shape x = lead ++ [needed; d]
               /\ shape y' = lead ++ [mul - needed; d].
Proof.
  intros Hy Hle. unfold split_block, jnp.split. rewrite Hy.
  destruct (mul_axis lead mul d) as (-> & _ & -> & _).
  cbn [app split_from]. rewrite Hy. destruct (mul_axis lead mul d) as (_ & _ & -> & _).
  rewrite (proj2 (Nat.leb_le _ _) Hle), Nat.leb_refl. cbn [Nat.leb andb bind].
  rewrite Nat.sub_0_r. eexists _, _. split; [reflexivity|].
  split; apply (@take_axis_shape _ y lead mul [d]); exact Hy.
Qed.

Lemma convert_block_zero (fuel : nat) (mul_ir : Irreps.MulIr) (y : option (ndarray T))
  (new_list : list (option (ndarray T))) (cur : accumulator (T := T)) :
  convert_block fuel target lead mul_ir 0 y new_list cur = Ok (new_list, cur).
Proof. destruct fuel; reflexivity. Qed.

Lemma skip_nothing (new_list : list (option (ndarray T))) (done rest : Irreps.t)
  (tmul : nat) (tir : Irreps.Irrep) :
  target = done ++ (tmul, tir) :: rest -> Forall2 (block_fits lead) new_list done ->
  0 < tmul -> skip_zero_slots target new_list = new_list.
Proof.
  intros Ht Hfit Hpos. unfold skip_zero_slots.
  rewrite (proj2 (@converting_slot new_list done _ Ht Hfit)).
  destruct tmul; [lia | reflexivity].
Qed.

Lemma repeat_cancel (ir : Irreps.Irrep) (a b : nat) (R X : list Irreps.Irrep) :
  repeat ir (a + b) ++ R = repeat ir a ++ X -> repeat ir b ++ R = X.
Proof.
  rewrite repeat_app, <- app_assoc. apply app_inv_head.
Qed.

(** The loop over one source block: it returns, keeps the state of the
    conversion and consumes the channels of the block. *)
Lemma convert_block_ok (mul_ir : Irreps.MulIr) (fuel : nat) :
  forall (mul : nat) (y : option (ndarray T)) (new_list : list (option (ndarray T)))
         (cur : accumulator (T := T)) (rest : Irreps.t) (c : nat) (R : list Irreps.Irrep),
    mul <= fuel ->
    converting target lead new_list cur rest c ->
    contributes lead y mul (Irreps.ir_dim (snd mul_ir)) ->
    repeat (snd mul_ir) mul ++ R = pending rest c ->
    exists new_list' cur' rest' c',
      convert_block fuel target lead mul_ir mul y new_list cur = Ok (new_list', cur')
      /\ converting target lead new_list' cur' rest' c'
      /\ R = pending rest' c'.
Proof.
  destruct mul_ir as [mul0 ir]. cbn [snd].
  induction fuel as [|fuel IH]; intros mul y nl cur rest c R Hfuel Hconv Hy Hch.
  - assert (mul = 0) as -> by lia. rewrite convert_block_zero.
    exists nl, cur, rest, c. auto.
  - destruct mul as [|mul']; [rewrite convert_block_zero; exists nl, cur, rest, c; auto|].
    set (mul := S mul') in *. cbn [convert_block]. subst mul. cbn [Nat.eqb]. set (mul := S mul') in *.
    destruct Hconv as (done & Ht & Hfit & Hrest).
    destruct rest as [|[tmul tir] rest']; [discriminate Hch|].
    destruct Hrest as [Hlt Hhold]. cbn [pending] in Hch.
    assert (tir = ir) as ->.
    { destruct (tmul - c) as [|k] eqn:Hk; [lia|]. subst mul. simpl in Hch. congruence. }
    rewrite (@current_mul_holds cur c _ Hhold). cbn [bind].
    rewrite (proj1 (@converting_slot nl done _ Ht Hfit)). cbn [nth_error bind fst snd].
    assert (Hfit1 : forall blk, contributes lead blk tmul (Irreps.ir_dim ir) ->
              Forall2 (block_fits lead) (nl ++ [blk]) (done ++ [(tmul, ir)])).
    { intros blk Hblk. apply Forall2_app; [exact Hfit|]. constructor; [|constructor].
      destruct blk; exact Hblk. }
    assert (Ht1 : target = (done ++ [(tmul, ir)]) ++ rest') by now rewrite <- app_assoc.
    destruct (mul + c <=? tmul) eqn:Hle.
    + apply Nat.leb_le in Hle. cbn [bind].
      destruct (@accumulate_ok ir cur y c mul Hhold Hy) as (cur1 & -> & Hhold1). cbn [bind].
      destruct (@seal_ok tmul _ nl cur1 _ Hhold1) as [Hopen Hseal].
      destruct (Nat.eq_dec (c + mul) tmul) as [Heq | Hneq].
      * destruct (Hseal Heq) as (blk & -> & Hblk). cbn [bind].
        rewrite convert_block_zero.
        destruct (@skip_zero_ok (nl ++ [blk]) _ rest' Ht1 (Hfit1 blk Hblk))
          as (rest'' & Hconv' & Hch').
        exists (skip_zero_slots target (nl ++ [blk])), (Count 0), rest'', 0.
        split; [reflexivity|]. split; [exact Hconv'|].
        rewrite pending_zero, Hch'.
        replace (tmul - c) with mul in Hch by lia.
        now apply app_inv_head in Hch.
      * rewrite (Hopen Hneq). cbn [bind]. rewrite convert_block_zero.
        rewrite (@skip_nothing nl done rest' tmul ir Ht Hfit ltac:(lia)).
        exists nl, cur1, ((tmul, ir) :: rest'), (c + mul).
        split; [reflexivity|]. split.
        -- exists done. repeat split; auto. lia.
        -- cbn [pending].
           replace (tmul - c) with (mul + (tmul - (c + mul))) in Hch by lia.
           rewrite repeat_app, <- app_assoc in Hch. now apply app_inv_head in Hch.
    + apply Nat.leb_gt in Hle.
      rewrite (proj2 (Nat.leb_gt _ _) Hlt).
      set (needed := tmul - c) in *.
      assert (Hsplit : exists x y',
                (match y with
                 | Some y0 =>
                     ' (x, y') <- split_block y0 needed ;;
                     Ok (Some x, Some y', needed, mul - needed)
                 | None => Ok (None, None, needed, mul - needed)
                 end) = Ok (x, y', needed, mul - needed)
                /\ contributes lead x needed (Irreps.ir_dim ir)
                /\ contributes lead y' (mul - needed) (Irreps.ir_dim ir)).
      { destruct y as [y0|].
        - simpl in Hy.
          destruct (@split_block_ok y0 mul needed _ Hy ltac:(lia)) as (x & y' & -> & Hx & Hy').
          exists (Some x), (Some y'). repeat split; assumption.
        - exists None, None. repeat split. }
      destruct Hsplit as (x & y' & -> & Hx & Hy'). cbn [bind].
      destruct (@accumulate_ok ir cur x c needed Hhold Hx) as (cur1 & -> & Hhold1). cbn [bind].
      destruct (@seal_ok tmul _ nl cur1 _ Hhold1) as [_ Hseal].
      destruct Hseal as (blk & -> & Hblk); [lia|]. cbn [bind].
      destruct (@skip_zero_ok (nl ++ [blk]) _ rest' Ht1 (Hfit1 blk Hblk))
        as (rest'' & Hconv' & Hch').
      apply (IH (mul - needed) y' _ _ rest'' 0 R); [lia | exact Hconv' | exact Hy' |].
      rewrite pending_zero, Hch'.
      replace mul with (needed + (mul - needed)) in Hch at 1 by lia.
      now apply repeat_cancel in Hch.
Qed.

(** The loop over the source blocks: it returns with every target slot
    sealed and nothing left in [current_array]. *)
Lemma convert_blocks_ok (irs : Irreps.t) (l : list (option (ndarray T))) :
  Forall2 (block_fits lead) l irs ->
  forall (new_list : list (option (ndarray T))) (cur : accumulator (T := T))
         (rest : Irreps.t) (c : nat),
    converting target lead new_list cur rest c ->
    Irreps.channels irs = pending rest c ->
    exists new_list',
      convert_blocks target lead (combine irs l) new_list cur = Ok (new_list', Count 0)
      /\ Forall2 (block_fits lead) new_list' target.
Proof.
  induction 1 as [|x [mul ir] l irs Hx _ IH]; intros nl cur rest c Hconv Hch.
  - cbn [combine convert_blocks]. destruct Hconv as (done & Ht & Hfit & Hrest).
    destruct rest as [|[tmul tir] rest'].
    + destruct Hrest as [-> _]. exists nl. split; [reflexivity|].
      rewrite Ht, app_nil_r. exact Hfit.
    + destruct Hrest as [Hlt _]. cbn [pending] in Hch.
      destruct (tmul - c) as [|k] eqn:Hk; [lia | discriminate Hch].
  - cbn [combine convert_blocks fst].
    assert (Hy : contributes lead x mul (Irreps.ir_dim ir)) by (destruct x; exact Hx).
    destruct (@convert_block_ok (mul, ir) mul mul x nl cur rest c (Irreps.channels irs)
                (le_n mul) Hconv Hy Hch)
      as (nl1 & cur1 & rest1 & c1 & -> & Hconv1 & Hch1).
    cbn [bind]. apply (IH nl1 cur1 rest1 c1 Hconv1 Hch1).
Qed.

End ConvertFacts.

Lemma trailing_of_fits {T : Type} (lead : list nat) (l : list (option (ndarray T)))
  (irs : Irreps.t) :
  Forall2 (block_fits lead) l irs ->
  forallb (fun xm => trailing_shape_ok (fst xm) (snd xm)) (combine l irs) = true.
Proof.
  induction 1 as [|x mi l irs Hx _ IH]; [reflexivity|].
  cbn [combine forallb fst snd]. rewrite IH, andb_true_r.
  destruct x as [b|]; [|reflexivity]. simpl in Hx. unfold trailing_shape_ok. rewrite Hx.
  rewrite length_app. cbn [length].
  replace (length lead + 2 - 2) with (length lead) by lia.
  rewrite skipn_app, skipn_all, Nat.sub_diag. apply shape_eqb_refl.
Qed.

(** [convert] returns for every checked tensor and every target spec that
    simplifies as its own; the result carries the buffer of the tensor, and
    so does the tensor after the call. *)
Lemma convert_ok {T : Type} `{Scalar T} (t : IrrepsArray T) (new_irreps : Irreps.t) :
  checked t ->
  Irreps.simplify new_irreps = Irreps.simplify (irreps t) ->
  exists t' new_list,
    convert_st t new_irreps
    = (t', Ok (mkIrrepsArray new_irreps (array t) (Some new_list)))
    /\ irreps t' = irreps t /\ array t' = array t
    /\ checked (mkIrrepsArray new_irreps (array t) (Some new_list)).
Proof.
  intros Hck Hsimp. unfold convert_st.
  rewrite Hsimp, (proj2 (irreps_eqb_eq _ _) eq_refl). cbn [negb].
  destruct (checked_list_fits Hck) as (Hshape & l & El & Hfit).
  destruct (list_cached_of_list _ El) as (t' & Ec). rewrite Ec.
  destruct (list_cached_spec _ Ec) as (Hirr & Harr & _).
  unfold shape_of. set (lead := removelast (shape (array t))) in *.
  destruct (@skip_zero_ok T new_irreps lead [] [] new_irreps eq_refl (Forall2_nil _))
    as (rest0 & Hconv0 & Hch0).
  destruct (@convert_blocks_ok T _ new_irreps lead (irreps t) l Hfit
              (skip_zero_slots new_irreps []) (Count 0) rest0 0 Hconv0)
    as (new_list & -> & Hnew).
  { rewrite pending_zero, Hch0. symmetry. now apply simplify_eq_channels. }
  exists t', new_list. cbn [bind assert Nat.eqb].
  rewrite (Forall2_length Hnew), Nat.eqb_refl. cbn [bind assert].
  rewrite (trailing_of_fits Hnew). cbn [bind assert].
  assert (Einit : __init__ new_irreps (array t) (Some new_list) true
                  = Ok (mkIrrepsArray new_irreps (array t) (Some new_list))).
  { unfold __init__. rewrite Hshape at 1. rewrite last_dim_app. cbn [bind].
    rewrite (simplify_eq_dim _ _ Hsimp), Nat.eqb_refl.
    rewrite (Forall2_length Hnew), Nat.eqb_refl. cbn [negb]. fold lead.
    now rewrite (forallb_fits Hnew). }
  rewrite Einit. repeat split; auto.
Qed.

(** C1.  For a tensor [t] that passes the constructor's checks and a target
    spec that simplifies to the same spec as [t]'s, [convert] returns a
    tensor over the target spec whose buffer is the buffer of [t]; [t]
    itself keeps its buffer across the call (only its cached block view
    may be filled in); and converting the result back to [t]'s spec
    returns a tensor whose buffer is again the buffer of [t]. *)
Theorem convert_keeps_buffer (T : Type) (S : Scalar T) (t : IrrepsArray T)
  (new_irreps : Irreps.t) :
  checked t ->
  Irreps.simplify new_irreps = Irreps.simplify (irreps t) ->
  exists r r',
    convert t new_irreps = Ok r
    /\ irreps r = new_irreps
    /\ array r = array t
    /\ array (fst (convert_st t new_irreps)) = array t
    /\ convert r (irreps t) = Ok r'
    /\ irreps r' = irreps t
    /\ array r' = array t.
Proof.
  intros Hck Hsimp.
  destruct (@convert_ok T S t new_irreps Hck Hsimp) as (t' & nl & E & _ & Harr & Hckr).
  set (r := mkIrrepsArray new_irreps (array t) (Some nl)) in *.
  destruct (@convert_ok T S r (irreps t) Hckr (eq_sym Hsimp)) as (r1 & nl' & E' & _ & _ & _).
  exists r, (mkIrrepsArray (irreps t) (array t) (Some nl')).
  unfold convert. rewrite E, E'. repeat split; auto.
Qed.

(** C1 at a tensor over [3x0e + 2x1e] regrouped as [1x0e + 0x2e + 2x0e + 2x1e]. *)
Lemma convert_keeps_buffer_witness :
  let t := mkIrrepsArray [(3, Irreps.ir0e); (2, Irreps.ir1e)]
             (mk [1; 9] [1; 2; 3; 4; 5; 6; 7; 8; 9]%Z) None in
  let new_irreps := [(1, Irreps.ir0e); (0, Irreps.ir2e); (2, Irreps.ir0e); (2, Irreps.ir1e)] in
  exists r r',
    convert t new_irreps = Ok r
    /\ irreps r = new_irreps
    /\ array r = array t
    /\ array (fst (convert_st t new_irreps)) = array t
    /\ convert r (irreps t) = Ok r'
    /\ irreps r' = irreps t
    /\ array r' = array t.
Proof.
  intros t new_irreps. apply (@convert_keeps_buffer Z _ t new_irreps).
  - reflexivity.
  - reflexivity.
Defined.

(** ** Rows of a row-major buffer *)

Lemma chunk_length {X : Type} (w r n : nat) (d : list X) :
  length d = n * w -> r < n -> length (chunk w r d) = w.
Proof.
  intros Hd Hr. unfold chunk. rewrite length_firstn, length_skipn, Hd. nia.
Qed.

Lemma chunk_flat_map {X : Type} (f : nat -> list X) (w n : nat) :
  forall s r,
    (forall k, s <= k < s + n -> length (f k) = w) -> r < n ->
    chunk w r (flat_map f (seq s n)) = f (s + r).
Proof.
  unfold chunk. induction n as [|n IH]; intros s r Hf Hr; [lia|].
  cbn [seq flat_map]. pose proof (Hf s ltac:(lia)) as Hs.
  destruct r as [|r].
  - cbn [Nat.mul skipn]. rewrite Nat.add_0_r, firstn_app, Hs, Nat.sub_diag.
    rewrite <- Hs at 1. rewrite firstn_all. cbn [firstn]. apply app_nil_r.
  - rewrite skipn_app, Hs.
    replace (S r * w - w) with (r * w) by lia.
    rewrite (skipn_all2 (f s)) by (rewrite Hs; nia). cbn [app].
    rewrite IH; [f_equal; lia | | lia].
    intros k Hk. apply Hf. lia.
Qed.

Lemma flat_map_chunks {X : Type} (w n : nat) :
  forall d : list X, length d = n * w -> flat_map (fun r => chunk w r d) (seq 0 n) = d.
Proof.
  unfold chunk. induction n as [|n IH]; intros d Hd.
  - destruct d; [reflexivity | discriminate].
  - cbn [seq flat_map]. rewrite <- seq_shift, flat_map_concat_map, map_map,
      <- flat_map_concat_map.
    rewrite (flat_map_ext _ (fun r => firstn w (skipn (r * w) (skipn w d)))).
    + rewrite IH by (rewrite length_skipn; lia).
      cbn [Nat.mul skipn]. apply firstn_skipn.
    + intros r. rewrite skipn_skipn. do 2 f_equal. lia.
Qed.

Lemma firstn_skipn_middle {X : Type} (pre mid post : list X) :
  firstn (length mid) (skipn (length pre) (pre ++ mid ++ post)) = mid.
Proof.
  rewrite skipn_app, skipn_all, Nat.sub_diag. cbn [app skipn].
  rewrite firstn_app, firstn_all, Nat.sub_diag. cbn [firstn]. apply app_nil_r.
Qed.

(** ** The buffer built by [from_list] and its block view *)

Section RoundTrip.
Context {T : Type} `{Scalar T}.
Variable lead : list nat.

Lemma block_wf_fits (blocks : list (option (ndarray T))) (irs : Irreps.t) :
  Forall2 (block_wf lead) blocks irs -> Forall2 (block_fits lead) blocks irs.
Proof.
  induction 1 as [|x mi blocks irs Hx _ IH]; constructor; [|exact IH].
  destruct x as [b|]; [exact (proj1 Hx) | exact I].
Qed.

Lemma block_data_length (x : option (ndarray T)) (mi : Irreps.MulIr) :
  block_wf lead x mi ->
  length (block_data lead x mi) = size lead * Irreps.mulir_dim mi.
Proof.
  destruct x as [b|]; simpl.
  - intros [Hs Hw]. unfold jnp.wf in Hw. rewrite Hw, Hs, <- size_block, size_app.
    unfold Irreps.mulir_dim. simpl. lia.
  - intros _. rewrite repeat_length, size_app. simpl. lia.
Qed.

Lemma buffer_row_length (irs : Irreps.t) (blocks : list (option (ndarray T))) (r : nat) :
  Forall2 (block_wf lead) blocks irs -> r < size lead ->
  length (buffer_row lead irs blocks r) = Irreps.dim irs.
Proof.
  intros Hwf Hr. unfold buffer_row, Irreps.dim.
  induction Hwf as [|x mi blocks irs Hx _ IH]; [reflexivity|].
  cbn [combine flat_map map list_sum fold_right fst snd].
  rewrite length_app, IH.
  rewrite (@chunk_length _ _ r (size lead)); [reflexivity | | exact Hr].
  now apply block_data_length.
Qed.

(** The rows of the buffer that [from_list] builds. *)
Lemma from_list_rows (irs : Irreps.t) (blocks : list (option (ndarray T)))
  (arr : ndarray T) :
  Forall2 (block_wf lead) blocks irs ->
  from_list irs blocks lead = Ok (mkIrrepsArray irs arr (Some blocks)) ->
  shape arr = lead ++ [Irreps.dim irs]
  /\ length (data arr) = size lead * Irreps.dim irs
  /\ forall r, r < size lead -> chunk (Irreps.dim irs) r (data arr) = buffer_row lead irs blocks r.
Proof.
  intros Hwf E.
  destruct (from_list_ok (block_wf_fits Hwf)) as (arr' & E' & Hs & Hpos & Hzero).
  rewrite E in E'. injection E' as <-. split; [exact Hs|].
  destruct (Nat.eq_dec (Irreps.dim irs) 0) as [Hd | Hd].
  - rewrite (Hzero Hd), Hd. split; [simpl; lia|]. intros r Hr.
    pose proof (@buffer_row_length irs blocks r Hwf Hr) as Hlen. rewrite Hd in Hlen.
    destruct (buffer_row lead irs blocks r); [|discriminate]. unfold chunk. now destruct (r * 0).
  - rewrite (Hpos ltac:(lia)).
    assert (Hrows : forall k, 0 <= k < 0 + size lead ->
              length (flat_map (fun mx : Irreps.MulIr * option (ndarray T) =>
                                  chunk (Irreps.mulir_dim (fst mx)) k
                                    (block_data lead (snd mx) (fst mx)))
                         (combine irs blocks)) = Irreps.dim irs).
    { intros k Hk. apply (@buffer_row_length irs blocks k Hwf). lia. }
    split.
    + clear - Hrows. revert Hrows. generalize 0 as s. generalize (size lead) as n.
      induction n as [|n IH]; intros s Hrows; [reflexivity|].
      cbn [seq flat_map]. rewrite length_app, (Hrows s ltac:(lia)), IH; [lia|].
      intros k Hk. apply Hrows. lia.
    + intros r Hr. rewrite (@chunk_flat_map _ _ (Irreps.dim irs) (size lead) 0 r Hrows Hr).
      reflexivity.
Qed.

Lemma densify_block (x : option (ndarray T)) (mi : Irreps.MulIr) :
  block_wf lead x mi ->
  mk (lead ++ [fst mi; Irreps.ir_dim (snd mi)]) (block_data lead x mi) = densify lead x mi.
Proof.
  destruct x as [b|]; simpl.
  - intros [Hs _]. destruct b as [s d]. simpl in *. now subst s.
  - intros _. unfold jnp.zeros, full. f_equal. unfold Irreps.mulir_dim.
    now rewrite size_block.
Qed.

Lemma derive_slices_data (arr : ndarray T) (n : nat) (irs : Irreps.t)
  (blocks : list (option (ndarray T))) :
  shape arr = lead ++ [n] ->
  Forall2 (block_wf lead) blocks irs ->
  forall i0,
    i0 + Irreps.dim irs <= n ->
    (forall r, r < size lead ->
       exists pre post, length pre = i0
                        /\ chunk n r (data arr) = pre ++ buffer_row lead irs blocks r ++ post) ->
    mapM (fun im : (nat * nat) * Irreps.MulIr =>
            let '((start, stop), (mul, ir)) := im in
            s <- getitem_last arr start stop ;;
            x <- reshape s (lead ++ [mul; Irreps.ir_dim ir]) ;;
            Ok (Some x))
         (combine (Irreps.slices_from i0 irs) irs)
    = Ok (dense_view lead irs blocks).
Proof.
  intros Hs Hwf. induction Hwf as [|x [mul ir] blocks irs Hx Hwf IH]; intros i0 Hle Hrow.
  - reflexivity.
  - unfold Irreps.dim in Hle. cbn [map list_sum fold_right] in Hle.
    fold (list_sum (map Irreps.mulir_dim irs)) in Hle. fold (Irreps.dim irs) in Hle.
    set (w := Irreps.mulir_dim (mul, ir)) in *.
    cbn [Irreps.slices_from combine mapM]. fold w.
    rewrite (@getitem_last_in_range _ arr lead n i0 w Hs ltac:(lia)). cbn [bind].
    unfold reshape at 1.
    rewrite (@take_last_shape _ arr lead n i0 w Hs).
    unfold w at 1. unfold Irreps.mulir_dim at 1. cbn [fst snd].
    rewrite size_block, Nat.eqb_refl. cbn [bind].
    rewrite (IH (i0 + w)); [| lia |].
    + cbn [bind]. unfold dense_view. cbn [combine map fst snd]. do 3 f_equal.
      rewrite <- (@densify_block x (mul, ir) Hx). cbn [fst snd]. f_equal.
      unfold take_axis. cbn [data]. rewrite Hs.
      destruct (last_axis lead n) as (_ & -> & -> & ->).
      cbn [size fold_right]. rewrite !Nat.mul_1_r.
      rewrite (flat_map_ext_in _ (fun r => chunk w r (block_data lead x (mul, ir)))).
      * apply (@flat_map_chunks _ w (size lead)). now apply block_data_length.
      * intros r Hr. apply in_seq in Hr.
        destruct (Hrow r ltac:(lia)) as (pre & post & Hpre & ->).
        unfold buffer_row. cbn [combine flat_map fst snd]. fold w.
        rewrite <- app_assoc, <- Hpre.
        rewrite <- (@chunk_length _ w r (size lead) (block_data lead x (mul, ir))) at 1;
          [apply firstn_skipn_middle | now apply block_data_length | lia].
    + intros r Hr. destruct (Hrow r Hr) as (pre & post & Hpre & Hchunk).
      exists (pre ++ chunk w r (block_data lead x (mul, ir))), post. split.
      * rewrite length_app, Hpre.
        rewrite (@chunk_length _ w r (size lead)); [reflexivity | | exact Hr].
        now apply block_data_length.
      * rewrite Hchunk. unfold buffer_row. cbn [combine flat_map fst snd].
        fold w. now rewrite <- !app_assoc.
Qed.

Lemma dense_view_wf (irs : Irreps.t) (blocks : list (option (ndarray T))) :
  Forall2 (block_wf lead) blocks irs ->
  Forall2 (block_wf lead) (dense_view lead irs blocks) irs.
Proof.
  unfold dense_view. induction 1 as [|x mi blocks irs Hx _ IH]; [constructor|].
  cbn [combine map fst snd]. constructor; [|exact IH].
  destruct x as [b|]; [exact Hx|]. split; [reflexivity|].
  unfold jnp.wf, jnp.zeros, full. cbn [data shape]. apply repeat_length.
Qed.

Lemma buffer_row_dense (irs : Irreps.t) (blocks : list (option (ndarray T))) (r : nat) :
  Forall2 (block_wf lead) blocks irs ->
  buffer_row lead irs (dense_view lead irs blocks) r = buffer_row lead irs blocks r.
Proof.
  unfold buffer_row, dense_view. induction 1 as [|x mi blocks irs Hx _ IH]; [reflexivity|].
  cbn [combine map flat_map fst snd]. rewrite IH. f_equal. f_equal.
  rewrite <- (@densify_block x mi Hx). reflexivity.
Qed.

Lemma same_rows (w n : nat) (d1 d2 : list T) :
  length d1 = n * w -> length d2 = n * w ->
  (forall r, r < n -> chunk w r d1 = chunk w r d2) -> d1 = d2.
Proof.
  intros H1 H2 Hrows.
  rewrite <- (@flat_map_chunks _ w n d1 H1), <- (@flat_map_chunks _ w n d2 H2).
  apply flat_map_ext_in. intros r Hr. apply in_seq in Hr. apply Hrows. lia.
Qed.

(** The view derived from the buffer of [from_list] is the dense view of
    the blocks it was built from. *)
Lemma derive_of_from_list (irs : Irreps.t) (blocks : list (option (ndarray T)))
  (arr : ndarray T) :
  Forall2 (block_wf lead) blocks irs ->
  from_list irs blocks lead = Ok (mkIrrepsArray irs arr (Some blocks)) ->
  derive_list irs arr = Ok (dense_view lead irs blocks).
Proof.
  intros Hwf E. destruct (from_list_rows Hwf E) as (Hs & Hlen & Hrows).
  unfold derive_list. rewrite Hs, removelast_snoc.
  assert (Hgen :
    mapM (fun im : (nat * nat) * Irreps.MulIr =>
            let '((start, stop), (mul, ir)) := im in
            s <- getitem_last arr start stop ;;
            x <- reshape s (lead ++ [mul; Irreps.ir_dim ir]) ;;
            Ok (Some x))
         (combine (Irreps.slices irs) irs) = Ok (dense_view lead irs blocks)).
  { apply (@derive_slices_data arr (Irreps.dim irs) irs blocks Hs Hwf 0); [simpl; lia|].
    intros r Hr. exists [], []. split; [reflexivity|].
    rewrite (Hrows r Hr), app_nil_r. reflexivity. }
  destruct Hwf as [|x [mul ir] blocks irs Hx Hwf]; [exact Hgen|].
  destruct Hwf as [|x' mi' blocks irs Hx' Hwf]; [|exact Hgen].
  unfold reshape. rewrite Hs.
  match goal with
  | |- context [size ?s =? size ?s'] =>
      replace (size s) with (size s')
        by (rewrite !size_app; unfold Irreps.dim, Irreps.mulir_dim; simpl; lia)
  end.
  rewrite Nat.eqb_refl. cbn [bind]. unfold dense_view. cbn [combine map fst snd].
  do 3 f_equal. rewrite <- (@densify_block x (mul, ir) Hx). cbn [fst snd]. f_equal.
  apply (@same_rows (Irreps.mulir_dim (mul, ir)) (size lead)).
  - rewrite Hlen. f_equal. unfold Irreps.dim. simpl. lia.
  - rewrite (@block_data_length x (mul, ir) Hx). reflexivity.
  - intros r Hr. pose proof (Hrows r Hr) as Hrow.
    match type of Hrow with
    | chunk ?D _ _ = _ =>
        replace D with (Irreps.mulir_dim (mul, ir)) in Hrow
          by (unfold Irreps.dim; simpl; lia)
    end.
    rewrite Hrow. unfold buffer_row. cbn [combine flat_map fst snd]. apply app_nil_r.
Qed.

End RoundTrip.

(** C2.  For every irreps spec, leading shape and well-formed block list,
    [from_list] returns a tensor [t] whose block view is the list it was
    given, so rebuilding from that view returns the same buffer (the same
    tensor); and the buffer and the blocks hold the same values: the view
    derived from the buffer alone is the blocks with [None] read as zeros,
    and rebuilding from it returns the same buffer again. *)
Theorem from_list_list_inverse (T : Type) (S : Scalar T) (irs : Irreps.t)
  (blocks : list (option (ndarray T))) (lead : list nat) :
  Forall2 (block_wf lead) blocks irs ->
  exists t t',
    from_list irs blocks lead = Ok t
    /\ list_ t = Ok blocks
    /\ (l <- list_ t ;; from_list irs l lead) = Ok t
    /\ derive_list irs (array t) = Ok (dense_view lead irs blocks)
    /\ from_list irs (dense_view lead irs blocks) lead = Ok t'
    /\ array t' = array t.
Proof.
  intros Hwf.
  destruct (from_list_ok (block_wf_fits Hwf)) as (arr & E & _).
  pose proof (dense_view_wf Hwf) as Hwf'.
  destruct (from_list_ok (block_wf_fits Hwf')) as (arr' & E' & _).
  exists (mkIrrepsArray irs arr (Some blocks)),
         (mkIrrepsArray irs arr' (Some (dense_view lead irs blocks))).
  split; [exact E|]. split; [reflexivity|]. split; [exact E|].
  split; [exact (derive_of_from_list Hwf E)|]. split; [exact E'|].
  cbn [array].
  destruct (from_list_rows Hwf E) as (Hs & Hlen & Hrows).
  destruct (from_list_rows Hwf' E') as (Hs' & Hlen' & Hrows').
  destruct arr as [s d], arr' as [s' d']. cbn [shape data] in *. subst s s'. f_equal.
  apply (@same_rows T (Irreps.dim irs) (size lead)); [lia | lia |].
  intros r Hr. rewrite (Hrows r Hr), (Hrows' r Hr). now apply buffer_row_dense.
Qed.

(** C2 at three blocks over [2x0e + 1x1e + 1x0o], the second one [None]. *)
Lemma from_list_list_inverse_witness :
  let irs := [(2, Irreps.ir0e); (1, Irreps.ir1e); (1, Irreps.ir0o)] in
  let blocks := [Some (mk [2; 2; 1] [1; 2; 3; 4]%Z); None; Some (mk [2; 1; 1] [5; 6]%Z)] in
  exists t t',
    from_list irs blocks [2] = Ok t
    /\ list_ t = Ok blocks
    /\ (l <- list_ t ;; from_list irs l [2]) = Ok t
    /\ derive_list irs (array t) = Ok (dense_view [2] irs blocks)
    /\ from_list irs (dense_view [2] irs blocks) [2] = Ok t'
    /\ array t' = array t.
Proof.
  intros irs blocks. apply (@from_list_list_inverse Z _ irs blocks [2]).
  repeat constructor.
Defined.

Example from_list_ex :
  from_list [(2, Irreps.ir0e); (1, Irreps.ir1e); (1, Irreps.ir0o)]
    [Some (mk [2; 2; 1] [1; 2; 3; 4]%Z); None; Some (mk [2; 1; 1] [5; 6]%Z)] [2]
  = Ok (mkIrrepsArray [(2, Irreps.ir0e); (1, Irreps.ir1e); (1, Irreps.ir0o)]
          (mk [2; 6] [1; 2; 0; 0; 0; 5; 3; 4; 0; 0; 0; 6]%Z)
          (Some [Some (mk [2; 2; 1] [1; 2; 3; 4]%Z); None; Some (mk [2; 1; 1] [5; 6]%Z)])).
Proof. reflexivity. Qed.

(** ** [norm] on tensors with and without [None] blocks *)

Lemma reduce_dims_last_axis (lead : list nat) (m d k : nat) :
  reduce_dims [k + length lead + 1] true k (lead ++ [m; d]) = lead ++ [m; 1].
Proof.
  revert k. induction lead as [|n lead IH]; intros k; cbn [app length reduce_dims existsb].
  - rewrite Nat.add_0_r.
    replace (k =? k + 1) with false by (symmetry; apply Nat.eqb_neq; lia).
    replace (S k =? k + 1) with true by (symmetry; apply Nat.eqb_eq; lia). reflexivity.
  - replace (k =? k + S (length lead) + 1) with false by (symmetry; apply Nat.eqb_neq; lia).
    cbn [orb app]. f_equal.
    replace (k + S (length lead) + 1) with (S k + length lead + 1) by lia. apply IH.
Qed.

(** [axis=-1, keepdims=True] on a block collapses its irrep axis. *)
Lemma reduce_shape_last_axis (lead : list nat) (m d : nat) :
  axes_in_range (length (lead ++ [m; d])) [(-1)%Z] = true
  /\ reduce_shape (lead ++ [m; d]) [(-1)%Z] true = lead ++ [m; 1].
Proof.
  rewrite length_app. cbn [length]. split.
  - unfold axes_in_range. cbn [forallb]. rewrite andb_true_r.
    apply andb_true_iff. split; [apply Z.leb_le | apply Z.ltb_lt]; lia.
  - unfold reduce_shape. rewrite length_app. cbn [length map].
    replace (norm_axis (length lead + 2) (-1)) with (0 + length lead + 1);
      [apply reduce_dims_last_axis|].
    unfold norm_axis. symmetry.
    rewrite <- (Z.mod_unique (-1) (Z.of_nat (length lead + 2)) (-1)
                  (Z.of_nat (length lead + 1))); [apply Nat2Z.id | left; lia | lia].
Qed.

Section NormFacts.
Context {T : Type} `{Scalar T}.

Lemma norm_f_ok (lead : list nat) (x : ndarray T) (m d : nat) (squared : bool) :
  shape x = lead ++ [m; d] ->
  exists r, norm_f squared (Some x) = Ok (Some r) /\ shape r = lead ++ [m; 1].
Proof.
  intros Hx. unfold norm_f.
  destruct (reduce_shape_last_axis lead m d) as [Hr Hs].
  destruct (@reduce_is_reduction T total (map_elts (fun v => mul v v) x) [(-1)%Z] true)
    as (r & Er & Hsr).
  { unfold ndim, map_elts. cbn [shape]. now rewrite Hx. }
  unfold jnp.sum. rewrite Er. cbn [bind].
  unfold map_elts in Hsr. cbn [shape] in Hsr. rewrite Hx, Hs in Hsr.
  eexists. split; [reflexivity|]. destruct squared; [exact Hsr | exact Hsr].
Qed.

(** Over the blocks of a tensor, the inner function of [norm] returns the
    even scalars of each block when no block is [None], and raises
    [TypeError] when one is. *)
Lemma norm_blocks (lead : list nat) (squared : bool) (l : list (option (ndarray T)))
  (irs : Irreps.t) :
  Forall2 (block_fits lead) l irs ->
  (existsb is_none l = false ->
   exists lst, mapM (norm_f squared) l = Ok lst
               /\ Forall2 (block_fits lead) lst
                    (map (fun mi : Irreps.MulIr => (fst mi, Irreps.ir0e)) irs))
  /\ (existsb is_none l = true -> mapM (norm_f squared) l = Raise TypeError).
Proof.
  induction 1 as [|x mi l irs Hx _ [IHok IHbad]].
  - split; [|discriminate]. intros _. exists []. split; [reflexivity | constructor].
  - destruct x as [b|].
    + simpl in Hx. destruct (@norm_f_ok lead b _ _ squared Hx) as (r & Er & Hr).
      cbn [existsb is_none orb mapM]. rewrite Er. cbn [bind]. split.
      * intros Hn. destruct (IHok Hn) as (lst & -> & Hlst). cbn [bind].
        eexists. split; [reflexivity|]. constructor; [exact Hr | exact Hlst].
      * intros Hn. rewrite (IHbad Hn). reflexivity.
    + split; [discriminate|]. intros _. reflexivity.
Qed.

(** What [norm] does on a tensor that passes the constructor's checks: with
    no [None] in its block list it returns a tensor over the spec with
    every irrep replaced by the even scalar, built from the per-block
    values; with a [None] in its block list it raises [TypeError]. *)
Lemma norm_spec (t : IrrepsArray T) (squared : bool) :
  checked t ->
  exists l,
    list_ t = Ok l
    /\ (existsb is_none l = false ->
        exists lst arr,
          mapM (norm_f squared) l = Ok lst
          /\ norm t squared
             = Ok (mkIrrepsArray
                     (map (fun mi : Irreps.MulIr => (fst mi, Irreps.ir0e)) (irreps t))
                     arr (Some lst)))
    /\ (existsb is_none l = true -> norm t squared = Raise TypeError).
Proof.
  intros Hck. destruct (checked_list_fits Hck) as (_ & l & El & Hfit).
  exists l. split; [exact El|].
  destruct (norm_blocks squared Hfit) as [Hok Hbad]. unfold norm. rewrite El. cbn [bind].
  split.
  - intros Hn. destruct (Hok Hn) as (lst & Elst & Hlst).
    destruct (from_list_ok Hlst) as (arr & Efl & _).
    exists lst, arr. split; [exact Elst|]. rewrite Elst. cbn [bind]. exact Efl.
  - intros Hn. now rewrite (Hbad Hn).
Qed.

End NormFacts.

(** [norm_spec] at a tensor whose first block is [None]. *)
Lemma norm_spec_witness :
  let t := mkIrrepsArray [(1, Irreps.ir0e); (1, Irreps.ir1e)] (mk [4] [0; 2; 3; 4]%Z)
             (Some [None; Some (mk [1; 3] [2; 3; 4]%Z)]) in
  norm t true = Raise TypeError.
Proof.
  intros t. destruct (@norm_spec Z _ t true) as (l & El & _ & Hbad).
  - reflexivity.
  - injection El as <-. apply Hbad. reflexivity.
Defined.

(** [truediv_self_nonscalar] at the tensor [zeros("1x1e", ())]. *)
Lemma truediv_self_nonscalar_witness :
  let t := mkIrrepsArray [(1, Irreps.ir1e)] (mk [3] [0; 0; 0]%Z) (Some [None]) in
  __truediv__ None no_tensor_product t (Tensor t) = Raise EquivarianceViolation.
Proof.
  intros t. apply (@truediv_self_nonscalar Z _ None no_tensor_product t).
  unfold Irreps.max_order. simpl. lia.
Defined.

Example norm_ex :
  norm (mkIrrepsArray [(1, Irreps.ir0e); (1, Irreps.ir1e)] (mk [4] [5; 2; 3; 6]%Z) None) false
  = Ok (mkIrrepsArray [(1, Irreps.ir0e); (1, Irreps.ir0e)] (mk [2] [5; 7]%Z)
          (Some [Some (mk [1; 1] [5]%Z); Some (mk [1; 1] [7]%Z)])).
Proof. reflexivity. Qed.

(** ** The depth of [_reduce] *)

(** Two levels are all [_reduce] ever uses: the call it makes on itself
    passes standardized axes that lie before the irrep axis, and such a
    call makes no further call.  A larger bound gives the same result. *)
Lemma reduce_depth_suffices {T : Type} `{Scalar T}
  (op : ndarray T -> list Z -> bool -> result (ndarray T))
  (t : IrrepsArray T) (axis : axis_arg) (kd : bool) (depth : nat) :
  _reduce_upto (2 + depth) op t axis kd = _reduce op t axis kd.
Proof.
  unfold _reduce. cbn [Nat.add]. rewrite !reduce_upto_unfold.
  destruct (_standardize_axis axis (ndim (array_of t))) as [ax|e] eqn:Estd; [|reflexivity].
  cbn [bind]. destruct ax as [|a0 ax0] eqn:Eax; [reflexivity|]. rewrite <- Eax in *.
  destruct (last ax 0 <? ndim (array_of t) - 1) eqn:Hlast; [reflexivity|].
  assert (Hne : ax <> []) by (subst ax; discriminate).
  destruct (standardize_axis_spec _ _ Estd) as [Hs Hax].
  destruct (sorted_removelast Hs Hne) as (Hs' & Hlt & Hin).
  rewrite Forall_forall in Hax. pose proof (Hax _ Hin) as Hbound.
  assert (Hax' : Forall (fun i => i < ndim (array_of t)) (removelast ax)).
  { eapply Forall_impl; [|exact Hlt]. intros i Hi. simpl in Hi. lia. }
  replace (_reduce_upto (S depth) op t (AxisTuple (map Z.of_nat (removelast ax))) kd)
    with (_reduce_upto 1 op t (AxisTuple (map Z.of_nat (removelast ax))) kd); [reflexivity|].
  rewrite !reduce_upto_unfold, (standardize_axis_id Hs' Hax'). cbn [bind].
  destruct (removelast ax) as [|c cs] eqn:Erl; [reflexivity|]. rewrite <- Erl in *.
  assert (Hne' : removelast ax <> []) by (rewrite Erl; discriminate).
  destruct (sorted_removelast Hs' Hne') as (_ & _ & Hin').
  rewrite Forall_forall in Hlt. pose proof (Hlt _ Hin') as Hlt'.
  replace (last (removelast ax) 0 <? ndim (array_of t) - 1) with true; [reflexivity|].
  symmetry. apply Nat.ltb_lt. lia.
Qed.

(** * Further properties *)

(** ** Shared facts *)

Lemma init_with_list {A : Type} (irs : Irreps.t) (a : ndarray A) (lead : list nat)
  (l : list (option (ndarray A))) :
  shape a = lead ++ [Irreps.dim irs] ->
  Forall2 (block_fits lead) l irs ->
  __init__ irs a (Some l) true = Ok (mkIrrepsArray irs a (Some l)).
Proof.
  intros Hs Hfit. unfold __init__. rewrite Hs, last_dim_app. cbn [bind].
  rewrite Nat.eqb_refl, (Forall2_length Hfit), Nat.eqb_refl. cbn [negb].
  rewrite removelast_snoc. now rewrite (forallb_fits Hfit).
Qed.

Lemma irreps_eqb_neq (a b : Irreps.t) : Irreps.eqb a b = false <-> a <> b.
Proof.
  destruct (Irreps.eqb a b) eqn:E.
  - apply irreps_eqb_eq in E. split; [discriminate | contradiction].
  - split; [|reflexivity]. intros _ Eab. apply irreps_eqb_eq in Eab. congruence.
Qed.

Lemma concatenate_benign {A : Type} (arrs : list (ndarray A)) (k : nat) :
  raises_only benign (concatenate arrs k).
Proof.
  unfold concatenate. destruct arrs as [|a0 arrs]; simpl; [benign_tac|].
  destruct (_ && _); simpl; [exact I | benign_tac].
Qed.




Lemma not_benign_assertion : ~ benign AssertionError.
Proof. unfold benign. intuition discriminate. Qed.

Lemma concatenate_at_benign {A : Type} (arrs : list (ndarray A)) (axis : nat) :
  raises_only benign (concatenate_at arrs axis).
Proof.
  unfold concatenate_at. destruct arrs as [|a0 arrs]; [simpl; benign_tac|].
  destruct (axis <? ndim a0); [apply concatenate_benign | simpl; benign_tac].
Qed.

(** ** Explicit zeros for the blocks that are [None] *)


Section ZerosForNone.
Context {T : Type} `{Scalar T}.

Lemma replaced_is_dense (lead : list nat) (irs : Irreps.t) (l : list (option (ndarray T))) :
  map (fun mx : Irreps.MulIr * option (ndarray T) =>
         match snd mx with
         | None => Some (jnp.zeros (lead ++ [fst (fst mx); Irreps.ir_dim (snd (fst mx))]))
         | Some x => Some x
         end) (combine irs l)
  = dense_view lead irs l.
Proof.
  unfold dense_view. revert l. induction irs as [|mi irs IH]; intros [|x l]; simpl; try reflexivity.
  rewrite IH. now destruct x.
Qed.

Lemma dense_view_blocks (lead : list nat) (irs : Irreps.t) (l : list (option (ndarray T))) :
  Forall2 (block_fits lead) l irs ->
  Forall2 (block_of lead) (dense_view lead irs l) irs.
Proof.
  unfold dense_view. induction 1 as [|x mi l irs Hx _ IH]; simpl; constructor; [|exact IH].
  destruct x as [b|]; simpl in *; [exists b; auto|].
  eexists; split; [reflexivity|]. reflexivity.
Qed.

Lemma dense_view_dense (lead : list nat) (irs : Irreps.t) (l : list (option (ndarray T))) :
  dense_view lead irs (dense_view lead irs l) = dense_view lead irs l.
Proof.
  unfold dense_view. revert l. induction irs as [|mi irs IH]; intros [|x l]; simpl; try reflexivity.
  now rewrite IH.
Qed.

(** On a tensor that passes the constructor's checks
    [replace_none_with_zeros] returns the tensor with the same spec and the
    same buffer whose block list has, in place of every [None], a
    zero-filled block of the shape of its entry, and keeps the other blocks:
    no block of the result is [None].  Applied to its own result it
    changes nothing. *)
Theorem replace_none_with_zeros_spec (t : IrrepsArray T) :
  checked t ->
  exists l r,
    list_ t = Ok l
    /\ replace_none_with_zeros t = Ok r
    /\ r = mkIrrepsArray (irreps t) (array t)
             (Some (dense_view (removelast (shape_of t)) (irreps t) l))
    /\ Forall2 (block_of (removelast (shape_of t)))
         (dense_view (removelast (shape_of t)) (irreps t) l) (irreps t)
    /\ replace_none_with_zeros r = Ok r.
Proof.
  intros Hck. destruct (checked_list_fits Hck) as (Hs & l & El & Hfit).
  exists l. eexists. split; [exact El|].
  assert (Hb := dense_view_blocks Hfit).
  assert (E : forall l0, list_ t = Ok l0 -> l0 = l) by (intros l0 E0; congruence).
  unfold replace_none_with_zeros. rewrite El. cbn [bind]. rewrite replaced_is_dense.
  unfold shape_of. rewrite (init_with_list _ Hs (block_of_fits Hb)).
  split; [reflexivity|]. split; [reflexivity|]. split; [exact Hb|].
  unfold list_, list_cached. cbn [_list bind irreps array]. rewrite replaced_is_dense.
  rewrite dense_view_dense. now rewrite (init_with_list _ Hs (block_of_fits Hb)).
Qed.

End ZerosForNone.

(** [replace_none_with_zeros_spec] at a tensor over [0e + 1e] whose first
    block is [None]. *)
Lemma replace_none_with_zeros_spec_witness :
  let t := mkIrrepsArray [(1, Irreps.ir0e); (1, Irreps.ir1e)] (mk [4] [0; 2; 3; 4]%Z)
             (Some [None; Some (mk [1; 3] [2; 3; 4]%Z)]) in
  replace_none_with_zeros t
  = Ok (mkIrrepsArray [(1, Irreps.ir0e); (1, Irreps.ir1e)] (mk [4] [0; 2; 3; 4]%Z)
          (Some [Some (mk [1; 1] [0]%Z); Some (mk [1; 3] [2; 3; 4]%Z)])).
Proof.
  intros t. destruct (@replace_none_with_zeros_spec Z _ t) as (l & r & El & Er & -> & _).
  - reflexivity.
  - injection El as <-. exact Er.
Defined.

(** ** Dropping the blocks that are [None] *)

Lemma filter_all {X : Type} (f : X -> bool) (l : list X) :
  existsb (fun x => negb (f x)) l = false -> filter f l = l.
Proof.
  induction l as [|x l IH]; simpl; [reflexivity|].
  destruct (f x); simpl; [intros E; now rewrite IH | discriminate].
Qed.

Lemma existsb_none_negb {X : Type} (l : list (option X)) :
  existsb (fun x => negb (negb (is_none x))) l = existsb is_none l.
Proof. induction l as [|x l IH]; simpl; [reflexivity|]. now rewrite negb_involutive, IH. Qed.

Lemma filter_no_none {X : Type} (l : list (option X)) :
  existsb is_none (filter (fun x => negb (is_none x)) l) = false.
Proof.
  induction l as [|[x|] l IH]; simpl; auto.
Qed.

Lemma kept_fits {A : Type} (lead : list nat) (l : list (option (ndarray A))) (irs : Irreps.t) :
  Forall2 (block_fits lead) l irs ->
  Forall2 (block_fits lead) (filter (fun x => negb (is_none x)) l)
    (map fst (filter (fun mx : Irreps.MulIr * option (ndarray A) => negb (is_none (snd mx)))
                (combine irs l))).
Proof.
  induction 1 as [|x mi l irs Hx _ IH]; simpl; [constructor|].
  destruct x as [b|]; simpl; [constructor; auto | exact IH].
Qed.

Lemma kept_all {A : Type} (lead : list nat) (l : list (option (ndarray A))) (irs : Irreps.t) :
  Forall2 (block_fits lead) l irs ->
  existsb is_none l = false ->
  map fst (filter (fun mx : Irreps.MulIr * option (ndarray A) => negb (is_none (snd mx)))
             (combine irs l)) = irs.
Proof.
  induction 1 as [|x mi l irs Hx _ IH]; simpl; [reflexivity|].
  destruct x as [b|]; simpl; [|discriminate]. intros E. now rewrite IH.
Qed.

Section RemoveNones.
Context {T : Type} `{Scalar T}.

(** On a tensor that passes the constructor's checks [remove_nones]
    returns a tensor over the entries of the spec whose block is not
    [None], in order, with exactly these blocks: the result holds no
    [None], its last axis has the dimension of the kept entries, and it
    passes the constructor's checks.  When no block is [None] the result is
    the tensor itself with its block view stored.  Applied to its own
    result it changes nothing. *)
Theorem remove_nones_spec (t : IrrepsArray T) :
  checked t ->
  exists l r,
    list_ t = Ok l
    /\ remove_nones t = Ok r
    /\ irreps r = map fst (filter (fun mx : Irreps.MulIr * option (ndarray T) =>
                                     negb (is_none (snd mx))) (combine (irreps t) l))
    /\ _list r = Some (filter (fun x => negb (is_none x)) l)
    /\ shape_of r = removelast (shape_of t) ++ [Irreps.dim (irreps r)]
    /\ checked r
    /\ (existsb is_none l = false -> r = mkIrrepsArray (irreps t) (array t) (Some l))
    /\ remove_nones r = Ok r.
Proof.
  intros Hck. destruct (checked_list_fits Hck) as (Hs & l & El & Hfit).
  exists l.
  assert (Hidem : forall r l', _list r = Some l' -> existsb is_none l' = false ->
            remove_nones r = Ok r).
  { intros r l' Er En. unfold remove_nones, list_cached. rewrite Er. cbn [bind].
    now rewrite En. }
  unfold remove_nones at 1.
  destruct (list_cached_of_list _ El) as (t' & Ec). rewrite Ec. cbn [bind].
  destruct (existsb is_none l) eqn:En.
  - destruct (from_list_ok (kept_fits Hfit)) as (arr & E & Hsa & _).
    unfold shape_of. rewrite E. eexists. split; [exact El|]. split; [reflexivity|].
    cbn [irreps _list array]. repeat split; auto.
    + unfold checked. cbn [irreps _list array].
      apply (init_with_list _ Hsa (kept_fits Hfit)).
    + discriminate.
    + apply Hidem with (l' := filter (fun x => negb (is_none x)) l); auto.
      apply filter_no_none.
  - assert (Et' : t' = mkIrrepsArray (irreps t) (array t) (Some l)).
    { unfold list_cached in Ec. destruct (_list t) as [l0|] eqn:E0.
      - injection Ec as <- <-. destruct t; simpl in *; now subst.
      - apply bind_ok in Ec as (l0 & _ & Ec). now injection Ec as <- <-. }
    subst t'. eexists. split; [exact El|]. split; [reflexivity|].
    cbn [irreps _list array]. unfold shape_of. cbn [array].
    rewrite (kept_all Hfit En).
    rewrite (filter_all (fun x => negb (is_none x)) l) by now rewrite existsb_none_negb.
    repeat split; auto.
    + unfold checked. cbn [irreps _list array]. apply (init_with_list _ Hs Hfit).
    + apply Hidem with (l' := l); auto.
Qed.

End RemoveNones.

(** [remove_nones_spec] at a tensor over [0e + 1e] whose first block is
    [None]. *)
Lemma remove_nones_spec_witness :
  let t := mkIrrepsArray [(1, Irreps.ir0e); (1, Irreps.ir1e)] (mk [4] [0; 2; 3; 4]%Z)
             (Some [None; Some (mk [1; 3] [2; 3; 4]%Z)]) in
  exists r,
    remove_nones t = Ok r
    /\ irreps r = [(1, Irreps.ir1e)]
    /\ _list r = Some [Some (mk [1; 3] [2; 3; 4]%Z)]
    /\ shape_of r = [3].
Proof.
  intros t.
  destruct (@remove_nones_spec Z _ t) as (l & r & El & Er & Hirr & Hl & Hs & _).
  - reflexivity.
  - injection El as <-. exists r. split; [exact Er|]. split; [exact Hirr|].
    split; [exact Hl|]. rewrite Hs, Hirr. reflexivity.
Defined.

(** ** Simplified specs *)


Lemma simplified_app_r (a b : Irreps.t) : simplified (a ++ b) -> simplified b.
Proof.
  induction a as [|x a IH]; simpl; [auto|]. intros (_ & _ & Hs). auto.
Qed.

Lemma simplify_into_simplified (l out : Irreps.t) :
  simplified out -> exists o, Irreps.simplify_into out l = rev o /\ simplified o.
Proof.
  revert out. induction l as [|[mul ir] l IH]; intros out Ho; simpl.
  - now exists out.
  - destruct out as [|[mul' ir'] out'].
    + destruct (0 <? mul) eqn:Hm; [|apply IH; exact I].
      apply IH. simpl. apply Nat.ltb_lt in Hm. auto.
    + destruct (Irreps.ir_eqb ir' ir) eqn:Hi.
      * apply IH. simpl in *. destruct Ho as (Hp & Hd & Hr). repeat split; auto. lia.
      * destruct (0 <? mul) eqn:Hm; [|now apply IH].
        apply IH. apply Nat.ltb_lt in Hm. simpl. repeat split; auto; try apply Ho.
        intros ->. now rewrite ir_eqb_refl in Hi.
Qed.

Lemma simplify_into_fixed (s out : Irreps.t) :
  simplified (rev s ++ out) -> Irreps.simplify_into out s = rev out ++ s.
Proof.
  revert out. induction s as [|[mul ir] s IH]; intros out Hs; simpl.
  - now rewrite app_nil_r.
  - simpl in Hs. rewrite <- app_assoc in Hs. simpl in Hs.
    assert (Hx := simplified_app_r _ _ Hs). simpl in Hx. destruct Hx as (Hp & Hd & _).
    apply Nat.ltb_lt in Hp. simpl in Hp.
    assert (E : Irreps.simplify_into ((mul, ir) :: out) s = rev out ++ (mul, ir) :: s).
    { rewrite IH by exact Hs. simpl. now rewrite <- app_assoc. }
    destruct out as [|[mul' ir'] out']; rewrite Hp; [exact E|].
    destruct (Irreps.ir_eqb ir' ir) eqn:Hi; [|exact E].
    apply ir_eqb_eq in Hi. subst ir'. now elim Hd.
Qed.

Lemma simplify_simplified (irs : Irreps.t) :
  exists o, Irreps.simplify irs = rev o /\ simplified o.
Proof. apply simplify_into_simplified. exact I. Qed.

Lemma simplify_idempotent (irs : Irreps.t) :
  Irreps.simplify (Irreps.simplify irs) = Irreps.simplify irs.
Proof.
  destruct (simplify_simplified irs) as (o & -> & Ho).
  unfold Irreps.simplify. rewrite simplify_into_fixed; [reflexivity|].
  now rewrite rev_involutive, app_nil_r.
Qed.

(** [IrrepsArray.simplify] never fails on a tensor that passes the
    constructor's checks: it returns a tensor over the simplified spec with
    the buffer of the argument, which passes the checks; the spec of the
    result is a fixed point of simplification and has the channels of the
    argument's spec. *)
Theorem simplify_spec (T : Type) (S : Scalar T) (t : IrrepsArray T) :
  checked t ->
  exists r,
    simplify t = Ok r
    /\ irreps r = Irreps.simplify (irreps t)
    /\ array r = array t
    /\ checked r
    /\ Irreps.simplify (irreps r) = irreps r
    /\ Irreps.channels (irreps r) = Irreps.channels (irreps t).
Proof.
  intros Hck.
  destruct (@convert_ok T S t (Irreps.simplify (irreps t)) Hck (simplify_idempotent _))
    as (t' & new_list & E & _ & _ & Hr).
  eexists. unfold simplify, convert. rewrite E. cbn [snd]. split; [reflexivity|].
  cbn [irreps array]. repeat split; auto.
  - apply simplify_idempotent.
  - apply channels_simplify.
Qed.

(** [simplify_spec] at a tensor over [1x0e + 2x0e + 0x1e + 1x1e]. *)
Lemma simplify_spec_witness :
  let t := mkIrrepsArray [(1, Irreps.ir0e); (2, Irreps.ir0e); (0, Irreps.ir1e); (1, Irreps.ir1e)]
             (mk [6] [1; 2; 3; 4; 5; 6]%Z) None in
  exists r,
    simplify t = Ok r
    /\ irreps r = [(3, Irreps.ir0e); (1, Irreps.ir1e)]
    /\ array r = mk [6] [1; 2; 3; 4; 5; 6]%Z.
Proof.
  intros t. destruct (@simplify_spec Z _ t) as (r & Er & Hirr & Harr & _).
  - reflexivity.
  - exists r. split; [exact Er|]. split; [exact Hirr | exact Harr].
Defined.

(** ** [from_any] *)

Section FromAny.
Context {T : Type} `{Scalar T}.

Lemma infer_fold (any : list (option (ndarray T))) (acc : option (list nat)) (lead : list nat) :
  (forall b, In (Some b) any -> firstn (length (shape b) - 2) (shape b) = lead) ->
  fold_left (fun leading_shape x =>
               match x with
               | None => leading_shape
               | Some x => Some (firstn (length (shape x) - 2) (shape x))
               end) any acc
  = if existsb (fun x => negb (is_none x)) any then Some lead else acc.
Proof.
  revert acc. induction any as [|[b|] any IH]; intros acc Hb; simpl; [reflexivity| |].
  - rewrite IH by (intros b' Hin; apply Hb; now right).
    rewrite (Hb b) by now left. now destruct (existsb _ any).
  - apply IH. intros b' Hin; apply Hb; now right.
Qed.

Lemma leading_of_block (lead : list nat) (m d : nat) :
  firstn (length (lead ++ [m; d]) - 2) (lead ++ [m; d]) = lead.
Proof.
  rewrite length_app. simpl. replace (length lead + 2 - 2) with (length lead + 0) by lia.
  rewrite firstn_app_2. simpl. apply app_nil_r.
Qed.

(** [from_any] on a list of blocks.  A list in which every element is
    [None] (the empty list included) is refused with [ValueError], whatever
    the spec: no leading shape can be inferred.  A list with a block
    that is not [None], whose blocks fit the spec under a leading shape,
    gives what [from_list] gives for that leading shape, and this is a
    tensor over the spec that stores the list. *)
Theorem from_any_list (irs : Irreps.t) (any : list (option (ndarray T))) :
  (existsb (fun x => negb (is_none x)) any = false ->
   from_any irs (AnyList any) = Raises ValueError)
  /\ (forall lead,
        existsb (fun x => negb (is_none x)) any = true ->
        Forall2 (block_fits lead) any irs ->
        exists arr,
          from_list irs any lead = Ok (mkIrrepsArray irs arr (Some any))
          /\ from_any irs (AnyList any) = Returns (mkIrrepsArray irs arr (Some any))).
Proof.
  split.
  - intros En. unfold from_any, infer_leading_shape.
    rewrite (@infer_fold any None []).
    + now rewrite En.
    + intros b Hin. exfalso. clear - En Hin.
      induction any as [|x any IH]; simpl in *; [easy|].
      apply orb_false_iff in En as [Ex En]. destruct Hin as [-> | Hin]; [discriminate | auto].
  - intros lead En Hfit. destruct (from_list_ok Hfit) as (arr & E & _).
    exists arr. split; [exact E|]. unfold from_any, infer_leading_shape.
    rewrite (@infer_fold any None lead).
    + rewrite En, E. reflexivity.
    + intros b Hin. clear - Hfit Hin.
      induction Hfit as [|x mi l irs Hx _ IH]; simpl in *; [easy|].
      destruct Hin as [-> | Hin]; [|auto]. simpl in Hx. rewrite Hx. apply leading_of_block.
Qed.

End FromAny.

(** ** Consecutive slices *)

Lemma py_slice_empty {X : Type} (i : nat) (l : list X) : py_slice i i l = [].
Proof.
  unfold py_slice. apply skipn_all2. rewrite length_firstn. lia.
Qed.

Lemma py_slice_app {X : Type} (i j k : nat) (l : list X) :
  i <= j -> j <= k -> py_slice i j l ++ py_slice j k l = py_slice i k l.
Proof.
  intros Hij Hjk. unfold py_slice.
  assert (E : firstn k l = firstn j l ++ skipn j (firstn k l)).
  { rewrite <- (firstn_skipn j (firstn k l)) at 1. rewrite firstn_firstn.
    now replace (Nat.min j k) with j by lia. }
  rewrite E at 2. rewrite skipn_app. f_equal.
  rewrite length_firstn.
  destruct (Nat.le_gt_cases j (length l)) as [Hl|Hl].
  - replace (i - Nat.min j (length l)) with 0 by lia. reflexivity.
  - rewrite (skipn_all2 (n := j)) by (rewrite length_firstn; lia). now rewrite skipn_nil.
Qed.

Lemma last_cons {X : Type} (c : X) (l : list X) (d : X) : last (c :: l) d = last l c.
Proof.
  revert c d. induction l as [|x l IH]; intros c d; [reflexivity|].
  change (last (c :: x :: l) d) with (last (x :: l) d). now rewrite !IH.
Qed.

Lemma sorted_last_ge (bs : list nat) (start : nat) :
  StronglySorted le (start :: bs) -> start <= last bs start.
Proof.
  revert start. induction bs as [|b bs IH]; intros start Hs; [simpl; lia|].
  rewrite last_cons. apply StronglySorted_inv in Hs as [Hs Hall].
  apply Forall_inv in Hall. specialize (IH b Hs). lia.
Qed.

Lemma concat_py_slices {X : Type} (l : list X) (bs : list nat) (start : nat) :
  StronglySorted le (start :: bs) ->
  concat (map (fun ij : nat * nat => py_slice (fst ij) (snd ij) l) (combine (start :: bs) bs))
  = py_slice start (last bs start) l.
Proof.
  revert start. induction bs as [|b bs IH]; intros start Hs.
  - simpl. now rewrite py_slice_empty.
  - change (combine (start :: b :: bs) (b :: bs)) with ((start, b) :: combine (b :: bs) bs).
    cbn [map concat fst snd]. rewrite last_cons.
    assert (Hs' := Hs). apply StronglySorted_inv in Hs' as [Hb Hall].
    rewrite (IH b Hb). apply py_slice_app.
    + now apply Forall_inv in Hall.
    + now apply sorted_last_ge.
Qed.

Lemma py_slice_all {X : Type} (l : list X) (n : nat) : length l <= n -> py_slice 0 n l = l.
Proof. intros Hn. unfold py_slice. simpl. now apply firstn_all2. Qed.

Lemma pairs_in (bs : list nat) (start n : nat) (ij : nat * nat) :
  StronglySorted le (start :: bs) ->
  last bs start <= n ->
  In ij (combine (start :: bs) bs) ->
  fst ij <= snd ij /\ snd ij <= n.
Proof.
  revert start. induction bs as [|b bs IH]; intros start Hs Hn Hin; [destruct Hin|].
  change (combine (start :: b :: bs) (b :: bs)) with ((start, b) :: combine (b :: bs) bs) in Hin.
  rewrite last_cons in Hn.
  assert (Hs' := Hs). apply StronglySorted_inv in Hs' as [Hb Hall].
  destruct Hin as [<- | Hin].
  - simpl. split; [now apply Forall_inv in Hall|].
    apply sorted_last_ge in Hb. lia.
  - now apply (IH b).
Qed.

(** ** The pieces of an array split at increasing bounds *)

Lemma split_from_chain {A : Type} (a : ndarray A) (k : nat) (bs : list nat) (start : nat) :
  StronglySorted le (start :: bs) ->
  last bs start <= at_axis k (shape a) ->
  split_from a k start bs
  = Ok (map (fun ij : nat * nat => take_axis a k (fst ij) (snd ij - fst ij))
          (combine (start :: bs) bs)).
Proof.
  revert start. induction bs as [|b bs IH]; intros start Hs Hn; [reflexivity|].
  change (combine (start :: b :: bs) (b :: bs)) with ((start, b) :: combine (b :: bs) bs).
  rewrite last_cons in Hn.
  assert (Hs' := Hs). apply StronglySorted_inv in Hs' as [Hb Hall].
  apply Forall_inv in Hall. assert (Hl := sorted_last_ge Hb).
  cbn [split_from].
  replace (start <=? b) with true by (symmetry; apply Nat.leb_le; lia).
  replace (b <=? at_axis k (shape a)) with true by (symmetry; apply Nat.leb_le; lia).
  cbn [andb]. rewrite (IH b Hb Hn). reflexivity.
Qed.

Lemma combine_trunc {X Y : Type} (a c : list X) (b : list Y) :
  length b <= length a -> combine (a ++ c) b = combine a b.
Proof.
  revert b. induction a as [|x a IH]; intros [|y b] Hl; simpl in *; try reflexivity; try lia.
  - now destruct c.
  - rewrite IH; [reflexivity | lia].
Qed.

Lemma combine_maps {X Y X' Y' : Type} (f : X -> X') (g : Y -> Y') (a : list X) (b : list Y) :
  combine (map f a) (map g b) = map (fun p => (f (fst p), g (snd p))) (combine a b).
Proof.
  revert b. induction a as [|x a IH]; intros [|y b]; simpl; try reflexivity. now rewrite IH.
Qed.

Lemma combine_with_map {X Y : Type} (g : X -> Y) (l : list X) :
  combine l (map g l) = map (fun x => (x, g x)) l.
Proof. induction l as [|x l IH]; simpl; [reflexivity | now rewrite IH]. Qed.

Lemma sorted_map_mono (f : nat -> nat) (l : list nat) :
  (forall i j, i <= j -> f i <= f j) ->
  StronglySorted le l -> StronglySorted le (map f l).
Proof.
  intros Hf. induction 1 as [|x l Hs IH Hall]; simpl; constructor; [exact IH|].
  rewrite Forall_map. eapply Forall_impl; [|exact Hall]. intros y Hy. now apply Hf.
Qed.

Lemma dim_app (a b : Irreps.t) : Irreps.dim (a ++ b) = Irreps.dim a + Irreps.dim b.
Proof. unfold Irreps.dim. now rewrite map_app, list_sum_app. Qed.

Lemma dim_firstn_le (irs : Irreps.t) (i j : nat) :
  i <= j -> Irreps.dim (firstn i irs) <= Irreps.dim (firstn j irs).
Proof.
  intros Hij. rewrite <- (firstn_skipn i (firstn j irs)), dim_app, firstn_firstn.
  replace (Nat.min i j) with i by lia. lia.
Qed.

Lemma dim_py_slice (irs : Irreps.t) (i j : nat) :
  i <= j ->
  Irreps.dim (py_slice i j irs) = Irreps.dim (firstn j irs) - Irreps.dim (firstn i irs).
Proof.
  intros Hij. unfold py_slice.
  rewrite <- (firstn_skipn i (firstn j irs)) at 2. rewrite dim_app, firstn_firstn.
  replace (Nat.min i j) with i by lia. lia.
Qed.

Lemma fits_py_slice {A : Type} (lead : list nat) (l : list (option (ndarray A)))
  (irs : Irreps.t) (i j : nat) :
  Forall2 (block_fits lead) l irs ->
  Forall2 (block_fits lead) (py_slice i j l) (py_slice i j irs).
Proof.
  intros Hfit. unfold py_slice.
  assert (Hf : forall n (l1 : list (option (ndarray A))) (l2 : Irreps.t),
             Forall2 (block_fits lead) l1 l2 ->
             Forall2 (block_fits lead) (firstn n l1) (firstn n l2)).
  { intros n l1 l2 H12. revert n. induction H12; intros [|n]; simpl; constructor; auto. }
  assert (Hk : forall n (l1 : list (option (ndarray A))) (l2 : Irreps.t),
             Forall2 (block_fits lead) l1 l2 ->
             Forall2 (block_fits lead) (skipn n l1) (skipn n l2)).
  { intros n l1 l2 H12. revert n. induction H12; intros [|n]; simpl; auto; constructor; auto. }
  auto.
Qed.

Lemma mapM_of_map {X Y Z : Type} (f : Y -> result Z) (h : X -> Y) (g : X -> Z) (l : list X) :
  (forall x, In x l -> f (h x) = Ok (g x)) -> mapM f (map h l) = Ok (map g l).
Proof.
  induction l as [|x l IH]; intros Hf; simpl; [reflexivity|].
  rewrite (Hf x) by now left. cbn [bind]. rewrite IH by (intros y Hy; apply Hf; now right).
  reflexivity.
Qed.


Lemma split_ints_ok {A : Type} (t : IrrepsArray A) (indices : list nat) :
  checked t ->
  StronglySorted le (indices ++ [length (irreps t)]) ->
  exists l,
    list_ t = Ok l
    /\ Forall2 (block_fits (removelast (shape_of t))) l (irreps t)
    /\ split_ints t indices
       = Ok (map (piece t l)
               (combine (0 :: indices ++ [length (irreps t)]) (indices ++ [length (irreps t)]))).
Proof.
  intros Hck Hsorted. destruct (checked_list_fits Hck) as (Hs & l & El & Hfit).
  exists l. split; [exact El|]. split; [exact Hfit|].
  set (irs := irreps t) in *. set (a := array t) in *.
  set (lead := removelast (shape a)) in *.
  set (bs := indices ++ [length irs]) in *.
  set (D := fun i => Irreps.dim (firstn i irs)).
  assert (H0 : StronglySorted le (0 :: bs)).
  { constructor; [exact Hsorted|]. apply Forall_forall. intros; lia. }
  assert (Hlast : last bs 0 = length irs) by (unfold bs; apply last_last).
  assert (HD : StronglySorted le (0 :: map D bs)).
  { change (0 :: map D bs) with (map D (0 :: bs)).
    apply sorted_map_mono; [|exact H0]. intros i j. apply dim_firstn_le. }
  assert (Hax := last_axis lead (Irreps.dim irs)). rewrite <- Hs in Hax.
  destruct Hax as (Hhas & Hpre & Hat & Hpost).
  assert (EDlen : D (length irs) = Irreps.dim irs) by (unfold D; now rewrite firstn_all).
  unfold split_ints. fold irs a. unfold jnp.split. rewrite Hhas.
  assert (Ebounds : map (fun i => Irreps.dim (firstn i irs)) indices ++ [at_axis 1 (shape a)]
                    = map D bs).
  { unfold bs. rewrite map_app. simpl. now rewrite Hat, EDlen. }
  rewrite Ebounds. rewrite (split_from_chain a 1 HD).
  2:{ rewrite Hat. unfold bs. rewrite map_app. cbn [map]. rewrite last_last, EDlen. lia. }
  cbn [bind]. rewrite length_map, length_combine. simpl length. rewrite length_map.
  replace (Nat.min (S (length bs)) (length bs) =? length indices + 1) with true.
  2:{ symmetry. apply Nat.eqb_eq. unfold bs. rewrite length_app. cbn [length]. lia. }
  cbn [assert bind]. rewrite El. cbn [bind]. fold bs.
  replace (combine (0 :: indices) bs) with (combine (0 :: bs) bs).
  2:{ unfold bs. rewrite (combine_trunc (0 :: indices) [length irs]); [reflexivity|].
      rewrite length_app. simpl. lia. }
  change (0 :: map D bs) with (map D (0 :: bs)).
  rewrite combine_maps, map_map, combine_with_map.
  apply mapM_of_map. intros [i j] Hin. cbn [fst snd].
  destruct (@pairs_in bs 0 (length irs) (i, j) H0 (Nat.eq_le_incl _ _ Hlast) Hin) as [Hij Hj].
  cbn [fst snd] in Hij, Hj. unfold piece. cbn [fst snd]. fold irs a D.
  apply init_with_list with (lead := lead).
  - rewrite (@take_last_shape _ a lead (Irreps.dim irs)) by exact Hs.
    now rewrite dim_py_slice.
  - now apply fits_py_slice.
Qed.

(** ** Concatenating the pieces of a split *)

Lemma take_last_row {A : Type} (a : ndarray A) (lead : list nat) (n c w r : nat) :
  shape a = lead ++ [n] ->
  jnp.wf a ->
  c + w <= n ->
  r < size lead ->
  chunk w r (data (take_axis a 1 c w)) = py_slice c (c + w) (chunk n r (data a)).
Proof.
  intros Hs Hwf Hcw Hr. unfold take_axis.
  destruct (last_axis lead n) as (_ & Hpre & Hat & Hpost). rewrite <- Hs in Hpre, Hat, Hpost.
  rewrite Hpre, Hat, Hpost. cbn [data size fold_right]. rewrite !Nat.mul_1_r.
  assert (Hlen : length (data a) = size lead * n).
  { unfold jnp.wf in Hwf. rewrite Hwf, Hs, size_app. simpl. lia. }
  rewrite chunk_flat_map with (w := w); [|intros k Hk|exact Hr].
  - simpl. unfold py_slice. apply firstn_skipn_comm.
  - rewrite length_firstn, length_skipn, (@chunk_length _ n k (size lead)); [lia|exact Hlen|lia].
Qed.

Lemma concat_pieces_data {A : Type} (a : ndarray A) (lead : list nat) (n : nat)
  (cs : list nat) :
  shape a = lead ++ [n] ->
  jnp.wf a ->
  StronglySorted le (0 :: cs) ->
  last cs 0 = n ->
  flat_map (fun r =>
              flat_map (fun p : ndarray A => chunk (at_axis 1 (shape p) * 1) r (data p))
                (map (fun ij : nat * nat => take_axis a 1 (fst ij) (snd ij - fst ij))
                   (combine (0 :: cs) cs)))
    (seq 0 (size lead))
  = data a.
Proof.
  intros Hs Hwf Hsorted Hlast.
  assert (Hlen : length (data a) = size lead * n).
  { unfold jnp.wf in Hwf. rewrite Hwf, Hs, size_app. simpl. lia. }
  rewrite <- (@flat_map_chunks _ n (size lead) (data a) Hlen) at 1.
  apply flat_map_ext_in. intros r Hr. apply in_seq in Hr.
  rewrite flat_map_concat_map, map_map.
  rewrite (map_ext_in _ (fun ij : nat * nat => py_slice (fst ij) (snd ij) (chunk n r (data a)))).
  - rewrite (concat_py_slices _ Hsorted), Hlast. apply py_slice_all.
    rewrite (@chunk_length _ n r (size lead)); [lia | exact Hlen | lia].
  - intros [i j] Hin.
    destruct (@pairs_in cs 0 n (i, j) Hsorted (Nat.eq_le_incl _ _ Hlast) Hin) as [Hij Hj].
    cbn [fst snd] in *.
    rewrite (@take_last_shape _ a lead n) by exact Hs.
    destruct (last_axis lead (j - i)) as (_ & _ & -> & _). rewrite Nat.mul_1_r.
    rewrite (@take_last_row _ a lead n i (j - i) r Hs Hwf) by lia.
    now replace (i + (j - i)) with j by lia.
Qed.

Section ConcatenateSplit.
Context {T : Type} `{Scalar T}.

Lemma norm_last_axis (n : nat) (axis : Z) :
  0 < n ->
  axis = (-1)%Z \/ axis = (Z.of_nat n - 1)%Z ->
  ((- Z.of_nat n <=? axis)%Z && (axis <? Z.of_nat n)%Z) = true /\ norm_axis n axis = n - 1.
Proof.
  intros Hn Hax. split.
  - apply andb_true_iff. rewrite Z.leb_le, Z.ltb_lt. lia.
  - unfold norm_axis. destruct Hax as [-> | ->].
    + replace (-1)%Z with (Z.of_nat n - 1 + (-1) * Z.of_nat n)%Z by lia.
      rewrite Z.mod_add by lia. rewrite Z.mod_small by lia. lia.
    + rewrite Z.mod_small by lia. lia.
Qed.

(** Concatenating along the last axis the pieces that [split] returns for
    integer boundaries gives the tensor back.  For a tensor [t] that passes
    the constructor's checks, with a well-formed buffer, and boundaries
    [indices] that do not decrease and do not exceed the number of entries
    of the spec, [split] returns [len(indices) + 1] pieces, and
    [concatenate] of them along the last axis ([axis=-1] or
    [axis=ndim-1]) returns the spec, the buffer and the block list of
    [t]. *)
Theorem concatenate_split (t : IrrepsArray T) (indices : list nat) (axis : Z) :
  checked t ->
  jnp.wf (array t) ->
  StronglySorted le (indices ++ [length (irreps t)]) ->
  axis = (-1)%Z \/ axis = (Z.of_nat (ndim (array t)) - 1)%Z ->
  exists parts l,
    split t (Ints indices) = Ok parts
    /\ length parts = length indices + 1
    /\ list_ t = Ok l
    /\ concatenate_ parts axis = Ok (mkIrrepsArray (irreps t) (array t) (Some l)).
Proof.
  intros Hck Hwf Hsorted Hax.
  destruct (split_ints_ok indices Hck Hsorted) as (l & El & Hfit & E).
  destruct (checked_list_fits Hck) as (Hs & _). unfold shape_of in Hfit.
  set (irs := irreps t) in *. set (a := array t) in *.
  set (lead := removelast (shape a)) in *.
  set (bs := indices ++ [length irs]) in *.
  set (P := combine (0 :: bs) bs) in *.
  exists (map (piece t l) P), l.
  split; [exact E|]. split.
  { unfold P. rewrite length_map, length_combine. unfold bs. simpl length.
    rewrite length_app. cbn [length]. lia. }
  split; [exact El|].
  assert (H0 : StronglySorted le (0 :: bs)).
  { constructor; [exact Hsorted|]. apply Forall_forall. intros; lia. }
  assert (Hlast : last bs 0 = length irs) by (unfold bs; apply last_last).
  assert (HP : exists p0 P', P = p0 :: P').
  { unfold P, bs. destruct indices; simpl; eauto. }
  destruct HP as (p0 & P' & EP).
  assert (Hnd : ndim (array (piece t l p0)) = ndim a).
  { unfold piece, ndim. cbn [array]. fold a.
    rewrite (@take_last_shape _ a lead (Irreps.dim irs)) by exact Hs.
    rewrite Hs, !length_app. reflexivity. }
  assert (Hn : 0 < ndim a) by (unfold ndim; rewrite Hs, length_app; simpl; lia).
  assert (Emap : map (piece t l) P = piece t l p0 :: map (piece t l) P') by now rewrite EP.
  unfold concatenate_. rewrite Emap. cbn beta iota. rewrite <- Emap. rewrite Hnd.
  destruct (norm_last_axis Hn Hax) as [-> ->]. cbn [assert bind]. rewrite Nat.eqb_refl.
  rewrite map_map.
  set (D := fun i => Irreps.dim (firstn i irs)).
  assert (HD : StronglySorted le (0 :: map D bs)).
  { change (0 :: map D bs) with (map D (0 :: bs)).
    apply sorted_map_mono; [|exact H0]. intros i j. apply dim_firstn_le. }
  assert (EDlen : D (length irs) = Irreps.dim irs) by (unfold D; now rewrite firstn_all).
  assert (HDlast : last (map D bs) 0 = Irreps.dim irs).
  { unfold bs. rewrite map_app. cbn [map]. now rewrite last_last. }
  assert (Earrs : map (fun x => array (piece t l x)) P
                  = map (fun ij : nat * nat => take_axis a 1 (fst ij) (snd ij - fst ij))
                      (combine (0 :: map D bs) (map D bs))).
  { change (0 :: map D bs) with (map D (0 :: bs)). rewrite combine_maps, map_map.
    reflexivity. }
  rewrite Earrs.
  rewrite (@concatenate_last_ok _ _ lead
             (map (fun ij : nat * nat => snd ij - fst ij) (combine (0 :: map D bs) (map D bs)))).
  2:{ clear - Hs. induction (combine (0 :: map D bs) (map D bs)) as [|ij q IH]; simpl;
        constructor; [|exact IH].
      now rewrite (@take_last_shape _ a lead (Irreps.dim irs)) by exact Hs. }
  2:{ unfold bs. destruct indices; simpl; discriminate. }
  cbn [bind].
  rewrite (@concat_pieces_data _ a lead (Irreps.dim irs) (map D bs) Hs Hwf HD HDlast).
  assert (Esum : list_sum (map (fun ij : nat * nat => snd ij - fst ij)
                             (combine (0 :: map D bs) (map D bs))) = Irreps.dim irs).
  { change (0 :: map D bs) with (map D (0 :: bs)). rewrite combine_maps, map_map.
    cbn [fst snd]. fold P.
    rewrite (map_ext_in _ (fun ij : nat * nat =>
                             Irreps.dim (py_slice (fst ij) (snd ij) irs))).
    - rewrite <- (map_map (fun ij : nat * nat => py_slice (fst ij) (snd ij) irs) Irreps.dim).
      rewrite <- dim_concat. unfold P. rewrite (concat_py_slices _ H0), Hlast.
      now rewrite py_slice_all.
    - intros [i j] Hin.
      destruct (@pairs_in bs 0 (length irs) (i, j) H0 (Nat.eq_le_incl _ _ Hlast) Hin)
        as [Hij Hj].
      cbn [fst snd] in *. now rewrite dim_py_slice. }
  rewrite Esum, <- Hs.
  assert (Ea : mk (shape a) (data a) = a) by (destruct a; reflexivity).
  rewrite Ea.
  rewrite (@mapM_of_map _ _ _ (fun x : IrrepsArray T => list_ x) (piece t l)
             (fun ij : nat * nat => py_slice (fst ij) (snd ij) l)).
  2:{ intros ij _. reflexivity. }
  cbn [bind]. rewrite map_map. unfold piece. cbn [irreps]. fold irs.
  unfold P.
  match goal with
  | |- __init__ ?i _ (Some ?ll) _ = _ => replace i with irs; [replace ll with l|]
  end.
  - apply init_with_list with (lead := lead); assumption.
  - rewrite (concat_py_slices l H0), Hlast. symmetry. apply py_slice_all.
    rewrite (Forall2_length Hfit). lia.
  - symmetry. etransitivity; [exact (concat_py_slices irs H0)|].
    rewrite Hlast. now apply py_slice_all.
Qed.

End ConcatenateSplit.

(** [concatenate_split] at a tensor over [0e + 1e] split after its first
    entry. *)
Lemma concatenate_split_witness :
  let t := mkIrrepsArray [(1, Irreps.ir0e); (1, Irreps.ir1e)] (mk [4] [1; 2; 3; 4]%Z) None in
  exists parts l,
    split t (Ints [1]) = Ok parts
    /\ length parts = 2
    /\ list_ t = Ok l
    /\ concatenate_ parts (-1) = Ok (mkIrrepsArray (irreps t) (array t) (Some l)).
Proof.
  intros t. apply (@concatenate_split Z _ t [1] (-1)%Z).
  - reflexivity.
  - reflexivity.
  - repeat constructor.
  - now left.
Defined.

(** ** Addition and subtraction *)

Section AddSub.
Context {T : Type} `{Scalar T}.
Variable negative : T -> T.

Lemma all_scalar_even (irs : Irreps.t) :
  forallb (fun mi : Irreps.MulIr => Irreps.ir_eqb (snd mi) Irreps.ir0e) irs = false
  <-> exists mi, In mi irs /\ snd mi <> Irreps.ir0e.
Proof.
  induction irs as [|mi irs IH]; simpl.
  - split; [discriminate | intros (? & [] & _)].
  - rewrite andb_false_iff, IH. split.
    + intros [Hm | (mi' & Hin & Hne)].
      * exists mi. split; [now left|]. intros E. now rewrite (proj2 (ir_eqb_eq _ _) E) in Hm.
      * exists mi'. auto.
    + intros (mi' & [<- | Hin] & Hne).
      * left. destruct (Irreps.ir_eqb (snd mi) Irreps.ir0e) eqn:E; [|reflexivity].
        apply ir_eqb_eq in E. contradiction.
      * right. eauto.
Qed.


(** The equivariance guards of [+] and [-].  With a tensor on the right,
    [x + y] and [x - y] raise the equivariance error exactly when the two
    specs differ.  With anything else on the right they raise it exactly
    when some entry of the spec of [x] is not the even scalar [0e]. *)
Theorem add_sub_guards (x : IrrepsArray T) :
  (forall y : IrrepsArray T,
     (__add__ x (Tensor y) = Raise EquivarianceViolation <-> irreps x <> irreps y)
     /\ (__sub__ negative x (Tensor y) = Raise EquivarianceViolation <-> irreps x <> irreps y))
  /\ (forall v : ndarray T,
        (__add__ x (Bare v) = Raise EquivarianceViolation
         <-> exists mi, In mi (irreps x) /\ snd mi <> Irreps.ir0e)
        /\ (__sub__ negative x (Bare v) = Raise EquivarianceViolation
            <-> exists mi, In mi (irreps x) /\ snd mi <> Irreps.ir0e)).
Proof.
  split.
  - intros y. unfold __add__, __sub__.
    destruct (Irreps.eqb (irreps x) (irreps y)) eqn:E; cbn [negb].
    + apply irreps_eqb_eq in E. split; (split; [|congruence]); intros Hr; exfalso;
        revert Hr; apply raises_only_neq; try apply not_benign_equivariance.
      * apply raises_only_bind; [apply list_benign|]. intros l1 _.
        apply raises_only_bind; [apply list_benign|]. intros l2 _.
        apply raises_only_bind.
        { apply raises_only_mapM. intros [[a|] [b|]]; simpl; try exact I.
          apply raises_only_bind; [apply map2_benign | intros; exact I]. }
        intros lst _.
        apply raises_only_bind; [apply map2_benign|]. intros r _. apply init_benign.
      * apply raises_only_bind; [apply list_benign|]. intros l1 _.
        apply raises_only_bind; [apply list_benign|]. intros l2 _.
        apply raises_only_bind.
        { apply raises_only_mapM. intros [[a|] [b|]]; simpl; try exact I.
          apply raises_only_bind; [apply map2_benign | intros; exact I]. }
        intros lst _.
        apply raises_only_bind; [apply map2_benign|]. intros r _. apply init_benign.
    + apply irreps_eqb_neq in E. tauto.
  - intros v. unfold __add__, __sub__. rewrite <- all_scalar_even.
    destruct (forallb _ (irreps x)).
    + split; (split; [|discriminate]); intros Hr; exfalso; revert Hr;
        apply raises_only_neq; try apply not_benign_equivariance;
        (apply raises_only_bind; [apply map2_benign | intros; apply init_benign]).
    + tauto.
Qed.

Lemma sub_none_blocks (l : list (option (ndarray T))) :
  mapM (sub_blocks negative) (combine l (repeat None (length l))) = Ok l.
Proof.
  induction l as [|x l IH]; simpl; [reflexivity|]. rewrite IH. now destruct x.
Qed.

Lemma sub_zero_data (d : list T) :
  (forall x, sub x zero = x) ->
  map (fun xy => sub (fst xy) (snd xy)) (combine d (repeat zero (length d))) = d.
Proof.
  intros Hsub. induction d as [|x d IH]; simpl; [reflexivity|]. now rewrite Hsub, IH.
Qed.

(** For a tensor [t] that passes the constructor's checks, with a
    well-formed buffer, over elements from which subtracting zero changes
    nothing, [t - zeros(t.irreps, t.shape[:-1])] returns the spec, the
    buffer and the block list of [t]. *)
Theorem sub_zeros_identity (t : IrrepsArray T) :
  checked t ->
  jnp.wf (array t) ->
  (forall x : T, sub x zero = x) ->
  exists l,
    list_ t = Ok l
    /\ (z <- zeros (irreps t) (removelast (shape_of t)) ;; __sub__ negative t (Tensor z))
       = Ok (mkIrrepsArray (irreps t) (array t) (Some l)).
Proof.
  intros Hck Hwf Hsub.
  destruct (checked_list_fits Hck) as (Hshape & l & El & Hfit).
  exists l. unfold shape_of. split; [exact El|].
  rewrite zeros_ok, <- Hshape. cbn [bind]. unfold __sub__. cbn [irreps array].
  rewrite (proj2 (irreps_eqb_eq _ _) eq_refl). cbn [negb]. rewrite El. cbn [bind].
  unfold list_ at 1, list_cached. cbn [_list bind].
  rewrite <- (Forall2_length Hfit), sub_none_blocks. cbn [bind].
  rewrite map2_same_shape; [|reflexivity | exact Hwf |].
  - cbn [bind jnp.zeros full data]. unfold jnp.wf in Hwf. rewrite <- Hwf.
    rewrite (sub_zero_data _ Hsub).
    assert (Earr : mk (shape (array t)) (data (array t)) = array t)
      by (destruct (array t); reflexivity).
    rewrite Earr. unfold __init__. rewrite Hshape at 1. rewrite last_dim_app. cbn [bind].
    rewrite Nat.eqb_refl, (Forall2_length Hfit), Nat.eqb_refl. cbn [negb].
    now rewrite (forallb_fits Hfit).
  - unfold jnp.wf, jnp.zeros, full. cbn [data shape]. apply repeat_length.
Qed.

End AddSub.

(** [sub_zeros_identity] at a tensor over [0e + 1e] with integer elements. *)
Lemma sub_zeros_identity_witness :
  let t := mkIrrepsArray [(1, Irreps.ir0e); (1, Irreps.ir1e)] (mk [4] [0; 2; 3; 4]%Z)
             (Some [None; Some (mk [1; 3] [2; 3; 4]%Z)]) in
  (z <- zeros (irreps t) (removelast (shape_of t)) ;; __sub__ Z.opp t (Tensor z))
  = Ok (mkIrrepsArray (irreps t) (array t) (Some [None; Some (mk [1; 3] [2; 3; 4]%Z)])).
Proof.
  intros t.
  destruct (@sub_zeros_identity Z _ Z.opp t) as (l & El & E).
  - reflexivity.
  - reflexivity.
  - intros x. apply Z.sub_0_r.
  - injection El as <-. exact E.
Defined.

(** ** Comparison of two tensors *)





Lemma reduce_dims_drop_last (lead : list nat) (m d k : nat) :
  reduce_dims [k + length lead + 1] false k (lead ++ [m; d]) = lead ++ [m].
Proof.
  revert k. induction lead as [|n lead IH]; intros k; cbn [app length reduce_dims existsb].
  - rewrite Nat.add_0_r.
    replace (k =? k + 1) with false by (symmetry; apply Nat.eqb_neq; lia).
    replace (S k =? k + 1) with true by (symmetry; apply Nat.eqb_eq; lia). reflexivity.
  - replace (k =? k + S (length lead) + 1) with false by (symmetry; apply Nat.eqb_neq; lia).
    cbn [orb app]. f_equal.
    replace (k + S (length lead) + 1) with (S k + length lead + 1) by lia. apply IH.
Qed.

Lemma norm_axis_last (n : nat) : norm_axis (n + 2) (-1) = 0 + n + 1.
Proof.
  unfold norm_axis.
  rewrite <- (Z.mod_unique (-1) (Z.of_nat (n + 2)) (-1) (Z.of_nat (n + 1)));
    [rewrite Nat2Z.id; lia | left; lia | lia].
Qed.

Lemma indices_size (s : list nat) : length (indices s) = size s.
Proof. rewrite <- (length_map (offset s)), offsets_of_indices. apply length_seq. Qed.

Lemma forallb_all_true (l : list bool) : Forall (fun b => b = true) l -> forallb (fun b => b) l = true.
Proof. induction 1 as [|b l Hb _ IH]; simpl; [reflexivity | now rewrite Hb, IH]. Qed.

(** [jnp.all] over the last axis of an array whose elements are all [True]. *)
Lemma all_of_true (c : ndarray bool) (lead : list nat) (m d : nat) :
  shape c = lead ++ [m; d] ->
  Forall (fun b => b = true) (data c) ->
  all_ c [(-1)%Z] false = Ok (mk (lead ++ [m]) (repeat true (size (lead ++ [m])))).
Proof.
  intros Hs Hall. unfold all_, reduce. rewrite Hs.
  rewrite (proj1 (reduce_shape_last_axis lead m d)).
  unfold reduce_shape. rewrite length_app. cbn [length map].
  rewrite norm_axis_last, reduce_dims_drop_last, reduce_dims_last_axis. do 2 f_equal.
  rewrite (map_ext_in _ (fun _ => true)).
  - rewrite map_const, indices_size. f_equal. rewrite !size_app. simpl. lia.
  - intros o _. apply forallb_all_true. apply Forall_flat_map. apply Forall_forall.
    intros i _. destruct (shape_eqb _ o); [|constructor].
    destruct (nth_error (data c) _) eqn:E; [|constructor].
    constructor; [|constructor]. apply nth_error_In in E.
    now apply (proj1 (Forall_forall _ _) Hall).
Qed.

Section EqTensor.
Context {T : Type} `{Scalar T}.



Lemma eq_blocks_refl (lead : list nat) (l : list (option (ndarray T))) (irs : Irreps.t) :
  (forall x : T, eqb x x = true) ->
  Forall2 (block_wf lead) l irs ->
  mapM (fun mxy : (Irreps.MulIr * option (ndarray T)) * option (ndarray T) =>
          r <- eq_blocks lead (fst (fst (fst mxy))) (snd (fst mxy)) (snd mxy) ;;
          Ok (Some (expand_last r)))
    (combine (combine irs l) l)
  = Ok (map (true_block lead) irs).
Proof.
  intros Heq. induction 1 as [|x mi l irs Hx _ IH]; [reflexivity|].
  cbn [combine mapM fst snd map]. rewrite IH.
  assert (E : eq_blocks lead (fst mi) x x
              = Ok (mk (lead ++ [fst mi]) (repeat true (size (lead ++ [fst mi]))))).
  { unfold eq_blocks. destruct x as [b|]; [|reflexivity].
    destruct Hx as [Hs Hwf].
    rewrite map2_same_shape; [|reflexivity | exact Hwf | exact Hwf]. cbn [bind].
    apply all_of_true with (d := Irreps.ir_dim (snd mi)); [exact Hs|]. cbn [data].
    clear - Heq. induction (data b) as [|v d IH]; simpl; constructor; auto. }
  rewrite E. reflexivity.
Qed.

Lemma true_blocks_wf (lead : list nat) (irs : Irreps.t) :
  Forall2 (block_wf lead) (map (true_block lead) irs)
    (map (fun mi : Irreps.MulIr => (fst mi, Irreps.ir0e)) irs).
Proof.
  induction irs as [|mi irs IH]; simpl; constructor; [|exact IH].
  unfold true_block, block_wf, jnp.wf. cbn [fst snd shape data]. split.
  - now rewrite <- app_assoc.
  - rewrite repeat_length, (size_app (lead ++ [fst mi]) [1]). simpl. lia.
Qed.

Lemma dim_scalars (irs : Irreps.t) :
  Irreps.dim (map (fun mi : Irreps.MulIr => (fst mi, Irreps.ir0e)) irs) = Irreps.num_irreps irs.
Proof.
  unfold Irreps.dim, Irreps.num_irreps. induction irs as [|mi irs IH]; [reflexivity|].
  unfold list_sum in *. cbn [map fold_right]. rewrite IH.
  unfold Irreps.mulir_dim, Irreps.ir_dim, Irreps.ir0e. cbn [fst snd Irreps.l]. lia.
Qed.

Lemma chunk_forall {X : Type} (P : X -> Prop) (w r : nat) (d : list X) :
  Forall P d -> Forall P (chunk w r d).
Proof.
  intros Hd. unfold chunk.
  rewrite <- (firstn_skipn (r * w) d) in Hd. apply Forall_app in Hd as [_ Hd].
  rewrite <- (firstn_skipn w (skipn (r * w) d)) in Hd. now apply Forall_app in Hd as [Hd _].
Qed.

(** A tensor compared with itself.  For a tensor [t] that passes the
    constructor's checks, whose blocks are well formed, over elements that
    are equal to themselves, [t == t] returns a boolean tensor over the
    spec of [t] with every irrep replaced by the even scalar; its buffer
    has one element per irrep channel and every element is [True]; every
    block is present, also where the block of [t] is [None]. *)
Theorem eq_tensor_refl (t : IrrepsArray T) (l : list (option (ndarray T))) :
  checked t ->
  list_ t = Ok l ->
  Forall2 (block_wf (removelast (shape_of t))) l (irreps t) ->
  (forall x : T, eqb x x = true) ->
  exists r,
    __eq__tensor t t = Ok r
    /\ irreps r = map (fun mi : Irreps.MulIr => (fst mi, Irreps.ir0e)) (irreps t)
    /\ _list r = Some (map (true_block (removelast (shape_of t))) (irreps t))
    /\ shape_of r = removelast (shape_of t) ++ [Irreps.num_irreps (irreps t)]
    /\ Forall (fun b => b = true) (data (array r)).
Proof.
  intros Hck El Hwf Heq. set (lead := removelast (shape_of t)) in *.
  destruct (from_list_ok (block_wf_fits (true_blocks_wf lead (irreps t))))
    as (arr & E & Hsa & Hpos & Hzero).
  eexists. unfold __eq__tensor. rewrite (proj2 (irreps_eqb_eq _ _) eq_refl). cbn [negb].
  fold lead. rewrite broadcast_shapes_same. cbn [bind]. rewrite El. cbn [bind].
  rewrite (eq_blocks_refl Heq Hwf). cbn [bind]. rewrite E.
  split; [reflexivity|]. cbn [irreps _list array]. unfold shape_of. cbn [array].
  repeat split; auto.
  - now rewrite Hsa, dim_scalars.
  - destruct (Nat.eq_dec (Irreps.dim (map (fun mi : Irreps.MulIr => (fst mi, Irreps.ir0e))
                                        (irreps t))) 0) as [Hd|Hd].
    + rewrite (Hzero Hd). constructor.
    + rewrite Hpos by lia. apply Forall_flat_map, Forall_forall. intros r _.
      apply Forall_flat_map, Forall_forall. intros [mi x] Hin. cbn [fst snd].
      apply chunk_forall.
      apply in_combine_r in Hin. apply in_map_iff in Hin as (mi' & <- & _).
      unfold true_block, block_data. cbn [data].
      apply Forall_forall. intros b Hb. now apply List.repeat_spec in Hb.
Qed.

End EqTensor.

(** [eq_tensor_refl] at a tensor over [0e + 1e] whose first block is
    [None]. *)
Lemma eq_tensor_refl_witness :
  let t := mkIrrepsArray [(1, Irreps.ir0e); (1, Irreps.ir1e)] (mk [4] [0; 2; 3; 4]%Z)
             (Some [None; Some (mk [1; 3] [2; 3; 4]%Z)]) in
  exists r,
    __eq__tensor t t = Ok r
    /\ irreps r = [(1, Irreps.ir0e); (1, Irreps.ir0e)]
    /\ shape_of r = [2]
    /\ Forall (fun b => b = true) (data (array r)).
Proof.
  intros t.
  destruct (@eq_tensor_refl Z _ t [None; Some (mk [1; 3] [2; 3; 4]%Z)])
    as (r & Er & Hirr & _ & Hs & Hall).
  - reflexivity.
  - reflexivity.
  - repeat constructor.
  - intros x. apply Z.eqb_refl.
  - exists r. split; [exact Er|]. split; [exact Hirr|]. split; [exact Hs | exact Hall].
Defined.

(** ** Moving multiplicity to and from the axis before the last *)

Section FactorRepeat.
Context {T : Type} `{Scalar T}.

Lemma from_list_inv (irs : Irreps.t) (l : list (option (ndarray T))) (lead : list nat)
  (t : IrrepsArray T) :
  from_list irs l lead = Ok t ->
  Forall2 (block_fits lead) l irs
  /\ exists arr, t = mkIrrepsArray irs arr (Some l) /\ shape arr = lead ++ [Irreps.dim irs].
Proof.
  intros E. assert (Hfit : Forall2 (block_fits lead) l irs).
  { unfold from_list in E.
    destruct (length irs =? length l) eqn:Hl; cbn [negb] in E; [|discriminate].
    destruct (forallb _ (combine l irs)) eqn:Hf; cbn [negb] in E; [|discriminate].
    apply Nat.eqb_eq in Hl. now apply fits_of_forallb. }
  split; [exact Hfit|]. destruct (from_list_ok Hfit) as (arr & E' & Hs & _).
  exists arr. split; [congruence | exact Hs].
Qed.


Lemma div_mul_exact (mul f : nat) : 0 < f -> mul mod f = 0 -> f * (mul / f) = mul.
Proof.
  intros Hf Hm. rewrite (Nat.div_mod_eq mul f) at 2. lia.
Qed.

Lemma factor_blocks (lead : list nat) (f : nat) (l : list (option (ndarray T))) (irs : Irreps.t) :
  0 < f ->
  Forall (fun mi : Irreps.MulIr => fst mi mod f = 0) irs ->
  Forall2 (block_fits lead) l irs ->
  mapM (fun mx : Irreps.MulIr * option (ndarray T) =>
          match snd mx with
          | None => Ok None
          | Some x =>
              r <- reshape x (lead ++ [f; fst (fst mx); Irreps.ir_dim (snd (fst mx))]) ;;
              Ok (Some r)
          end)
    (combine (map (fun mi : Irreps.MulIr => (fst mi / f, snd mi)) irs) l)
  = Ok (map (factored lead f) (combine irs l))
  /\ Forall2 (block_fits (lead ++ [f])) (map (factored lead f) (combine irs l))
       (map (fun mi : Irreps.MulIr => (fst mi / f, snd mi)) irs).
Proof.
  intros Hf Hdiv Hfit. induction Hfit as [|x mi l irs Hx _ IH]; [split; [reflexivity|constructor]|].
  apply Forall_cons_iff in Hdiv as [Hm Hdiv]. destruct (IH Hdiv) as [E Hfit'].
  cbn [map combine mapM fst snd]. rewrite E. split.
  - destruct x as [b|]; [|reflexivity]. simpl in Hx. unfold reshape. rewrite Hx.
    replace (size (lead ++ [fst mi; Irreps.ir_dim (snd mi)])
             =? size (lead ++ [f; fst mi / f; Irreps.ir_dim (snd mi)])) with true.
    + reflexivity.
    + symmetry. apply Nat.eqb_eq. rewrite !size_app. cbn [size fold_right].
      rewrite <- (@div_mul_exact (fst mi) f Hf Hm) at 1. lia.
  - constructor; [|exact Hfit']. destruct x as [b|]; [|exact I].
    unfold factored, block_fits. cbn [fst snd shape]. now rewrite <- app_assoc.
Qed.

Lemma repeat_blocks (lead : list nat) (f : nat) (l : list (option (ndarray T))) (irs : Irreps.t) :
  0 < f ->
  Forall (fun mi : Irreps.MulIr => fst mi mod f = 0) irs ->
  Forall2 (block_fits lead) l irs ->
  map (fun mi : Irreps.MulIr => (f * fst mi, snd mi))
    (map (fun mi : Irreps.MulIr => (fst mi / f, snd mi)) irs) = irs
  /\ mapM (fun mx : Irreps.MulIr * option (ndarray T) =>
             match snd mx with
             | None => Ok None
             | Some x =>
                 r <- reshape x (lead ++ [fst (fst mx); Irreps.ir_dim (snd (fst mx))]) ;;
                 Ok (Some r)
             end)
       (combine irs (map (factored lead f) (combine irs l)))
     = Ok l.
Proof.
  intros Hf Hdiv Hfit. induction Hfit as [|x mi l irs Hx _ IH]; [split; reflexivity|].
  apply Forall_cons_iff in Hdiv as [Hm Hdiv]. destruct (IH Hdiv) as [Ei El].
  cbn [map combine mapM fst snd]. rewrite Ei, El, (@div_mul_exact (fst mi) f Hf Hm). split.
  - now destruct mi.
  - destruct x as [b|]; [|reflexivity]. simpl in Hx. unfold factored, reshape.
    cbn [fst snd shape data bind].
    replace (size (lead ++ [f; fst mi / f; Irreps.ir_dim (snd mi)])
             =? size (lead ++ [fst mi; Irreps.ir_dim (snd mi)])) with true.
    + cbn [bind]. rewrite <- Hx. now destruct b.
    + symmetry. apply Nat.eqb_eq. rewrite !size_app. cbn [size fold_right].
      rewrite <- (@div_mul_exact (fst mi) f Hf Hm) at 2. lia.
Qed.

Lemma dim_factored (f : nat) (irs : Irreps.t) :
  0 < f ->
  Forall (fun mi : Irreps.MulIr => fst mi mod f = 0) irs ->
  Irreps.dim (map (fun mi : Irreps.MulIr => (fst mi / f, snd mi)) irs) = Irreps.dim irs / f.
Proof.
  intros Hf Hdiv.
  assert (E : Irreps.dim irs
              = f * Irreps.dim (map (fun mi : Irreps.MulIr => (fst mi / f, snd mi)) irs)).
  { unfold Irreps.dim, list_sum. induction Hdiv as [|mi irs Hm _ IH]; [simpl; lia|].
    cbn [map fold_right]. rewrite IH. unfold Irreps.mulir_dim. cbn [fst snd].
    rewrite <- (@div_mul_exact (fst mi) f Hf Hm) at 1. lia. }
  rewrite E, Nat.mul_comm, Nat.div_mul; [reflexivity | lia].
Qed.

Lemma factor_mul_positive (t : IrrepsArray T) (factor : nat) :
  0 < factor ->
  factor_mul_to_last_axis t (Some factor)
  = if negb (forallb (fun mi : Irreps.MulIr => fst mi mod factor =? 0) (irreps t))
    then Raises ValueError
    else
      let irreps := map (fun mi : Irreps.MulIr => (fst mi / factor, snd mi)) (irreps t) in
      lift (l <- list_ t ;;
            lst <- mapM (fun mx : Irreps.MulIr * option (ndarray T) =>
                           match snd mx with
                           | None => Ok None
                           | Some x =>
                               r <- reshape x (removelast (shape_of t)
                                               ++ [factor; fst (fst mx);
                                                   Irreps.ir_dim (snd (fst mx))]) ;;
                               Ok (Some r)
                           end) (combine irreps l) ;;
            from_list irreps lst (removelast (shape_of t) ++ [factor])).
Proof.
  intros Hf. unfold factor_mul_to_last_axis.
  destruct factor as [|f]; [lia|]. now destruct (irreps t).
Qed.

(** Factoring the multiplicities and repeating them back.  For a tensor
    [t] that [from_list] built from blocks under the leading shape [lead],
    and a positive [factor] that divides every multiplicity,
    [factor_mul_to_last_axis] returns a tensor with every multiplicity
    divided by the factor and a new axis of length [factor] before the last
    one, its blocks holding the elements of the blocks of [t]; and
    [repeat_mul_by_last_axis] of that result returns [t]. *)
Theorem factor_repeat_round_trip (irs : Irreps.t) (l : list (option (ndarray T)))
  (lead : list nat) (t : IrrepsArray T) (factor : nat) :
  from_list irs l lead = Ok t ->
  0 < factor ->
  Forall (fun mi : Irreps.MulIr => fst mi mod factor = 0) irs ->
  exists r,
    factor_mul_to_last_axis t (Some factor) = Returns r
    /\ irreps r = map (fun mi : Irreps.MulIr => (fst mi / factor, snd mi)) irs
    /\ shape_of r = lead ++ [factor; Irreps.dim irs / factor]
    /\ _list r = Some (map (factored lead factor) (combine irs l))
    /\ repeat_mul_by_last_axis r = Ok t.
Proof.
  intros Et Hf Hdiv. destruct (from_list_inv _ _ _ Et) as (Hfit & arr & -> & Hs).
  destruct (factor_blocks Hf Hdiv Hfit) as [Eb Hfit'].
  destruct (from_list_ok Hfit') as (arr' & E' & Hs' & _).
  destruct (repeat_blocks Hf Hdiv Hfit) as [Ei El].
  eexists. rewrite (factor_mul_positive _ Hf). cbn [irreps].
  assert (Hall : forallb (fun mi : Irreps.MulIr => fst mi mod factor =? 0) irs = true).
  { apply forallb_forall. intros mi Hin. apply Nat.eqb_eq.
    now apply (proj1 (Forall_forall _ _) Hdiv). }
  rewrite Hall. cbn [negb].
  unfold list_ at 1, list_cached. cbn [_list bind]. unfold shape_of. cbn [array].
  rewrite Hs, removelast_snoc. cbv zeta. rewrite Eb. cbn [bind].
  rewrite E'. cbn [lift]. split; [reflexivity|]. cbn [irreps _list array].
  rewrite Hs', dim_factored, <- app_assoc by assumption. repeat split; try reflexivity.
  unfold repeat_mul_by_last_axis, shape_of. cbn [irreps array].
  rewrite Hs', <- app_assoc. cbn [app].
  destruct (mul_axis lead factor (Irreps.dim (map (fun mi : Irreps.MulIr =>
                                                     (fst mi / factor, snd mi)) irs)))
    as (_ & -> & -> & _).
  replace (2 <=? length (lead ++ _)) with true
    by (symmetry; apply Nat.leb_le; rewrite length_app; simpl; lia).
  cbn [assert bind]. rewrite Ei. unfold list_, list_cached. cbn [_list bind].
  match goal with
  | |- bind ?m _ = _ => replace m with (Ok l) by (symmetry; exact El)
  end.
  cbn [bind]. exact Et.
Qed.

Lemma gcd_all_divides (l : list nat) (m : nat) :
  In m l -> Nat.divide (fold_right Nat.gcd 0 l) m.
Proof.
  induction l as [|a l IH]; [intros []|]. cbn [fold_right]. intros [<- | Hin].
  - apply Nat.gcd_divide_l.
  - eapply Nat.divide_trans; [apply Nat.gcd_divide_r | now apply IH].
Qed.

Lemma gcd_all_zero (l : list nat) :
  fold_right Nat.gcd 0 l = 0 <-> Forall (fun m => m = 0) l.
Proof.
  induction l as [|a l IH]; cbn [fold_right].
  - split; [constructor | reflexivity].
  - rewrite Nat.gcd_eq_0, IH. split.
    + intros [-> Hl]. now constructor.
    + intros Hl. apply Forall_cons_iff in Hl. tauto.
Qed.

Lemma lift_not_raised {A : Type} (m : result A) :
  lift m <> Raises ValueError /\ lift m <> Raises ZeroDivisionError.
Proof. destruct m; split; discriminate. Qed.

(** The errors of [factor_mul_to_last_axis].  With a positive factor it
    raises [ValueError] exactly when some multiplicity is not a multiple of
    the factor, and never [ZeroDivisionError].  With the factor 0 and a
    spec that is not empty it raises [ZeroDivisionError]; so it does with
    the default factor when the spec is not empty and every multiplicity is
    0, the greatest common divisor being 0 then.  With the default factor
    and a positive multiplicity in the spec it raises neither. *)
Theorem factor_mul_errors (t : IrrepsArray T) :
  (forall factor, 0 < factor ->
     (factor_mul_to_last_axis t (Some factor) = Raises ValueError
      <-> exists mi, In mi (irreps t) /\ fst mi mod factor <> 0)
     /\ factor_mul_to_last_axis t (Some factor) <> Raises ZeroDivisionError)
  /\ (irreps t <> [] -> factor_mul_to_last_axis t (Some 0) = Raises ZeroDivisionError)
  /\ (irreps t <> [] -> Forall (fun mi : Irreps.MulIr => fst mi = 0) (irreps t) ->
      factor_mul_to_last_axis t None = Raises ZeroDivisionError)
  /\ ((exists mi, In mi (irreps t) /\ 0 < fst mi) ->
      factor_mul_to_last_axis t None <> Raises ValueError
      /\ factor_mul_to_last_axis t None <> Raises ZeroDivisionError).
Proof.
  assert (Hpos : forall factor, 0 < factor ->
            (factor_mul_to_last_axis t (Some factor) = Raises ValueError
             <-> exists mi, In mi (irreps t) /\ fst mi mod factor <> 0)
            /\ factor_mul_to_last_axis t (Some factor) <> Raises ZeroDivisionError).
  { intros f Hf. rewrite (factor_mul_positive _ Hf).
    destruct (forallb _ (irreps t)) eqn:Hall; cbn [negb].
    - split; [|apply lift_not_raised]. split.
      + intros E. now apply lift_not_raised in E.
      + intros (mi & Hin & Hne). exfalso. apply Hne. apply Nat.eqb_eq.
        now apply (proj1 (forallb_forall _ _) Hall).
    - split; [|discriminate]. split; [|reflexivity]. intros _.
      assert (Hex : existsb (fun mi : Irreps.MulIr => negb (fst mi mod f =? 0)) (irreps t)
                    = true).
      { clear - Hall. induction (irreps t) as [|mi irs IH]; simpl in *; [discriminate|].
        destruct (fst mi mod f =? 0); simpl in *; auto. }
      apply existsb_exists in Hex as (mi & Hin & Hne). exists mi. split; [exact Hin|].
      intros E. rewrite E in Hne. discriminate. }
  split; [exact Hpos|]. split; [|split].
  - intros Hne. unfold factor_mul_to_last_axis. now destruct (irreps t).
  - intros Hne Hz. unfold factor_mul_to_last_axis.
    assert (Hg : fold_right Nat.gcd 0 (map fst (irreps t)) = 0).
    { apply gcd_all_zero. now rewrite Forall_map. }
    rewrite Hg. now destruct (irreps t).
  - intros (mi & Hin & Hm).
    set (g := fold_right Nat.gcd 0 (map fst (irreps t))).
    assert (Hg : 0 < g).
    { destruct (Nat.eq_dec g 0) as [Hg|Hg]; [|lia]. apply gcd_all_zero in Hg.
      rewrite Forall_map in Hg. apply (proj1 (Forall_forall _ _) Hg) in Hin. lia. }
    assert (E : factor_mul_to_last_axis t None = factor_mul_to_last_axis t (Some g))
      by reflexivity.
    rewrite E. destruct (Hpos g Hg) as [Hv Hz]. split; [|exact Hz].
    intros Hr. apply Hv in Hr as (mi' & Hin' & Hne). apply Hne.
    apply Nat.Lcm0.mod_divide. apply gcd_all_divides. now apply in_map.
Qed.

End FactorRepeat.

(** [factor_repeat_round_trip] at a tensor over [2x0e + 4x1e] factored by 2. *)
Lemma factor_repeat_round_trip_witness :
  let irs := [(2, Irreps.ir0e); (4, Irreps.ir1e)] in
  let l := [None; Some (mk [1; 4; 3] [1; 2; 3; 4; 5; 6; 7; 8; 9; 10; 11; 12]%Z)] in
  let t := mkIrrepsArray irs (mk [1; 14] [0; 0; 1; 2; 3; 4; 5; 6; 7; 8; 9; 10; 11; 12]%Z)
             (Some l) in
  exists r,
    factor_mul_to_last_axis t (Some 2) = Returns r
    /\ irreps r = [(1, Irreps.ir0e); (2, Irreps.ir1e)]
    /\ shape_of r = [1; 2; 7]
    /\ repeat_mul_by_last_axis r = Ok t.
Proof.
  intros irs l t.
  destruct (@factor_repeat_round_trip Z _ irs l [1] t 2) as (r & Er & Hirr & Hs & _ & Hback).
  - reflexivity.
  - lia.
  - repeat constructor.
  - exists r. split; [exact Er|]. split; [exact Hirr|]. split; [exact Hs | exact Hback].
Defined.

(** ** Reshaping the leading axes *)

Lemma reshape_to_plain {A : Type} (a : ndarray A) (s : list Z) :
  Forall (fun d => (0 <= d)%Z) s -> reshape_to a s = reshape a (map Z.to_nat s).
Proof.
  intros Hs. unfold reshape_to.
  assert (H1 : forallb (fun d => (-1 <=? d)%Z) s = true).
  { apply forallb_forall. intros d Hd. apply Z.leb_le.
    apply (proj1 (Forall_forall _ _) Hs) in Hd. lia. }
  assert (H2 : filter (fun d => (d =? -1)%Z) s = []).
  { clear H1. induction Hs as [|d s Hd _ IH]; simpl; [reflexivity|].
    replace (d =? -1)%Z with false by (symmetry; apply Z.eqb_neq; lia). exact IH. }
  now rewrite H1, H2.
Qed.

Lemma to_nat_app_nat (s : list Z) (l : list nat) :
  map Z.to_nat (s ++ map Z.of_nat l) = map Z.to_nat s ++ l.
Proof.
  rewrite map_app, map_map. f_equal. rewrite <- (map_id l) at 2.
  apply map_ext. intros n. apply Nat2Z.id.
Qed.

Lemma nonneg_app_nat (s : list Z) (l : list nat) :
  Forall (fun d => (0 <= d)%Z) s -> Forall (fun d => (0 <= d)%Z) (s ++ map Z.of_nat l).
Proof.
  intros Hs. apply Forall_app. split; [exact Hs|]. rewrite Forall_map.
  apply Forall_forall. intros; lia.
Qed.

Section Reshape.
Context {T : Type} `{Scalar T}.


Lemma reshape_blocks_ok (s : list Z) (lead : list nat) (l : list (option (ndarray T)))
  (irs : Irreps.t) :
  Forall (fun d => (0 <= d)%Z) s ->
  size (map Z.to_nat s) = size lead ->
  Forall2 (block_fits lead) l irs ->
  reshape_blocks s irs l = Ok (map (reshaped (map Z.to_nat s)) (combine irs l))
  /\ Forall2 (block_fits (map Z.to_nat s)) (map (reshaped (map Z.to_nat s)) (combine irs l)) irs.
Proof.
  intros Hs Hsize Hfit. unfold reshape_blocks.
  induction Hfit as [|x mi l irs Hx _ IH]; [split; [reflexivity | constructor]|].
  destruct IH as [E Hfit']. cbn [combine mapM map fst snd]. rewrite E. split.
  - destruct x as [b|]; [|reflexivity]. simpl in Hx.
    change [Z.of_nat (fst mi); Z.of_nat (Irreps.ir_dim (snd mi))]
      with (map Z.of_nat [fst mi; Irreps.ir_dim (snd mi)]).
    rewrite (reshape_to_plain _ (nonneg_app_nat _ Hs)), to_nat_app_nat.
    unfold reshape. rewrite Hx, !size_app, Hsize, Nat.eqb_refl. reflexivity.
  - constructor; [|exact Hfit']. destruct x as [b|]; [|exact I]. reflexivity.
Qed.

(** [IrrepsArray.reshape] to a shape with as many leading elements.  For
    a tensor [t] that passes the constructor's checks and a shape
    [s + (n,)] whose leading part [s] holds no negative entry and as many
    elements as the leading shape of [t], and whose last entry [n] is the
    dimension of the spec or the placeholder [-1], [reshape] returns the
    tensor over the same spec whose buffer has the shape [s + (dim,)] and
    the elements of the buffer of [t] in the same order, and whose blocks
    have the leading shape [s] and the elements of the blocks of [t];
    [None] blocks stay [None]. *)
Theorem reshape_spec (t : IrrepsArray T) (s : list Z) (n : Z) :
  checked t ->
  Forall (fun d => (0 <= d)%Z) s ->
  size (map Z.to_nat s) = size (removelast (shape_of t)) ->
  n = Z.of_nat (Irreps.dim (irreps t)) \/ n = (-1)%Z ->
  exists l,
    list_ t = Ok l
    /\ reshape_ t (s ++ [n])
       = Ok (mkIrrepsArray (irreps t)
               (mk (map Z.to_nat s ++ [Irreps.dim (irreps t)]) (data (array t)))
               (Some (map (reshaped (map Z.to_nat s)) (combine (irreps t) l)))).
Proof.
  intros Hck Hs Hsize Hn. destruct (checked_list_fits Hck) as (Hsh & l & El & Hfit).
  exists l. split; [exact El|]. unfold shape_of in Hsize.
  destruct (reshape_blocks_ok Hs Hsize Hfit) as [Eb Hfit'].
  unfold reshape_, last_entry. rewrite last_last.
  replace (match s ++ [n] with [] => Raise IndexError | _ :: _ => Ok n end) with (Ok n)
    by (now destruct s).
  cbn [bind].
  replace ((n =? Z.of_nat (Irreps.dim (irreps t)))%Z || (n =? -1)%Z) with true.
  2:{ symmetry. apply orb_true_iff. rewrite !Z.eqb_eq. exact Hn. }
  cbn [assert bind]. rewrite removelast_snoc, El. cbn [bind]. rewrite Eb. cbn [bind].
  change [Z.of_nat (Irreps.dim (irreps t))] with (map Z.of_nat [Irreps.dim (irreps t)]).
  rewrite (reshape_to_plain _ (nonneg_app_nat _ Hs)), to_nat_app_nat.
  unfold reshape. rewrite Hsh at 1. rewrite !size_app, Hsize, Nat.eqb_refl. cbn [bind].
  apply init_with_list with (lead := map Z.to_nat s); [reflexivity | exact Hfit'].
Qed.

End Reshape.

(** [reshape_spec] at a tensor of shape [(2, 3, 1)] over [0e] reshaped to
    [(6, -1)]. *)
Lemma reshape_spec_witness :
  let t := mkIrrepsArray [(1, Irreps.ir0e)] (mk [2; 3; 1] [1; 2; 3; 4; 5; 6]%Z) None in
  reshape_ t [6; -1]%Z
  = Ok (mkIrrepsArray [(1, Irreps.ir0e)] (mk [6; 1] [1; 2; 3; 4; 5; 6]%Z)
          (Some [Some (mk [6; 1; 1] [1; 2; 3; 4; 5; 6]%Z)])).
Proof.
  intros t. destruct (@reshape_spec Z t [6%Z] (-1)%Z) as (l & El & E).
  - reflexivity.
  - repeat constructor. lia.
  - reflexivity.
  - now right.
  - injection El as <-. exact E.
Defined.

(** ** Repeating the spec along the axis before the last *)

Lemma channels_rmul (n : nat) (irs : Irreps.t) :
  Irreps.channels (irreps_rmul n irs) = concat (repeat (Irreps.channels irs) n).
Proof.
  unfold irreps_rmul. induction n as [|n IH]; simpl; [reflexivity|].
  now rewrite channels_app, IH.
Qed.

Lemma dim_rmul (n : nat) (irs : Irreps.t) :
  Irreps.dim (irreps_rmul n irs) = n * Irreps.dim irs.
Proof.
  unfold irreps_rmul. rewrite dim_concat, map_repeat, list_sum_repeat. reflexivity.
Qed.

Lemma dim_simplify (irs : Irreps.t) : Irreps.dim (Irreps.simplify irs) = Irreps.dim irs.
Proof. now rewrite !dim_channels, channels_simplify. Qed.

Lemma shape_two_axes (s : list nat) :
  2 <= length s -> s = pre_axis 2 s ++ [at_axis 2 s; last s 0].
Proof.
  intros Hl. destruct (exists_last (l := s)) as (s1 & z & E1); [intros ->; simpl in Hl; lia|].
  destruct (exists_last (l := s1)) as (s2 & y & E2).
  { intros ->. subst s. simpl in Hl. lia. }
  subst s1 s. rewrite <- app_assoc. cbn [app].
  destruct (mul_axis s2 y z) as (_ & -> & -> & _).
  assert (E : last (s2 ++ [y; z]) 0 = z).
  { replace (s2 ++ [y; z]) with ((s2 ++ [y]) ++ [z]) by now rewrite <- app_assoc.
    apply last_last. }
  now rewrite E.
Qed.

(** [repeat_irreps_by_last_axis] on a tensor that passes the
    constructor's checks.  With fewer than two axes it fails its
    assertion.  With two axes or more, the one before the last of length
    [n], it returns a tensor without stored blocks whose spec is the
    simplified [n]-fold repetition of the spec, with the channels of the
    spec repeated [n] times, whose last axis has length [n] times the
    dimension of the spec in place of the last two axes, and whose buffer
    holds the same elements in the same order. *)
Theorem repeat_irreps_spec (A : Type) (t : IrrepsArray A) :
  checked t ->
  (length (shape_of t) < 2 -> repeat_irreps_by_last_axis t = Raise AssertionError)
  /\ (2 <= length (shape_of t) ->
      exists r,
        repeat_irreps_by_last_axis t = Ok r
        /\ irreps r = Irreps.simplify (irreps_rmul (at_axis 2 (shape_of t)) (irreps t))
        /\ Irreps.channels (irreps r)
           = concat (repeat (Irreps.channels (irreps t)) (at_axis 2 (shape_of t)))
        /\ shape_of r = pre_axis 2 (shape_of t)
                        ++ [at_axis 2 (shape_of t) * Irreps.dim (irreps t)]
        /\ data (array r) = data (array t)
        /\ _list r = None).
Proof.
  intros Hck. split.
  - intros Hl. unfold repeat_irreps_by_last_axis.
    replace (2 <=? length (shape_of t)) with false by (symmetry; apply Nat.leb_gt; lia).
    reflexivity.
  - intros Hl. destruct (checked_list_fits Hck) as (Hs & _).
    assert (Hs2 := shape_two_axes _ Hl). unfold shape_of in *.
    assert (Hlast : last (shape (array t)) 0 = Irreps.dim (irreps t)).
    { rewrite Hs. apply last_last. }
    rewrite Hlast in Hs2.
    unfold repeat_irreps_by_last_axis, shape_of.
    remember (at_axis 2 (shape (array t))) as n eqn:En.
    remember (pre_axis 2 (shape (array t))) as pre eqn:Epre.
    replace (2 <=? length (shape (array t))) with true by (symmetry; apply Nat.leb_le; lia).
    cbn [assert bind]. rewrite dim_simplify, dim_rmul.
    unfold reshape. rewrite Hs2.
    replace (size (pre ++ [n; Irreps.dim (irreps t)]) =? size (pre ++ [n * Irreps.dim (irreps t)]))
      with true by (symmetry; apply Nat.eqb_eq; rewrite !size_app; simpl; lia).
    cbn [bind]. eexists. split.
    + apply init_no_list with (lead := pre). cbn [shape].
      now rewrite dim_simplify, dim_rmul.
    + cbn [irreps array _list shape data]. repeat split.
      now rewrite channels_simplify, channels_rmul.
Qed.

(** [repeat_irreps_spec] at the tensor of the docstring, of shape
    [(3, 4)] over [0e + 1e]. *)
Lemma repeat_irreps_spec_witness :
  let t := mkIrrepsArray [(1, Irreps.ir0e); (1, Irreps.ir1e)]
             (mk [3; 4] (repeat 0%Z 12)) None in
  exists r,
    repeat_irreps_by_last_axis t = Ok r
    /\ irreps r = [(1, Irreps.ir0e); (1, Irreps.ir1e); (1, Irreps.ir0e); (1, Irreps.ir1e);
                   (1, Irreps.ir0e); (1, Irreps.ir1e)]
    /\ shape_of r = [12].
Proof.
  intros t. destruct (@repeat_irreps_spec Z t) as [_ Hok].
  - reflexivity.
  - destruct Hok as (r & Er & Hirr & _ & Hs & _); [simpl; lia|].
    exists r. split; [exact Er|]. split; [exact Hirr | exact Hs].
Defined.

(** ** The assertions of [concatenate] *)




Section ConcatenateGuards.
Context {T : Type} `{Scalar T}.

Lemma replace_none_benign (t : IrrepsArray T) : raises_only benign (replace_none_with_zeros t).
Proof.
  unfold replace_none_with_zeros. apply raises_only_bind; [apply list_benign|].
  intros l _. apply init_benign.
Qed.

(** [concatenate] fails an assertion exactly when the list of tensors is
    empty, or the axis is outside the axes of the first tensor, or the axis
    is not the last one and some tensor has another spec than the first. *)
Theorem concatenate_assertions (arrays : list (IrrepsArray T)) (axis : Z) :
  concatenate_ arrays axis = Raise AssertionError
  <-> arrays = []
      \/ exists first rest,
           arrays = first :: rest
           /\ (~ (- Z.of_nat (ndim (array first)) <= axis < Z.of_nat (ndim (array first)))%Z
               \/ (norm_axis (ndim (array first)) axis <> ndim (array first) - 1
                   /\ exists x, In x arrays /\ irreps x <> irreps first)).
Proof.
  destruct arrays as [|first rest].
  - split; [now left | reflexivity].
  - unfold concatenate_. set (arrays := first :: rest). set (n := ndim (array first)).
    split.
    + intros E. right. exists first, rest. split; [reflexivity|].
      destruct ((- Z.of_nat n <=? axis)%Z && (axis <? Z.of_nat n)%Z) eqn:Hr.
      * right. cbn [assert bind] in E.
        destruct (norm_axis n axis =? n - 1) eqn:Hax.
        { exfalso. revert E. apply raises_only_neq; [|apply not_benign_assertion].
          apply raises_only_bind; [apply concatenate_benign|]. intros a _.
          apply raises_only_bind; [apply raises_only_mapM; intros; apply list_benign|].
          intros ls _. apply init_benign. }
        apply Nat.eqb_neq in Hax. split; [exact Hax|].
        destruct (forallb (fun x : IrrepsArray T => Irreps.eqb (irreps x) (irreps first)) arrays)
          eqn:Hall.
        { exfalso. revert E. cbn [assert bind].
          apply raises_only_neq; [|apply not_benign_assertion].
          apply raises_only_bind; [apply raises_only_mapM; intros; apply replace_none_benign|].
          intros [|f r] _; [simpl; benign_tac|].
          apply raises_only_bind; [apply concatenate_at_benign|]. intros a _.
          apply raises_only_bind; [apply raises_only_mapM; intros; apply list_benign|].
          intros ls _.
          apply raises_only_bind; [|intros; apply init_benign].
          apply raises_only_mapM. intros xs. unfold concatenate_blocks.
          apply raises_only_bind.
          { apply raises_only_mapM. intros [x|]; simpl; [exact I | benign_tac]. }
          intros xs' _. apply raises_only_bind; [apply concatenate_at_benign | intros; exact I]. }
        assert (Hex : existsb (fun x : IrrepsArray T =>
                                 negb (Irreps.eqb (irreps x) (irreps first))) arrays = true).
        { clear - Hall. induction arrays as [|x l IH]; simpl in *; [discriminate|].
          destruct (Irreps.eqb (irreps x) (irreps first)); simpl in *; auto. }
        apply existsb_exists in Hex as (x & Hin & Hne). exists x. split; [exact Hin|].
        intros Ex. rewrite Ex, (proj2 (irreps_eqb_eq _ _) eq_refl) in Hne. discriminate.
      * left. apply andb_false_iff in Hr. rewrite Z.leb_gt, Z.ltb_ge in Hr. lia.
    + intros [Hnil | (f & r & Ef & Hc)]; [discriminate|].
      injection Ef as <- <-. destruct Hc as [Hr | (Hax & x & Hin & Hne)].
      * replace ((- Z.of_nat n <=? axis)%Z && (axis <? Z.of_nat n)%Z) with false; [reflexivity|].
        symmetry. apply andb_false_iff. rewrite Z.leb_gt, Z.ltb_ge. fold n in Hr. lia.
      * destruct ((- Z.of_nat n <=? axis)%Z && (axis <? Z.of_nat n)%Z); [|reflexivity].
        cbn [assert bind]. apply Nat.eqb_neq in Hax. fold n in Hax. rewrite Hax.
        replace (forallb (fun x : IrrepsArray T => Irreps.eqb (irreps x) (irreps first)) arrays)
          with false; [reflexivity|].
        symmetry. destruct (forallb _ arrays) eqn:Hall; [|reflexivity].
        exfalso. apply Hne. apply irreps_eqb_eq.
        now apply (proj1 (forallb_forall _ _) Hall).
Qed.

End ConcatenateGuards.

(** ** [_reduce] over axes before the irrep axis *)


Section ReduceLeading.
Context {T : Type} `{Scalar T}.
Variable op : ndarray T -> list Z -> bool -> result (ndarray T).
Hypothesis op_reduction : reduction op.



End ReduceLeading.



(** ** Multiplication and division by a number *)

Lemma map_by_position {X Y : Type} (g : X -> Y) (d pre : list X) :
  flat_map (fun k => match nth_error (pre ++ d) k with
                     | Some x => [g x]
                     | None => []
                     end) (seq (length pre) (length d))
  = map g d.
Proof.
  revert pre. induction d as [|x d IH]; intros pre; [reflexivity|].
  cbn [length seq flat_map map].
  rewrite nth_error_app2, Nat.sub_diag by lia. cbn [nth_error app]. f_equal.
  specialize (IH (pre ++ [x])). rewrite <- app_assoc, length_app in IH. cbn [length app] in IH.
  rewrite Nat.add_1_r in IH. exact IH.
Qed.

(** An elementwise operator between a well-formed array and a single
    number, given without axes or with one axis of length one. *)
Lemma map2_number {X Y Z : Type} (f : X -> Y -> Z) (a : ndarray X) (s : list nat) (c : Y) :
  jnp.wf a ->
  s = [] \/ (s = [1] /\ shape a <> []) ->
  map2 f a (mk s [c]) = Ok (mk (shape a) (map (fun x => f x c) (data a))).
Proof.
  intros Hwf Hs. unfold map2. cbn [shape].
  assert (Eb : broadcast_shapes (shape a) s = Ok (shape a)).
  { unfold broadcast_shapes. destruct Hs as [-> | [-> Hne]].
    - assert (E : broadcast_rev (rev (shape a)) (rev []) = Ok (rev (shape a)))
        by (simpl; now destruct (rev (shape a))).
      rewrite E. cbn [bind]. now rewrite rev_involutive.
    - assert (E : broadcast_rev (rev (shape a)) (rev [1]) = Ok (rev (shape a))).
      { destruct (rev (shape a)) as [|z rest] eqn:Er.
        - exfalso. apply Hne. rewrite <- (rev_involutive (shape a)), Er. reflexivity.
        - cbn [rev app broadcast_rev].
          assert (E0 : broadcast_rev rest [] = Ok rest) by now destruct rest.
          rewrite E0. cbn [bind]. destruct (z =? 1) eqn:Hz; [reflexivity|].
          reflexivity. }
      rewrite E. cbn [bind]. now rewrite rev_involutive. }
  rewrite Eb. cbn [bind]. do 2 f_equal.
  rewrite (flat_map_ext_in _
             (fun idx => match nth_error (data a) (offset (shape a) idx) with
                         | Some x => [f x c]
                         | None => []
                         end)).
  - rewrite (flat_map_concat_map _ (indices (shape a))).
    rewrite <- (map_map (offset (shape a))
                  (fun k => match nth_error (data a) k with
                            | Some x => [f x c]
                            | None => []
                            end)).
    rewrite offsets_of_indices, <- flat_map_concat_map.
    unfold jnp.wf in Hwf. rewrite <- Hwf.
    apply (map_by_position (fun x => f x c) (data a) []).
  - intros idx Hidx. unfold bget. cbn [shape data].
    rewrite (indices_length _ _ Hidx), Nat.sub_diag. cbn [skipn].
    assert (E : nth_error [c] (offset s (skipn (length (shape a) - length s) idx)) = Some c).
    { destruct Hs as [-> | [-> _]]; [reflexivity|].
      cbn [offset]. destruct (skipn _ idx) as [|i rest]; [reflexivity|].
      cbn [Nat.eqb offset size fold_right]. reflexivity. }
    rewrite E. reflexivity.
Qed.

Section ScaleFacts.
Context {T : Type} `{Scalar T}.
Variable o : option nat.
Variable tp : IrrepsArray T -> IrrepsArray T -> option (IrrepsArray T).


Lemma scale_blocks (f : T -> T -> T) (c : T) (lead : list nat)
  (l : list (option (ndarray T))) (irs : Irreps.t) :
  Forall2 (block_wf lead) l irs ->
  mapM (fun x : option (ndarray T) =>
          match x with
          | None => Ok None
          | Some x => r <- map2 f x (expand_last (mk [] [c])) ;; Ok (Some r)
          end) l
  = Ok (map (map_block (fun v => f v c)) l)
  /\ Forall2 (block_fits lead) (map (map_block (fun v => f v c)) l) irs.
Proof.
  induction 1 as [|x mi l irs Hx _ [E Hfit]]; [split; [reflexivity | constructor]|].
  cbn [mapM map]. rewrite E. split.
  - destruct x as [b|]; [|reflexivity]. destruct Hx as [Hs Hwf].
    unfold expand_last. cbn [shape data app].
    rewrite map2_number; [reflexivity | exact Hwf |].
    right. split; [reflexivity|]. rewrite Hs. now destruct lead.
  - constructor; [|exact Hfit]. destruct x as [b|]; [|exact I]. now destruct Hx.
Qed.

(** Multiplying or dividing a tensor by a number.  For a tensor [t] that
    passes the constructor's checks, with a well-formed buffer and
    well-formed blocks, over a spec that is not empty, scalar or not,
    [t * c] and [t / c] for a number [c] return the tensor over the same
    spec in which every element of the buffer and of every block is
    multiplied or divided by [c]; a block that is [None] stays [None]. *)
Theorem scale_by_number (t : IrrepsArray T) (l : list (option (ndarray T))) (c : T) :
  checked t ->
  jnp.wf (array t) ->
  list_ t = Ok l ->
  Forall2 (block_wf (removelast (shape_of t))) l (irreps t) ->
  irreps t <> [] ->
  __mul__ o tp t (Bare (mk [] [c]))
  = Ok (mkIrrepsArray (irreps t) (map_elts (fun v => mul v c) (array t))
          (Some (map (map_block (fun v => mul v c)) l)))
  /\ __truediv__ o tp t (Bare (mk [] [c]))
     = Ok (mkIrrepsArray (irreps t) (map_elts (fun v => div v c) (array t))
             (Some (map (map_block (fun v => div v c)) l))).
Proof.
  intros Hck Hwf El Hbl Hne. destruct (checked_list_fits Hck) as (Hs & _).
  assert (Hgen : forall f : T -> T -> T,
            scale o f t (mk [] [c])
            = Ok (mkIrrepsArray (irreps t) (map_elts (fun v => f v c) (array t))
                    (Some (map (map_block (fun v => f v c)) l)))).
  { intros f. unfold scale. unfold lmax_. rewrite lmax_nonempty by exact Hne. cbn [bind].
    replace (not_per_element (mk [] [c])) with false by reflexivity.
    rewrite andb_false_r, El. cbn [bind].
    destruct (scale_blocks f c Hbl) as [Eb Hfit]. rewrite Eb. cbn [bind].
    rewrite map2_number; [|exact Hwf | now left]. cbn [bind].
    apply init_with_list with (lead := removelast (shape_of t)); [|exact Hfit].
    exact Hs. }
  split; [apply (Hgen mul) | apply (Hgen div)].
Qed.

End ScaleFacts.

(** [scale_by_number] at a tensor over [0e + 1e] whose first block is
    [None], scaled by 2. *)
Lemma scale_by_number_witness :
  let t := mkIrrepsArray [(1, Irreps.ir0e); (1, Irreps.ir1e)] (mk [4] [0; 2; 4; 6]%Z)
             (Some [None; Some (mk [1; 3] [2; 4; 6]%Z)]) in
  __mul__ None no_tensor_product t (Bare (mk [] [2%Z]))
  = Ok (mkIrrepsArray [(1, Irreps.ir0e); (1, Irreps.ir1e)] (mk [4] [0; 4; 8; 12]%Z)
          (Some [None; Some (mk [1; 3] [4; 8; 12]%Z)]))
  /\ __truediv__ None no_tensor_product t (Bare (mk [] [2%Z]))
     = Ok (mkIrrepsArray [(1, Irreps.ir0e); (1, Irreps.ir1e)] (mk [4] [0; 1; 2; 3]%Z)
             (Some [None; Some (mk [1; 3] [1; 2; 3]%Z)])).
Proof.
  intros t.
  destruct (@scale_by_number Z _ None no_tensor_product t
              [None; Some (mk [1; 3] [2; 4; 6]%Z)] 2%Z) as [Em Ed].
  - reflexivity.
  - reflexivity.
  - reflexivity.
  - repeat constructor.
  - discriminate.
  - split; [exact Em | exact Ed].
Defined.

(** ** What the constructor accepts *)

(** The constructor with its checks accepts a buffer and an optional block
    list exactly when the last axis of the buffer has the dimension of the
    spec and, if a list is given, it has one block per entry and every
    block that is not [None] has the leading shape of the buffer followed
    by the multiplicity and the dimension of its entry; it then stores its
    three arguments unchanged.  It raises [IndexError] on a buffer without
    axes, and otherwise nothing but the shape error.  Without its checks it
    accepts everything. *)
Theorem init_spec (A : Type) (irs : Irreps.t) (a : ndarray A)
  (lst : option (list (option (ndarray A)))) :
  (forall t,
     __init__ irs a lst true = Ok t
     <-> t = mkIrrepsArray irs a lst
         /\ exists lead,
              shape a = lead ++ [Irreps.dim irs]
              /\ match lst with
                 | None => True
                 | Some l => Forall2 (block_fits lead) l irs
                 end)
  /\ (shape a = [] -> __init__ irs a lst true = Raise IndexError)
  /\ (forall e, shape a <> [] -> __init__ irs a lst true = Raise e -> e = ShapeMismatch)
  /\ __init__ irs a lst false = Ok (mkIrrepsArray irs a lst).
Proof.
  split; [|split; [|split]].
  - intros t. split.
    + intros E. destruct (init_ok_inv _ _ _ E) as (-> & Hs & Hl).
      split; [reflexivity|]. exists (removelast (shape a)). split; [exact Hs|].
      destruct lst as [l|]; [|exact I]. destruct Hl as [Hlen Hf]. now apply fits_of_forallb.
    + intros (-> & lead & Hs & Hl). destruct lst as [l|].
      * now apply init_with_list with (lead := lead).
      * now apply init_no_list with (lead := lead).
  - intros Hs. unfold __init__, last_dim. now rewrite Hs.
  - intros e Hne. unfold __init__, last_dim.
    destruct (shape a) as [|n s] eqn:Es; [congruence|]. cbn [bind].
    destruct (negb _); [now intros [= <-]|].
    destruct lst as [l|]; [|discriminate].
    destruct (negb _); [now intros [= <-]|].
    destruct (forallb _ _); [discriminate | now intros [= <-]].
  - reflexivity.
Qed.

(** ** The axes of a reduction *)

Lemma axes_in_range_iff (n : nat) (l : list Z) :
  axes_in_range n l = true <-> Forall (fun z => (- Z.of_nat n <= z < Z.of_nat n)%Z) l.
Proof.
  unfold axes_in_range. rewrite forallb_forall, Forall_forall. split; intros Hl z Hz.
  - specialize (Hl z Hz). apply andb_true_iff in Hl. rewrite Z.leb_le, Z.ltb_lt in Hl. lia.
  - specialize (Hl z Hz). apply andb_true_iff. rewrite Z.leb_le, Z.ltb_lt. lia.
Qed.

(** [_standardize_axis] on an integer or a tuple of integers.  It fails
    its assertion exactly when some axis lies outside [-ndim, ndim).
    Otherwise it returns the axes normalized to [0, ndim), each once, in
    strictly increasing order; given its own result it returns it
    unchanged.  With no axis given it returns all the axes. *)
Theorem standardize_axis_sorted_set (ndim : nat) (l : list Z) :
  _standardize_axis AxisNone ndim = Ok (seq 0 ndim)
  /\ (forall i : Z, _standardize_axis (AxisInt i) ndim = _standardize_axis (AxisTuple [i]) ndim)
  /\ (_standardize_axis (AxisTuple l) ndim = Raise AssertionError
      <-> exists z, In z l /\ ~ (- Z.of_nat ndim <= z < Z.of_nat ndim)%Z)
  /\ (Forall (fun z => (- Z.of_nat ndim <= z < Z.of_nat ndim)%Z) l ->
      exists ax,
        _standardize_axis (AxisTuple l) ndim = Ok ax
        /\ StronglySorted lt ax
        /\ (forall i, In i ax <-> exists z, In z l /\ i = norm_axis ndim z)
        /\ Forall (fun i => i < ndim) ax
        /\ _standardize_axis (AxisTuple (map Z.of_nat ax)) ndim = Ok ax).
Proof.
  split; [reflexivity|]. split; [reflexivity|]. split.
  - unfold _standardize_axis. destruct (axes_in_range ndim l) eqn:Hr; cbn [assert bind].
    + split; [discriminate|]. intros (z & Hz & Hout). exfalso. apply Hout.
      apply axes_in_range_iff in Hr. now apply (proj1 (Forall_forall _ _) Hr).
    + split; [|reflexivity]. intros _.
      assert (Hex : existsb (fun i => negb ((- Z.of_nat ndim <=? i)%Z && (i <? Z.of_nat ndim)%Z)) l
                    = true).
      { clear - Hr. unfold axes_in_range in Hr.
        induction l as [|z l IH]; simpl in *; [discriminate|].
        destruct ((- Z.of_nat ndim <=? z)%Z && (z <? Z.of_nat ndim)%Z); simpl in *; auto. }
      apply existsb_exists in Hex as (z & Hz & Hout). exists z. split; [exact Hz|].
      intros Hin. apply negb_true_iff, andb_false_iff in Hout.
      rewrite Z.leb_gt, Z.ltb_ge in Hout. lia.
  - intros Hr. assert (Hr' := proj2 (axes_in_range_iff ndim l) Hr).
    exists (sorted_set (map (norm_axis ndim) l)).
    assert (E : _standardize_axis (AxisTuple l) ndim
                = Ok (sorted_set (map (norm_axis ndim) l))).
    { unfold _standardize_axis. now rewrite Hr'. }
    destruct (standardize_axis_spec _ _ E) as [Hs Hlt].
    split; [exact E|]. split; [exact Hs|]. split; [|split; [exact Hlt|]].
    + intros i. rewrite sorted_set_in, in_map_iff. split.
      * intros (z & <- & Hz). eauto.
      * intros (z & Hz & ->). eauto.
    + now apply standardize_axis_id.
Qed.

(** ** [norm] after [replace_none_with_zeros] *)

(** [norm], which raises [TypeError] on a block that is [None], accepts
    every tensor once [replace_none_with_zeros] has been applied: for a
    tensor [t] that passes the constructor's checks,
    [norm(t.replace_none_with_zeros())] returns a tensor over the spec of
    [t] with every irrep replaced by the even scalar, with one block per
    entry, none of them [None]. *)
Theorem norm_of_replaced (T : Type) (S : Scalar T) (t : IrrepsArray T) (squared : bool) :
  checked t ->
  exists r lst arr,
    replace_none_with_zeros t = Ok r
    /\ norm r squared
       = Ok (mkIrrepsArray (map (fun mi : Irreps.MulIr => (fst mi, Irreps.ir0e)) (irreps t))
               arr (Some lst))
    /\ length lst = length (irreps t)
    /\ existsb is_none lst = false.
Proof.
  intros Hck. destruct (checked_list_fits Hck) as (Hs & l & El & Hfit).
  set (lead := removelast (shape (array t))) in *.
  assert (Hbl : Forall2 (block_of lead) (dense_view lead (irreps t) l) (irreps t)).
  { unfold dense_view. clear - Hfit. induction Hfit as [|x mi l irs Hx _ IH]; simpl;
      constructor; [|exact IH].
    destruct x as [b|]; simpl in *; [exists b; auto|]. eexists; split; reflexivity. }
  assert (Er : replace_none_with_zeros t
               = Ok (mkIrrepsArray (irreps t) (array t) (Some (dense_view lead (irreps t) l)))).
  { unfold replace_none_with_zeros. rewrite El. cbn [bind]. unfold shape_of. fold lead.
    replace (map _ (combine (irreps t) l)) with (dense_view lead (irreps t) l).
    - apply init_with_list with (lead := lead); [exact Hs | now apply block_of_fits].
    - unfold dense_view. clear. revert l.
      induction (irreps t) as [|mi irs IH]; intros [|x l]; simpl; try reflexivity.
      rewrite IH. now destruct x. }
  assert (Hnone : existsb is_none (dense_view lead (irreps t) l) = false).
  { apply block_of_not_none in Hbl. clear - Hbl.
    induction Hbl as [|x l' Hx _ IH]; simpl; [reflexivity|].
    destruct x; [exact IH | congruence]. }
  destruct (norm_blocks squared (block_of_fits Hbl)) as [Hok _].
  destruct (Hok Hnone) as (lst & Elst & Hlst).
  destruct (from_list_ok Hlst) as (arr & Efl & _).
  eexists. exists lst, arr. split; [exact Er|].
  unfold norm. unfold list_ at 1, list_cached. cbn [_list bind irreps array shape_of].
  rewrite Elst. cbn [bind]. fold lead. split; [exact Efl|]. split.
  - rewrite (Forall2_length Hlst). apply length_map.
  - apply mapM_inv in Elst. clear - Elst Hnone.
    induction Elst as [|x y l' lst' Hxy _ IH]; [reflexivity|]. simpl in *.
    apply orb_false_iff in Hnone as [Hx Hn]. rewrite (IH Hn).
    destruct x as [x|]; [|discriminate]. unfold norm_f in Hxy.
    apply bind_ok in Hxy as (s & _ & Hxy). now injection Hxy as <-.
Qed.

(** [norm_of_replaced] at the tensor [zeros("1x1e", ())], on which [norm]
    itself raises. *)
Lemma norm_of_replaced_witness :
  exists r lst arr,
    replace_none_with_zeros (mkIrrepsArray [(1, Irreps.ir1e)] (mk [3] [0; 0; 0]%Z) (Some [None]))
    = Ok r
    /\ norm r true = Ok (mkIrrepsArray [(1, Irreps.ir0e)] arr (Some lst))
    /\ length lst = 1
    /\ existsb is_none lst = false.
Proof.
  apply (@norm_of_replaced Z _
           (mkIrrepsArray [(1, Irreps.ir1e)] (mk [3] [0; 0; 0]%Z) (Some [None])) true).
  reflexivity.
Defined.

(** ** Commutativity of addition *)

Lemma broadcast_rev_sym (s t : list nat) : broadcast_rev s t = broadcast_rev t s.
Proof.
  revert t. induction s as [|a s IH]; intros [|b t]; try reflexivity.
  cbn [broadcast_rev]. rewrite IH. destruct (broadcast_rev t s) as [rest|e]; [|reflexivity].
  cbn [bind]. rewrite (Nat.eqb_sym b a).
  destruct (a =? b) eqn:Hab; [apply Nat.eqb_eq in Hab; now subst|].
  destruct (a =? 1) eqn:Ha, (b =? 1) eqn:Hb; try reflexivity.
  apply Nat.eqb_eq in Ha, Hb. subst. now rewrite Nat.eqb_refl in Hab.
Qed.

Lemma map2_sym {X Y Z : Type} (f : X -> Y -> Z) (a : ndarray X) (b : ndarray Y) :
  map2 f a b = map2 (fun y x => f x y) b a.
Proof.
  unfold map2, broadcast_shapes. rewrite broadcast_rev_sym.
  destruct (broadcast_rev (rev (shape b)) (rev (shape a))) as [r|e]; [|reflexivity].
  cbn [bind]. do 2 f_equal. apply flat_map_ext_in. intros idx _.
  now destruct (bget a idx), (bget b idx).
Qed.

Section AddCommutative.
Context {T : Type} `{Scalar T}.
Hypothesis add_comm : forall a b : T, add a b = add b a.

Lemma map2_add_comm (a b : ndarray T) : map2 add a b = map2 add b a.
Proof.
  rewrite map2_sym. unfold map2.
  destruct (broadcast_shapes (shape b) (shape a)) as [s|e]; [|reflexivity].
  cbn [bind]. do 2 f_equal. apply flat_map_ext_in. intros idx _.
  destruct (bget b idx), (bget a idx); try reflexivity. now rewrite add_comm.
Qed.

Lemma add_blocks_comm (l1 l2 : list (option (ndarray T))) :
  mapM add_blocks (combine l1 l2) = mapM add_blocks (combine l2 l1).
Proof.
  revert l2. induction l1 as [|x l1 IH]; intros [|y l2]; try reflexivity.
  cbn [combine mapM]. rewrite IH.
  assert (E : add_blocks (x, y) = add_blocks (y, x)).
  { destruct x as [x|], y as [y|]; try reflexivity. unfold add_blocks.
    now rewrite map2_add_comm. }
  now rewrite E.
Qed.

(** Over elements whose addition is commutative, the addition of two
    tensors that pass the constructor's checks is commutative: [x + y] and
    [y + x] return the same tensor, or fail with the same error. *)
Theorem add_commutative (x y : IrrepsArray T) :
  checked x -> checked y ->
  __add__ x (Tensor y) = __add__ y (Tensor x).
Proof.
  intros Hx Hy. unfold __add__.
  destruct (Irreps.eqb (irreps x) (irreps y)) eqn:E.
  - assert (E' := E). apply irreps_eqb_eq in E'.
    rewrite <- E', (proj2 (irreps_eqb_eq _ _) eq_refl). cbn [negb].
    destruct (checked_list_fits Hx) as (_ & l1 & El1 & _).
    destruct (checked_list_fits Hy) as (_ & l2 & El2 & _).
    rewrite El1, El2. cbn [bind]. rewrite add_blocks_comm.
    now rewrite (map2_add_comm (array x) (array y)).
  - assert (E2 : Irreps.eqb (irreps y) (irreps x) = false).
    { apply irreps_eqb_neq. apply irreps_eqb_neq in E. congruence. }
    now rewrite E2.
Qed.

End AddCommutative.

(** [add_commutative] at two tensors over [0e + 1e] with integer elements,
    one with a [None] block. *)
Lemma add_commutative_witness :
  let x := mkIrrepsArray [(1, Irreps.ir0e); (1, Irreps.ir1e)] (mk [4] [0; 2; 3; 4]%Z)
             (Some [None; Some (mk [1; 3] [2; 3; 4]%Z)]) in
  let y := mkIrrepsArray [(1, Irreps.ir0e); (1, Irreps.ir1e)] (mk [4] [1; 5; 6; 7]%Z) None in
  __add__ x (Tensor y) = __add__ y (Tensor x)
  /\ __add__ x (Tensor y)
     = Ok (mkIrrepsArray [(1, Irreps.ir0e); (1, Irreps.ir1e)] (mk [4] [1; 7; 9; 11]%Z)
             (Some [Some (mk [1; 1] [1]%Z); Some (mk [1; 3] [7; 9; 11]%Z)])).
Proof.
  intros x y. split.
  - apply (@add_commutative Z Scalar_Z Z.add_comm x y); reflexivity.
  - reflexivity.
Defined.

(** ** Indexing *)

Lemma lift_not_value_error {A : Type} (m : result A) : lift m <> Raises ValueError.
Proof. destruct m; discriminate. Qed.

Section IndexingFacts.
Context {T : Type} `{Scalar T}.
Variable getitem : ndarray T -> list index_entry -> result (ndarray T).

(** The errors that [__getitem__] raises by itself, whatever the indexing
    of the runtime does.  It raises [ValueError] exactly when the index
    ends with an irreps and either the irreps is not in the position of the
    last axis (no ellipsis before it and not as many entries as axes), or
    it does not hold exactly one entry, or that entry does not occur
    exactly once in the spec.  It raises [IndexError] on the empty tuple,
    and on an index that reaches the last axis (as many entries as axes, or
    an ellipsis) whose last entry is an integer or a slice other than the
    full one. *)
Theorem getitem_errors (t : IrrepsArray T) (index : list index_entry) :
  (__getitem__ getitem t index = Raises ValueError
   <-> exists irs,
         index <> [] /\ last index IdxEllipsis = IdxIrreps irs
         /\ ((existsb is_ellipse (removelast index) = false
              /\ length index <> ndim (array t))
             \/ length irs <> 1
             \/ exists mi, irs = [mi] /\ count_of mi (irreps t) <> 1))
  /\ (index = [] -> __getitem__ getitem t index = Raises (Exn IndexError))
  /\ (index <> [] ->
      (forall irs, last index IdxEllipsis <> IdxIrreps irs) ->
      is_ellipse (last index IdxEllipsis) = false ->
      is_none_slice (last index IdxEllipsis) = false ->
      length index = ndim (array t) \/ existsb is_ellipse index = true ->
      __getitem__ getitem t index = Raises (Exn IndexError)).
Proof.
  split; [|split].
  - destruct index as [|e index]; [split; [discriminate | intros (? & ? & _); congruence]|].
    unfold __getitem__. set (idx := e :: index).
    destruct (last idx IdxEllipsis) as [i|a b c| |irs] eqn:El;
      try (split; [intros E; now apply lift_not_value_error in E
                  | intros (irs' & _ & E' & _); discriminate]).
    destruct (existsb is_ellipse (removelast idx) || (length idx =? ndim (array t))) eqn:Hpos;
      cbn [negb].
    + destruct (length irs =? 1) eqn:Hlen; cbn [negb].
      * apply Nat.eqb_eq in Hlen. destruct irs as [|mi [|mi' irs]]; try discriminate.
        destruct (count_of mi (irreps t) =? 1) eqn:Hc; cbn [negb].
        -- split; [intros E; now apply lift_not_value_error in E|].
           intros (irs' & _ & [= <-] & [[He Hn] | [Hl | (mi' & [= <-] & Hcount)]]).
           ++ apply orb_true_iff in Hpos as [Hp | Hp]; [congruence|].
              apply Nat.eqb_eq in Hp. contradiction.
           ++ simpl in Hl. congruence.
           ++ apply Nat.eqb_eq in Hc. contradiction.
        -- split; [|reflexivity]. intros _. exists [mi]. split; [discriminate|].
           split; [reflexivity|]. right. right. exists mi. split; [reflexivity|].
           now apply Nat.eqb_neq.
      * split; [|reflexivity]. intros _. exists irs. split; [discriminate|].
        split; [reflexivity|]. right. left. now apply Nat.eqb_neq.
    + split; [|reflexivity]. intros _. exists irs. split; [discriminate|].
      split; [reflexivity|]. left. apply orb_false_iff in Hpos as [Hp Hn].
      split; [exact Hp | now apply Nat.eqb_neq].
  - now intros ->.
  - intros Hne Hirr He Hs Hreach. destruct index as [|e index]; [congruence|].
    unfold __getitem__. set (idx := e :: index) in *.
    assert (E : lift (getitem_leading getitem t idx) = Raises (Exn IndexError)).
    { unfold getitem_leading. unfold idx at 1. cbn [bind].
      rewrite He, Hs. cbn [orb negb]. rewrite andb_true_r.
      replace ((length idx =? ndim (array t)) || existsb is_ellipse idx) with true;
        [reflexivity|].
      symmetry. apply orb_true_iff. rewrite Nat.eqb_eq. exact Hreach. }
    destruct (last idx IdxEllipsis) as [i|a b c| |irs] eqn:El; try exact E.
    exfalso. now apply (Hirr irs).
Qed.

End IndexingFacts.

Lemma mulir_eqb_eq (a b : Irreps.MulIr) : Irreps.mulir_eqb a b = true <-> a = b.
Proof.
  destruct a as [ma ia], b as [mb ib]. unfold Irreps.mulir_eqb. cbn [fst snd].
  rewrite andb_true_iff, Nat.eqb_eq, ir_eqb_eq. split; [intros [-> ->] | intros [= -> ->]]; auto.
Qed.

Lemma index_of_occurs (mi : Irreps.MulIr) (irs : Irreps.t) :
  0 < count_of mi irs ->
  index_of mi irs < length irs /\ nth_error irs (index_of mi irs) = Some mi.
Proof.
  unfold count_of. induction irs as [|y irs IH]; cbn [filter index_of length]; [simpl; lia|].
  destruct (Irreps.mulir_eqb y mi) eqn:E.
  - intros _. apply mulir_eqb_eq in E. subst y. split; [lia | reflexivity].
  - intros Hc. destruct (IH Hc) as [Hlt Hn]. split; [lia | exact Hn].
Qed.

Lemma py_slice_one {X : Type} (l : list X) (i : nat) (x : X) :
  nth_error l i = Some x -> py_slice i (i + 1) l = [x].
Proof.
  unfold py_slice. revert i. induction l as [|y l IH]; intros [|i] E; try discriminate.
  - injection E as ->. reflexivity.
  - simpl in E. apply IH in E. exact E.
Qed.

Lemma fits_nth {A : Type} (lead : list nat) (l : list (option (ndarray A))) (irs : Irreps.t)
  (i : nat) (mi : Irreps.MulIr) :
  Forall2 (block_fits lead) l irs -> nth_error irs i = Some mi ->
  exists x, nth_error l i = Some x /\ block_fits lead x mi.
Proof.
  intros Hfit. revert i. induction Hfit as [|x m l irs Hx _ IH]; intros [|i] E; try discriminate.
  - injection E as <-. exists x. auto.
  - now apply IH.
Qed.

Lemma selects_all_snoc (n : nat) (pre : list index_entry) :
  selects_all n pre -> selects_all (S n) (pre ++ [full_slice]).
Proof.
  intros (Hall & He & Hs). unfold selects_all. rewrite !filter_app, !length_app. cbn.
  repeat split; try lia. apply Forall_app. split; [exact Hall|]. constructor; auto.
Qed.

Section SelectAll.
Context {T : Type} `{Scalar T}.
Variable getitem : ndarray T -> list index_entry -> result (ndarray T).
Hypothesis getitem_all :
  forall (a : ndarray T) (index : list index_entry),
    selects_all (ndim a) index -> getitem a index = Ok a.

(** Selecting an entry of the spec by its irreps, over a runtime whose
    indexing returns the array itself for an index of full slices and an
    ellipsis.  For a tensor [t] that passes the constructor's checks and
    an entry [mi] that occurs exactly once in its spec,
    [t[..., mi]] (or with full slices in place of the ellipsis) returns the
    tensor that [from_list] builds from the block of that entry alone: its
    spec is [mi], its only block is the block of [t] at the position of
    [mi] in the spec, which stays [None] if it is [None] in [t]. *)
Theorem getitem_selects_block (t : IrrepsArray T) (l : list (option (ndarray T)))
  (pre : list index_entry) (mi : Irreps.MulIr) :
  checked t ->
  list_ t = Ok l ->
  count_of mi (irreps t) = 1 ->
  selects_all (ndim (array t) - 1) pre ->
  existsb is_ellipse pre = true \/ length pre + 1 = ndim (array t) ->
  exists x arr,
    nth_error l (index_of mi (irreps t)) = Some x
    /\ from_list [mi] [x] (removelast (shape_of t)) = Ok (mkIrrepsArray [mi] arr (Some [x]))
    /\ __getitem__ getitem t (pre ++ [IdxIrreps [mi]])
       = Returns (mkIrrepsArray [mi] arr (Some [x])).
Proof.
  intros Hck El Hcount Hpre Hpos.
  destruct (checked_list_fits Hck) as (Hs & l' & El' & Hfit).
  assert (l' = l) by congruence. subst l'.
  set (lead := removelast (shape (array t))) in *.
  destruct (@index_of_occurs mi (irreps t)) as [Hlt Hnth]; [lia|].
  destruct (fits_nth _ Hfit Hnth) as (x & Ex & Hx).
  assert (Hfit1 : Forall2 (block_fits lead) [x] [mi]) by (repeat constructor; exact Hx).
  destruct (from_list_ok Hfit1) as (arr & Efl & Hsa & _).
  exists x, arr. split; [exact Ex|]. unfold shape_of. fold lead. split; [exact Efl|].
  assert (Hnd : ndim (array t) = S (length lead)).
  { unfold ndim. rewrite Hs, length_app. simpl. lia. }
  unfold __getitem__.
  destruct (pre ++ [IdxIrreps [mi]]) as [|e0 rest] eqn:Eidx; [now destruct pre|].
  rewrite <- Eidx. rewrite last_last, removelast_snoc.
  replace (existsb is_ellipse pre || (length (pre ++ [IdxIrreps [mi]]) =? ndim (array t)))
    with true.
  2:{ symmetry. apply orb_true_iff. rewrite Nat.eqb_eq, length_app. simpl. tauto. }
  cbn [negb length Nat.eqb]. rewrite Hcount. cbn [Nat.eqb negb].
  rewrite El. cbn [bind]. rewrite (@py_slice_one _ l _ x Ex). unfold shape_of. fold lead.
  rewrite Efl. cbn [bind].
  unfold getitem_leading. cbn [array irreps].
  destruct (pre ++ [full_slice]) as [|e1 rest1] eqn:Eidx1;
    [exfalso; destruct pre; discriminate|].
  rewrite <- Eidx1. cbn [bind]. rewrite last_last. clear Eidx1 e1 rest1.
  assert (Hsel : selects_all (S (length lead)) (pre ++ [full_slice])).
  { apply selects_all_snoc. rewrite Hnd in Hpre. now replace (S (length lead) - 1)
      with (length lead) in Hpre by lia. }
  cbn [is_ellipse is_none_slice full_slice orb negb]. rewrite andb_false_r.
  rewrite getitem_all.
  2:{ unfold ndim. rewrite Hsa, length_app. cbn [length]. rewrite Nat.add_1_r. exact Hsel. }
  cbn [bind]. unfold list_, list_cached. cbn [_list bind mapM].
  assert (Eb : match x with
               | None => Ok None
               | Some x0 =>
                   r <- getitem x0 ((pre ++ [full_slice]) ++ [full_slice]) ;; Ok (Some r)
               end = Ok x).
  { destruct x as [b|]; [|reflexivity]. simpl in Hx. rewrite getitem_all; [reflexivity|].
    unfold ndim. rewrite Hx, length_app. simpl.
    replace (length lead + 2) with (S (S (length lead))) by lia.
    now apply selects_all_snoc. }
  rewrite Eb. cbn [bind].
  now rewrite (@init_with_list _ [mi] arr lead [x] Hsa Hfit1).
Qed.

End SelectAll.

(** ** Iteration *)

Lemma map_outcome_map {X Y : Type} (f : X -> outcome Y) (g : X -> Y) (l : list X) :
  (forall x, In x l -> f x = Returns (g x)) -> map_outcome f l = Returns (map g l).
Proof.
  induction l as [|x l IH]; intros Hf; [reflexivity|]. cbn [map_outcome map].
  rewrite (Hf x) by now left. rewrite IH by (intros y Hy; apply Hf; now right). reflexivity.
Qed.

Section Rows.
Context {T : Type} `{Scalar T}.
Variable getitem : ndarray T -> list index_entry -> result (ndarray T).
Hypothesis getitem_row :
  forall (a : ndarray T) (n : nat) (s : list nat) (i : nat),
    shape a = n :: s -> i < n ->
    getitem a [IdxInt (Z.of_nat i)] = Ok (row i a)
    /\ (s <> [] -> getitem a [IdxInt (Z.of_nat i); full_slice] = Ok (row i a)).

Lemma row_blocks (lead' : list nat) (n i : nat) (l : list (option (ndarray T)))
  (irs : Irreps.t) :
  i < n ->
  Forall2 (block_fits (n :: lead')) l irs ->
  mapM (fun x : option (ndarray T) =>
          match x with
          | None => Ok None
          | Some x => r <- getitem x ([IdxInt (Z.of_nat i)] ++ [full_slice]) ;; Ok (Some r)
          end) l
  = Ok (map (fun x => match x with
                      | None => None
                      | Some x => Some (row i x)
                      end) l)
  /\ Forall2 (block_fits lead')
       (map (fun x => match x with
                      | None => None
                      | Some x => Some (row i x)
                      end) l) irs.
Proof.
  intros Hi. induction 1 as [|x mi l irs Hx _ [E Hfit]]; [split; [reflexivity | constructor]|].
  cbn [mapM map]. rewrite E. split.
  - destruct x as [b|]; [|reflexivity]. simpl in Hx.
    destruct (@getitem_row b n (lead' ++ [fst mi; Irreps.ir_dim (snd mi)]) i Hx Hi) as [_ Hr].
    cbn [app]. rewrite Hr; [reflexivity|]. now destruct lead'.
  - constructor; [|exact Hfit]. destruct x as [b|]; [|exact I].
    simpl in Hx. unfold block_fits, row. cbn [shape]. now rewrite Hx.
Qed.

(** Iterating over a tensor, over a runtime whose indexing by an integer
    within the first axis (alone, or followed by a full slice) returns
    that row.  With one axis or none [__iter__] raises [ValueError].  A
    tensor with two axes or more that passes the constructor's checks
    yields one tensor per position of its first axis, [len(self)] in all:
    the row of its buffer with the rows of its blocks, over the same spec,
    a block that is [None] staying [None]; each passes the constructor's
    checks, and the buffers of the rows, one after the other, are the
    buffer of the tensor when that is well formed. *)
Theorem iter_rows (t : IrrepsArray T) (l : list (option (ndarray T))) :
  checked t ->
  list_ t = Ok l ->
  (ndim (array t) <= 1 -> __iter__ getitem t = Raises ValueError)
  /\ (2 <= ndim (array t) ->
      exists n,
        __len__ t = Ok n
        /\ __iter__ getitem t = Returns (map (row_of t l) (seq 0 n))
        /\ Forall (fun r => checked r) (map (row_of t l) (seq 0 n))
        /\ (jnp.wf (array t) ->
            flat_map (fun r : IrrepsArray T => data (array r)) (map (row_of t l) (seq 0 n))
            = data (array t))).
Proof.
  intros Hck El. split.
  - intros Hn. unfold __iter__. now rewrite (proj2 (Nat.leb_le _ _) Hn).
  - intros Hn. destruct (checked_list_fits Hck) as (Hs & l' & El' & Hfit).
    assert (l' = l) by congruence. subst l'.
    destruct (removelast (shape (array t))) as [|n lead'] eqn:Elead.
    { exfalso. unfold ndim in Hn. rewrite Hs in Hn. simpl in Hn. lia. }
    cbn [app] in Hs. exists n.
    assert (Hlen : __len__ t = Ok n) by (unfold __len__; now rewrite Hs).
    split; [exact Hlen|].
    assert (Hrow : forall i, i < n ->
              __init__ (irreps t) (row i (array t))
                (Some (map (fun x => match x with
                                     | None => None
                                     | Some x => Some (row i x)
                                     end) l)) true
              = Ok (row_of t l i)).
    { intros i Hi. destruct (row_blocks Hi Hfit) as [_ Hfit'].
      apply init_with_list with (lead := lead'); [|exact Hfit'].
      unfold row. cbn [shape]. now rewrite Hs. }
    split; [|split].
    + unfold __iter__. replace (ndim (array t) <=? 1) with false
        by (symmetry; apply Nat.leb_gt; lia).
      rewrite Hlen. apply map_outcome_map. intros i Hi. apply in_seq in Hi.
      assert (Hi' : i < n) by lia.
      unfold __getitem__. cbn [last]. unfold getitem_leading. cbn [bind last length].
      replace (1 =? ndim (array t)) with false by (symmetry; apply Nat.eqb_neq; lia).
      cbn [existsb is_ellipse orb andb].
      destruct (@getitem_row (array t) n (lead' ++ [Irreps.dim (irreps t)]) i Hs Hi') as [Hr _].
      rewrite Hr. cbn [bind]. rewrite El. cbn [bind].
      destruct (row_blocks Hi' Hfit) as [Eb _]. rewrite Eb. cbn [bind].
      now rewrite (Hrow i Hi').
    + apply Forall_forall. intros r Hr. apply in_map_iff in Hr as (i & <- & Hi).
      apply in_seq in Hi. unfold checked. cbn [row_of irreps array _list].
      apply Hrow. lia.
    + intros Hwf. rewrite flat_map_concat_map, map_map, <- flat_map_concat_map.
      unfold row_of, row. cbn [array data]. rewrite Hs. cbn [tl].
      apply flat_map_chunks. unfold jnp.wf in Hwf. rewrite Hwf, Hs. reflexivity.
Qed.

End Rows.

(** *** The indexing of the examples *)

Lemma getitem_rows_all {A : Type} (a : ndarray A) (index : list index_entry) :
  selects_all (ndim a) index -> getitem_rows a index = Ok a.
Proof.
  intros (Hall & He & Hs). unfold getitem_rows.
  assert (Hf : forallb (fun e => is_ellipse e || is_none_slice e) index = true).
  { apply forallb_forall. intros e He'.
    destruct (proj1 (Forall_forall _ _) Hall e He') as [-> | ->]; reflexivity. }
  rewrite Hf, (proj2 (Nat.leb_le _ _) He), (proj2 (Nat.leb_le _ _) Hs).
  destruct index as [|e rest]; [reflexivity|].
  destruct e; try reflexivity.
  apply Forall_inv in Hall. destruct Hall; discriminate.
Qed.

Lemma getitem_rows_row {A : Type} (a : ndarray A) (n : nat) (s : list nat) (i : nat) :
  shape a = n :: s -> i < n ->
  getitem_rows a [IdxInt (Z.of_nat i)] = Ok (row i a)
  /\ (s <> [] -> getitem_rows a [IdxInt (Z.of_nat i); full_slice] = Ok (row i a)).
Proof.
  intros Hs Hi. unfold getitem_rows. rewrite Hs.
  replace ((0 <=? Z.of_nat i)%Z && (Z.of_nat i <? Z.of_nat n)%Z) with true.
  2:{ symmetry. apply andb_true_iff. rewrite Z.leb_le, Z.ltb_lt. lia. }
  rewrite Nat2Z.id. split; [reflexivity|].
  intros Hne. cbn [forallb is_none_slice full_slice andb length].
  destruct s; [congruence | reflexivity].
Qed.

(** [getitem_selects_block] at [t[..., "1x1e"]] for a tensor over
    [0e + 1e], with the indexing of the examples. *)
Lemma getitem_selects_block_witness :
  let t := mkIrrepsArray [(1, Irreps.ir0e); (1, Irreps.ir1e)] (mk [1; 4] [1; 2; 3; 4]%Z) None in
  __getitem__ getitem_rows t [IdxEllipsis; IdxIrreps [(1, Irreps.ir1e)]]
  = Returns (mkIrrepsArray [(1, Irreps.ir1e)] (mk [1; 3] [2; 3; 4]%Z)
               (Some [Some (mk [1; 1; 3] [2; 3; 4]%Z)])).
Proof.
  intros t.
  destruct (@getitem_selects_block Z _ getitem_rows (@getitem_rows_all Z) t
              [Some (mk [1; 1; 1] [1]%Z); Some (mk [1; 1; 3] [2; 3; 4]%Z)]
              [IdxEllipsis] (1, Irreps.ir1e)) as (x & arr & Ex & Efl & E).
  - reflexivity.
  - reflexivity.
  - reflexivity.
  - unfold selects_all. simpl. repeat split; auto.
  - now left.
  - injection Ex as <-. injection Efl as <-. exact E.
Defined.

(** [iter_rows] at a tensor of shape [(2, 4)] over [0e + 1e], with the
    indexing of the examples. *)
Lemma iter_rows_witness :
  let t := mkIrrepsArray [(1, Irreps.ir0e); (1, Irreps.ir1e)]
             (mk [2; 4] [1; 2; 3; 4; 5; 6; 7; 8]%Z) None in
  __iter__ getitem_rows t
  = Returns [mkIrrepsArray [(1, Irreps.ir0e); (1, Irreps.ir1e)] (mk [4] [1; 2; 3; 4]%Z)
               (Some [Some (mk [1; 1] [1]%Z); Some (mk [1; 3] [2; 3; 4]%Z)]);
             mkIrrepsArray [(1, Irreps.ir0e); (1, Irreps.ir1e)] (mk [4] [5; 6; 7; 8]%Z)
               (Some [Some (mk [1; 1] [5]%Z); Some (mk [1; 3] [6; 7; 8]%Z)])].
Proof.
  intros t.
  destruct (@iter_rows Z _ getitem_rows (@getitem_rows_row Z) t
              [Some (mk [2; 1; 1] [1; 5]%Z); Some (mk [2; 1; 3] [2; 3; 4; 6; 7; 8]%Z)])
    as [_ Hrows].
  - reflexivity.
  - reflexivity.
  - destruct Hrows as (n & Hlen & E & _); [unfold t, ndim; simpl; lia|].
    injection Hlen as <-. exact E.
Defined.

(** ** Broadcasting the leading axes *)

Lemma broadcast_rev_prefix (r s t : list nat) :
  broadcast_rev (r ++ s) (r ++ t) = (x <- broadcast_rev s t ;; Ok (r ++ x)).
Proof.
  induction r as [|a r IH]; cbn [app].
  - now destruct (broadcast_rev s t).
  - cbn [broadcast_rev]. rewrite IH. destruct (broadcast_rev s t) as [x|e]; cbn [bind].
    + now rewrite Nat.eqb_refl.
    + reflexivity.
Qed.

Lemma broadcast_shapes_suffix (lead s tl : list nat) :
  broadcast_shapes lead s = Ok s ->
  broadcast_shapes (lead ++ tl) (s ++ tl) = Ok (s ++ tl).
Proof.
  unfold broadcast_shapes. intros E. apply bind_ok in E as (r & Er & E).
  injection E as E. rewrite !rev_app_distr, broadcast_rev_prefix, Er. cbn [bind].
  now rewrite rev_app_distr, rev_involutive, E.
Qed.

Lemma nonneg_of_nat (s : list nat) : forallb (fun d => (0 <=? d)%Z) (map Z.of_nat s) = true.
Proof.
  apply forallb_forall. intros d Hd. apply in_map_iff in Hd as (n & <- & _).
  apply Z.leb_le. lia.
Qed.

Lemma to_nat_of_nat (s : list nat) : map Z.to_nat (map Z.of_nat s) = s.
Proof.
  rewrite map_map. rewrite <- (map_id s) at 2. apply map_ext. intros n. apply Nat2Z.id.
Qed.

(** Broadcasting a well-formed array to its own shape returns it. *)
Lemma broadcast_own_shape {A : Type} (a : ndarray A) :
  jnp.wf a ->
  mk (shape a) (flat_map (fun idx => match bget a idx with
                                     | Some x => [x]
                                     | None => []
                                     end) (indices (shape a))) = a.
Proof.
  intros Hwf. destruct a as [s d]. cbn [shape data] in *. f_equal.
  rewrite (flat_map_ext_in _
             (fun idx => match nth_error d (offset s idx) with
                         | Some x => [x]
                         | None => []
                         end)).
  - rewrite (flat_map_concat_map _ (indices s)).
    rewrite <- (map_map (offset s)
                  (fun k => match nth_error d k with
                            | Some x => [x]
                            | None => []
                            end)).
    rewrite offsets_of_indices, <- flat_map_concat_map.
    unfold jnp.wf in Hwf. cbn [shape data] in Hwf. rewrite <- Hwf.
    rewrite <- (map_id d) at 2. apply (map_by_position (fun x => x) d []).
  - intros idx Hidx. unfold bget. cbn [shape data].
    now rewrite (indices_length _ _ Hidx), Nat.sub_diag.
Qed.

Lemma broadcast_to_ok {A : Type} (a : ndarray A) (lead s tl : list nat) :
  shape a = lead ++ tl ->
  broadcast_shapes lead s = Ok s ->
  exists r,
    broadcast_to a (map Z.of_nat (s ++ tl)) = Ok r
    /\ shape r = s ++ tl
    /\ (s = lead -> jnp.wf a -> r = a).
Proof.
  intros Hs Hb. unfold broadcast_to. rewrite nonneg_of_nat, to_nat_of_nat, Hs.
  rewrite (@broadcast_shapes_suffix _ _ tl Hb). cbn [bind]. rewrite shape_eqb_refl.
  eexists. split; [reflexivity|]. split; [reflexivity|].
  intros -> Hwf. rewrite <- Hs. now apply broadcast_own_shape.
Qed.

Section Broadcast.
Context {T : Type} `{Scalar T}.

Lemma broadcast_blocks_ok (lead s : list nat) (l : list (option (ndarray T)))
  (irs : Irreps.t) :
  broadcast_shapes lead s = Ok s ->
  Forall2 (block_fits lead) l irs ->
  exists lst,
    mapM (fun mx : Irreps.MulIr * option (ndarray T) =>
            match snd mx with
            | None => Ok None
            | Some x =>
                r <- broadcast_to x
                       (map Z.of_nat s ++ [Z.of_nat (fst (fst mx));
                                           Z.of_nat (Irreps.ir_dim (snd (fst mx)))]) ;;
                Ok (Some r)
            end) (combine irs l) = Ok lst
    /\ Forall2 (block_fits s) lst irs
    /\ Forall2 (fun x y : option (ndarray T) => x = None <-> y = None) l lst
    /\ (s = lead -> Forall2 (block_wf lead) l irs -> lst = l).
Proof.
  intros Hb Hfit. induction Hfit as [|x mi l irs Hx _ IH].
  - exists []. repeat split; constructor.
  - destruct IH as (lst & E & Hfit' & Hnone & Hid). cbn [combine mapM fst snd].
    destruct x as [b|].
    + simpl in Hx.
      destruct (@broadcast_to_ok T b lead s [fst mi; Irreps.ir_dim (snd mi)] Hx Hb)
        as (r & Er & Hr & Hrid).
      rewrite map_app in Er. cbn [map] in Er. rewrite Er. cbn [bind]. rewrite E. cbn [bind].
      exists (Some r :: lst). split; [reflexivity|]. split; [constructor; [exact Hr | exact Hfit']|].
      split; [constructor; [split; discriminate | exact Hnone]|].
      intros Es Hwf. inversion Hwf as [|? ? ? ? Hwb Hwf']; subst.
      simpl in Hwb. destruct Hwb as [_ Hwb].
      rewrite (Hrid eq_refl Hwb). f_equal. now apply Hid.
    + rewrite E. cbn [bind]. exists (None :: lst). split; [reflexivity|].
      split; [constructor; [exact I | exact Hfit']|].
      split; [constructor; [tauto | exact Hnone]|].
      intros Es Hwf. inversion Hwf; subst. f_equal. now apply Hid.
Qed.

(** [IrrepsArray.broadcast_to].  The target is a tuple whose last entry
    must be the dimension of the spec or [-1]: the empty tuple raises
    [IndexError] at [shape[-1]] and any other last entry fails the
    assertion.  For a tensor [t] that passes the constructor's checks and a
    target [s + (n,)] with such an [n], whose leading part [s] is a shape
    the leading shape of [t] broadcasts to, the result is a tensor over the
    same spec that passes the checks: its buffer is the buffer of [t]
    broadcast to [s + (dim,)], it stores one block per entry of leading
    shape [s], and a block is [None] exactly where the block of [t] is.  A
    well-formed tensor broadcast to its own leading shape is returned with
    its buffer and blocks unchanged. *)
Theorem broadcast_to_spec (t : IrrepsArray T) (s : list nat) (n : Z) :
  checked t ->
  broadcast_shapes (removelast (shape_of t)) s = Ok s ->
  broadcast_to_ t [] = Raise IndexError
  /\ (n <> Z.of_nat (Irreps.dim (irreps t)) -> n <> (-1)%Z ->
      broadcast_to_ t (map Z.of_nat s ++ [n]) = Raise AssertionError)
  /\ (n = Z.of_nat (Irreps.dim (irreps t)) \/ n = (-1)%Z ->
      exists l arr lst,
        list_ t = Ok l
        /\ broadcast_to_ t (map Z.of_nat s ++ [n])
           = Ok (mkIrrepsArray (irreps t) arr (Some lst))
        /\ broadcast_to (array t) (map Z.of_nat (s ++ [Irreps.dim (irreps t)])) = Ok arr
        /\ shape arr = s ++ [Irreps.dim (irreps t)]
        /\ Forall2 (block_fits s) lst (irreps t)
        /\ Forall2 (fun x y : option (ndarray T) => x = None <-> y = None) l lst
        /\ checked (mkIrrepsArray (irreps t) arr (Some lst))
        /\ (s = removelast (shape_of t) -> jnp.wf (array t) ->
            Forall2 (block_wf s) l (irreps t) ->
            arr = array t /\ lst = l)).
Proof.
  intros Hck Hb. split; [reflexivity|].
  assert (Hlast : last_entry (map Z.of_nat s ++ [n]) = Ok n).
  { unfold last_entry. rewrite last_last. now destruct (map Z.of_nat s). }
  split.
  - intros H1 H2. unfold broadcast_to_. rewrite Hlast. cbn [bind].
    replace ((n =? Z.of_nat (Irreps.dim (irreps t)))%Z || (n =? -1)%Z) with false; [reflexivity|].
    symmetry. apply orb_false_iff. rewrite !Z.eqb_neq. auto.
  - intros Hn. destruct (checked_list_fits Hck) as (Hsh & l & El & Hfit).
    unfold shape_of in Hb.
    destruct (@broadcast_to_ok T (array t) _ s [Irreps.dim (irreps t)] Hsh Hb)
      as (arr & Ea & Hsa & Hida).
    destruct (broadcast_blocks_ok Hb Hfit) as (lst & Eb & Hfit' & Hnone & Hidb).
    exists l, arr, lst. split; [exact El|].
    assert (Hinit := init_with_list _ Hsa Hfit').
    split; [|split; [exact Ea|split; [exact Hsa|split; [exact Hfit'|split; [exact Hnone|]]]]].
    + unfold broadcast_to_. rewrite Hlast. cbn [bind].
      replace ((n =? Z.of_nat (Irreps.dim (irreps t)))%Z || (n =? -1)%Z) with true.
      2:{ symmetry. apply orb_true_iff. rewrite !Z.eqb_eq. exact Hn. }
      cbn [assert bind]. rewrite removelast_snoc.
      rewrite map_app in Ea. cbn [map] in Ea. rewrite Ea. cbn [bind]. rewrite El. cbn [bind].
      rewrite Eb. cbn [bind]. exact Hinit.
    + split; [exact Hinit|]. intros Es Hwf Hwfb. split.
      * now apply Hida.
      * apply Hidb; [exact Es | rewrite Es in Hwfb; exact Hwfb].
Qed.

End Broadcast.

(** [broadcast_to_spec] at a tensor of shape [(1, 2)] over [2x0e]
    broadcast to [(2, -1)]. *)
Lemma broadcast_to_spec_witness :
  let t := mkIrrepsArray [(2, Irreps.ir0e)] (mk [1; 2] [5; 7]%Z) None in
  exists arr lst,
    broadcast_to_ t [2; -1]%Z = Ok (mkIrrepsArray [(2, Irreps.ir0e)] arr (Some lst))
    /\ broadcast_to (array t) [2; 2]%Z = Ok arr
    /\ shape arr = [2; 2].
Proof.
  intros t. destruct (@broadcast_to_spec Z t [2] (-1)%Z) as (_ & _ & Hok).
  - reflexivity.
  - reflexivity.
  - destruct Hok as (l & arr & lst & El & E & Ea & Hsa & _); [now right|].
    exists arr, lst. split; [exact E|]. split; [exact Ea | exact Hsa].
Defined.

(** ** Flattening into children and back *)

Section Tree.
Context {A : Type}.

(** The tree registration.  For a tensor [t] that passes the constructor's
    checks, flattening never fails and gives the buffer and the block view
    as children and the spec as auxiliary data; unflattening these gives
    the tensor with the same spec and buffer that stores the block view,
    which passes the checks, flattens to the same children and data, and
    is [t] itself when [t] stores its block view. *)
Theorem pytree_round_trip (t : IrrepsArray A) :
  checked t ->
  exists l,
    list_ t = Ok l
    /\ tree_flatten t = Ok ((array t, l), irreps t)
    /\ tree_unflatten (irreps t) (array t, l)
       = Ok (mkIrrepsArray (irreps t) (array t) (Some l))
    /\ checked (mkIrrepsArray (irreps t) (array t) (Some l))
    /\ tree_flatten (mkIrrepsArray (irreps t) (array t) (Some l))
       = Ok ((array t, l), irreps t)
    /\ (_list t <> None -> mkIrrepsArray (irreps t) (array t) (Some l) = t).
Proof.
  intros Hck. destruct (checked_list_fits Hck) as (Hs & l & El & Hfit).
  exists l. split; [exact El|]. split; [unfold tree_flatten; now rewrite El|].
  split; [reflexivity|]. split; [exact (init_with_list _ Hs Hfit)|].
  split; [reflexivity|].
  intros Hl. destruct t as [irs a [l0|]]; [|exfalso; apply Hl; reflexivity].
  cbn [irreps array _list] in *. unfold list_, list_cached in El. cbn [_list bind] in El.
  congruence.
Qed.

End Tree.

(** [pytree_round_trip] at a tensor over [0e + 1e] with a lazy block view. *)
Lemma pytree_round_trip_witness :
  let t := mkIrrepsArray [(1, Irreps.ir0e); (1, Irreps.ir1e)] (mk [4] [1; 2; 3; 4]%Z) None in
  tree_flatten t
  = Ok ((mk [4] [1; 2; 3; 4]%Z, [Some (mk [1; 1] [1]%Z); Some (mk [1; 3] [2; 3; 4]%Z)]),
        [(1, Irreps.ir0e); (1, Irreps.ir1e)]).
Proof.
  intros t. destruct (@pytree_round_trip Z t) as (l & El & E & _).
  - reflexivity.
  - injection El as <-. exact E.
Defined.

(** ** Concatenation along a leading axis *)

Lemma zip_cons_columns {X Y : Type} (Q : X -> Y -> Prop) (P : list X -> Y -> Prop)
  (l : list X) (cols : list (list X)) (ys : list Y) :
  Forall2 Q l ys ->
  Forall2 P cols ys ->
  Forall2 (fun col y => exists x c, col = x :: c /\ Q x y /\ P c y)
    (map (fun p : X * list X => fst p :: snd p) (combine l cols)) ys.
Proof.
  intros HQ. revert cols. induction HQ as [|x y l ys Hx _ IH]; intros cols HP.
  - inversion HP; subst. constructor.
  - inversion HP as [|c ? cols' ? Hc HP']; subst. cbn [combine map fst snd].
    constructor; [exists x, c; auto | now apply IH].
Qed.

(** The zip of unpacked lists that are all as long as [ys]: one column
    per position, holding the elements of the lists in order. *)
Lemma zip_star_columns {X Y W : Type} (Q : W -> X -> Y -> Prop) (ls : list (list X))
  (ws : list W) (ys : list Y) :
  ls <> [] ->
  Forall2 (fun l w => Forall2 (Q w) l ys) ls ws ->
  Forall2 (fun col y => Forall2 (fun x w => Q w x y) col ws) (zip_star ls) ys.
Proof.
  intros Hne HF. induction HF as [|l w ls ws Hl HF IH]; [congruence|].
  destruct ls as [|l2 ls'].
  - inversion HF; subst. cbn [zip_star]. clear -Hl.
    induction Hl as [|x y l ys Hx _ IH]; cbn [map]; constructor; [|exact IH].
    repeat constructor. exact Hx.
  - assert (IH' := IH ltac:(discriminate)). clear IH.
    change (zip_star (l :: l2 :: ls'))
      with (map (fun p : X * list X => fst p :: snd p) (combine l (zip_star (l2 :: ls')))).
    eapply Forall2_impl; [|exact (@zip_cons_columns _ _ _ _ _ _ _ Hl IH')].
    intros col y (x & c & -> & Hx & Hc). now constructor.
Qed.

Section ConcatLeading.
Context {T : Type} `{Scalar T}.

Lemma irreps_eqb_refl (irs : Irreps.t) : Irreps.eqb irs irs = true.
Proof.
  destruct (Irreps.eqb irs irs) eqn:E; [reflexivity|].
  apply irreps_eqb_neq in E. congruence.
Qed.

Lemma replace_none_ok (t : IrrepsArray T) :
  checked t ->
  exists l,
    Forall2 (block_fits (removelast (shape_of t))) l (irreps t)
    /\ replace_none_with_zeros t
       = Ok (mkIrrepsArray (irreps t) (array t)
               (Some (dense_view (removelast (shape_of t)) (irreps t) l))).
Proof.
  intros Hck. destruct (checked_list_fits Hck) as (Hs & l & El & Hfit).
  exists l. split; [exact Hfit|].
  unfold replace_none_with_zeros. rewrite El. cbn [bind]. rewrite replaced_is_dense.
  unfold shape_of. exact (init_with_list _ Hs (block_of_fits (dense_view_blocks Hfit))).
Qed.

Lemma unwrap_blocks (col : list (option (ndarray T))) (ws : list nat)
  (mk_shape : nat -> list nat) :
  Forall2 (fun x w => exists b, x = Some b /\ shape b = mk_shape w) col ws ->
  exists bs,
    mapM (fun x : option (ndarray T) =>
            match x with
            | None => Raise TypeError
            | Some x => Ok x
            end) col = Ok bs
    /\ Forall2 (fun b w => shape b = mk_shape w) bs ws.
Proof.
  induction 1 as [|x w col ws (b & -> & Hb) _ (bs & E & Hbs)].
  - exists []. split; [reflexivity | constructor].
  - exists (b :: bs). cbn [mapM bind]. rewrite E. split; [reflexivity | now constructor].
Qed.

Lemma concatenate_at_ok {X : Type} (parts : list (ndarray X)) (pre post ws : list nat) :
  Forall2 (fun p w => shape p = pre ++ w :: post) parts ws ->
  parts <> [] ->
  exists r,
    concatenate_at parts (length pre) = Ok r
    /\ shape r = pre ++ list_sum ws :: post.
Proof.
  intros HF Hne. destruct parts as [|p0 parts']; [congruence|].
  unfold concatenate_at.
  assert (H0 : exists w0, shape p0 = pre ++ w0 :: post) by (inversion HF; subst; eauto).
  destruct H0 as (w0 & Hs0). unfold ndim. rewrite Hs0, length_app. cbn [length].
  replace (length pre <? length pre + S (length post)) with true
    by (symmetry; apply Nat.ltb_lt; lia).
  replace (length pre + S (length post) - length pre) with (S (length post)) by lia.
  rewrite (@concatenate_ok _ _ _ _ _ HF Hne). eexists. split; reflexivity.
Qed.

Lemma concatenate_blocks_ok (pre post ws : list nat) (mi : Irreps.MulIr)
  (col : list (option (ndarray T))) :
  ws <> [] ->
  Forall2 (fun x w => block_of (pre ++ w :: post) x mi) col ws ->
  exists r,
    concatenate_blocks (length pre) col = Ok (Some r)
    /\ shape r = (pre ++ list_sum ws :: post) ++ [fst mi; Irreps.ir_dim (snd mi)].
Proof.
  intros Hne HF.
  destruct (@unwrap_blocks col ws
              (fun w => pre ++ w :: post ++ [fst mi; Irreps.ir_dim (snd mi)]))
    as (bs & Ebs & Hbs).
  { eapply Forall2_impl; [|exact HF]. intros x w (b & -> & Hb). exists b. split; [reflexivity|].
    rewrite Hb, <- app_assoc. reflexivity. }
  assert (Hbne : bs <> []).
  { intros ->. inversion Hbs; subst. congruence. }
  destruct (@concatenate_at_ok _ bs pre (post ++ [fst mi; Irreps.ir_dim (snd mi)]) ws Hbs Hbne)
    as (r & Er & Hr).
  exists r. unfold concatenate_blocks. rewrite Ebs. cbn [bind]. rewrite Er. cbn [bind].
  split; [reflexivity|]. rewrite Hr, <- app_assoc. reflexivity.
Qed.

Lemma concatenate_columns_ok (pre post ws : list nat) (irs : Irreps.t)
  (cols : list (list (option (ndarray T)))) :
  ws <> [] ->
  Forall2 (fun col mi => Forall2 (fun x w => block_of (pre ++ w :: post) x mi) col ws)
    cols irs ->
  exists lst,
    mapM (concatenate_blocks (length pre)) cols = Ok lst
    /\ Forall2 (block_of (pre ++ list_sum ws :: post)) lst irs.
Proof.
  intros Hne. induction 1 as [|col mi cols irs Hcol _ (lst & E & Hl)].
  - exists []. split; [reflexivity | constructor].
  - destruct (@concatenate_blocks_ok pre post ws mi col Hne Hcol) as (r & Er & Hr).
    exists (Some r :: lst). cbn [mapM]. rewrite Er. cbn [bind]. rewrite E. cbn [bind].
    split; [reflexivity|]. constructor; [|exact Hl]. exists r. split; [reflexivity | exact Hr].
Qed.

(** The tensors after [replace_none_with_zeros], their buffers and their
    block views. *)
Lemma replaced_all (irs : Irreps.t) (pre post ws : list nat) (arrays : list (IrrepsArray T)) :
  Forall (fun x : IrrepsArray T => checked x /\ irreps x = irs) arrays ->
  Forall2 (fun (x : IrrepsArray T) w => shape_of x = pre ++ w :: post ++ [Irreps.dim irs])
    arrays ws ->
  exists arrays' lists,
    mapM replace_none_with_zeros arrays = Ok arrays'
    /\ map (fun x : IrrepsArray T => array x) arrays'
       = map (fun x : IrrepsArray T => array x) arrays
    /\ Forall (fun x : IrrepsArray T => irreps x = irs) arrays'
    /\ length arrays' = length arrays
    /\ mapM (fun x : IrrepsArray T => list_ x) arrays' = Ok lists
    /\ Forall2 (fun l w => Forall2 (fun x mi => block_of (pre ++ w :: post) x mi) l irs)
         lists ws.
Proof.
  intros Hall HF. induction HF as [|x w arrays ws Hs _ IH].
  - exists [], []. repeat split; constructor.
  - inversion Hall as [|? ? [Hck Hirs] Hall']; subst.
    destruct (IH Hall') as (arrays' & lists & E & Ea & Hi & Hlen & El & Hl).
    destruct (replace_none_ok Hck) as (l & Hfit & Er).
    assert (Hlead : removelast (shape_of x) = pre ++ w :: post).
    { rewrite Hs. change (pre ++ w :: post ++ [Irreps.dim (irreps x)])
        with (pre ++ (w :: post) ++ [Irreps.dim (irreps x)]).
      rewrite app_assoc. apply removelast_snoc. }
    rewrite Hlead in Er, Hfit.
    eexists (_ :: arrays'), (_ :: lists). cbn [mapM]. rewrite Er. cbn [bind].
    rewrite E. cbn [bind map array irreps length].
    split; [reflexivity|]. split; [now rewrite Ea|]. split; [now constructor|].
    split; [now rewrite Hlen|].
    unfold list_ at 1, list_cached. cbn [_list bind]. rewrite El. cbn [bind].
    split; [reflexivity|]. constructor; [|exact Hl]. exact (dense_view_blocks Hfit).
Qed.

(** [concatenate] along an axis that is not the last.  For tensors that
    all pass the constructor's checks and share one spec, whose buffers
    have the same shape apart from the axis, given from the front or as a
    negative number, the result is a tensor over that spec that passes the
    checks: its buffer is the runtime concatenation of the buffers along
    the axis, whose length there is the sum of the lengths, and its block
    view holds one block per entry, every one present, also at an entry
    where every tensor holds [None]. *)
Theorem concatenate_leading (first : IrrepsArray T) (rest : list (IrrepsArray T))
  (pre post ws : list nat) (axis : Z) :
  Forall (fun x : IrrepsArray T => checked x /\ irreps x = irreps first) (first :: rest) ->
  Forall2 (fun (x : IrrepsArray T) w =>
             shape_of x = pre ++ w :: post ++ [Irreps.dim (irreps first)])
    (first :: rest) ws ->
  axis = Z.of_nat (length pre)
  \/ axis = (Z.of_nat (length pre) - Z.of_nat (ndim (array first)))%Z ->
  exists arr lst,
    concatenate_ (first :: rest) axis = Ok (mkIrrepsArray (irreps first) arr (Some lst))
    /\ concatenate_at (map (fun x : IrrepsArray T => array x) (first :: rest)) (length pre)
       = Ok arr
    /\ shape arr = pre ++ list_sum ws :: post ++ [Irreps.dim (irreps first)]
    /\ Forall2 (block_of (pre ++ list_sum ws :: post)) lst (irreps first)
    /\ checked (mkIrrepsArray (irreps first) arr (Some lst)).
Proof.
  intros Hall HF Hax.
  assert (Hws : ws <> []) by (intros ->; inversion HF).
  assert (Hn : ndim (array first) = length pre + S (S (length post))).
  { inversion HF as [|? w0 ? ? Hs0 _]; subst. unfold ndim. unfold shape_of in Hs0.
    rewrite Hs0, length_app. cbn [length]. rewrite length_app. cbn [length]. lia. }
  assert (Hnorm : norm_axis (ndim (array first)) axis = length pre).
  { unfold norm_axis. rewrite Hn. destruct Hax as [-> | ->].
    - rewrite Z.mod_small by lia. apply Nat2Z.id.
    - rewrite Hn.
      replace (Z.of_nat (length pre) - Z.of_nat (length pre + S (S (length post))))%Z
        with (Z.of_nat (length pre)
              + (-1) * Z.of_nat (length pre + S (S (length post))))%Z by lia.
      rewrite Z.mod_add by lia. rewrite Z.mod_small by lia. apply Nat2Z.id. }
  assert (Hrange : (- Z.of_nat (ndim (array first)) <=? axis)%Z
                   && (axis <? Z.of_nat (ndim (array first)))%Z = true).
  { apply andb_true_iff. rewrite Z.leb_le, Z.ltb_lt, Hn. destruct Hax as [-> | ->]; [lia|].
    rewrite Hn. lia. }
  destruct (@replaced_all (irreps first) pre post ws (first :: rest) Hall HF) as (arrays' & lists & Er & Ea & Hi & Hlen & El & Hl).
  assert (Hparts : Forall2 (fun (p : ndarray T) w =>
                              shape p = pre ++ w :: post ++ [Irreps.dim (irreps first)])
                     (map (fun x : IrrepsArray T => array x) (first :: rest)) ws).
  { clear -HF. induction HF; cbn [map]; constructor; auto. }
  destruct (@concatenate_at_ok _ _ pre (post ++ [Irreps.dim (irreps first)]) ws Hparts
              ltac:(discriminate)) as (arr & Earr & Hsarr).
  assert (Hlne : lists <> []).
  { intros ->. inversion Hl; subst. congruence. }
  assert (Hcols := @zip_star_columns _ _ _
                     (fun w (x : option (ndarray T)) mi => block_of (pre ++ w :: post) x mi)
                     lists ws (irreps first) Hlne Hl).
  destruct (@concatenate_columns_ok pre post ws (irreps first) _ Hws Hcols)
    as (lst & Elst & Hlst).
  assert (Hsarr' : shape arr = (pre ++ list_sum ws :: post) ++ [Irreps.dim (irreps first)])
    by (rewrite Hsarr, <- app_assoc; reflexivity).
  assert (Hinit := init_with_list _ Hsarr' (block_of_fits Hlst)).
  exists arr, lst. split; [|split; [exact Earr|split; [exact Hsarr|split; [exact Hlst|exact Hinit]]]].
  unfold concatenate_. rewrite Hrange. cbn [assert bind]. rewrite Hnorm.
  replace (length pre =? ndim (array first) - 1) with false
    by (symmetry; apply Nat.eqb_neq; lia).
  replace (forallb (fun x : IrrepsArray T => Irreps.eqb (irreps x) (irreps first))
             (first :: rest)) with true.
  2:{ symmetry. apply forallb_forall. intros x Hx.
      destruct (proj1 (Forall_forall _ _) Hall x Hx) as [_ ->]. apply irreps_eqb_refl. }
  cbn [assert bind]. rewrite Er. cbn [bind].
  destruct arrays' as [|first' rest']; [discriminate|].
  rewrite Ea, Earr. cbn [bind]. rewrite El. cbn [bind]. rewrite Elst. cbn [bind].
  inversion Hi as [|? ? Hf' _]; subst. rewrite Hf'. exact Hinit.
Qed.

End ConcatLeading.

(** [concatenate_leading] at two tensors of shape [(1, 1)] over [0e], one
    of them without data, along the first axis. *)
Lemma concatenate_leading_witness :
  let x := mkIrrepsArray [(1, Irreps.ir0e)] (mk [1; 1] [5]%Z) None in
  let y := mkIrrepsArray [(1, Irreps.ir0e)] (mk [1; 1] [0]%Z) (Some [None]) in
  exists arr lst,
    concatenate_ [x; y] (-2)%Z = Ok (mkIrrepsArray [(1, Irreps.ir0e)] arr (Some lst))
    /\ shape arr = [2; 1]
    /\ Forall2 (block_of [2]) lst [(1, Irreps.ir0e)].
Proof.
  intros x y.
  destruct (@concatenate_leading Z _ x [y] [] [] [1; 1] (-2)%Z) as (arr & lst & E & _ & Hs & Hl & _).
  - repeat constructor.
  - repeat constructor.
  - now right.
  - exists arr, lst. split; [exact E|]. split; [exact Hs | exact Hl].
Defined.
